(** * IGDB / SteamSpy enrichment pipeline

    A shallow embedding of [enrich_igdb_with_steam.py] and
    [retry_failed_steamspy.py]:

    - the documents the scripts exchange are JSON values as [json.load]
      delivers them, with Python's dynamic behaviour on them (attribute and
      type errors included);
    - the network and the file system are an explicit world: an oracle gives
      the outcome of every HTTP request from the history of requests, and a
      state records the requests made, the pacing delays slept and the
      documents written;
    - the two scripts live in the modules [Enrich] and [Retry], which keep the
      names of the Python functions; the loaders, the summary and [main] of
      the enrichment script are in [EnrichScript], and
      [fetch_data_from_igdb.py] is in [Fetch]. *)

From Stdlib Require Import ZArith String Ascii List Bool Lia.
From stdpp Require Import base option list gmap strings.

Local Open Scope string_scope.
Local Open Scope list_scope.
Local Open Scope Z_scope.

(** ** Python values loaded from JSON *)

(** A Python float: not-a-number, an infinity, or the dyadic rational
    [m * 2^e].  The scripts never compute with floats; they only convert them
    with [int()], compare them with an integer, and test their truth value. *)
Inductive pyfloat : Type :=
  | FNan
  | FInf (negative : bool)
  | FFin (m e : Z).

#[local] Unset Elimination Schemes.
Inductive json : Type :=
  | JNull
  | JBool (b : bool)
  | JInt (n : Z)
  | JFloat (f : pyfloat)
  | JStr (s : string)
  | JList (l : list json)
  | JObj (d : list (string * json)).
#[local] Set Elimination Schemes.

(** The exceptions the code can meet.  [HTTPError] is a subclass of
    [RequestException]; every one of them is a subclass of [Exception]. *)
Inductive exn : Type :=
  | TypeError
  | ValueError
  | OverflowError
  | AttributeError
  | KeyError
  | IndexError
  | RequestException
  | HTTPError
  | JSONDecodeError
  | OSError.

Inductive result (A : Type) : Type :=
  | Ok (a : A)
  | Raise (e : exn).
Arguments Ok {A} a.
Arguments Raise {A} e.

Definition rbind {A B} (r : result A) (k : A -> result B) : result B :=
  match r with
  | Ok a => k a
  | Raise e => Raise e
  end.

Definition is_ok {A} (r : result A) : bool :=
  match r with Ok _ => true | Raise _ => false end.

(** *** Dictionaries

    A [dict] is the list of its items in insertion order. *)

Fixpoint dict_get (k : string) (d : list (string * json)) : option json :=
  match d with
  | [] => None
  | (k', v) :: d' => if String.eqb k k' then Some v else dict_get k d'
  end.

(** [d[k] = v]: replaces the value of an existing key in place, appends a new
    key at the end. *)
Fixpoint dict_set (k : string) (v : json) (d : list (string * json))
  : list (string * json) :=
  match d with
  | [] => [(k, v)]
  | (k', v') :: d' =>
      if String.eqb k k' then (k', v) :: d' else (k', v') :: dict_set k v d'
  end.

(** [x.get(k, default)]: only a dict has the method. *)
Definition py_get (x : json) (k : string) (default : json) : result json :=
  match x with
  | JObj d => Ok (match dict_get k d with Some v => v | None => default end)
  | _ => Raise AttributeError
  end.

(** [x[k]] with a string key. *)
Definition py_getitem (x : json) (k : string) : result json :=
  match x with
  | JObj d => match dict_get k d with Some v => Ok v | None => Raise KeyError end
  | _ => Raise TypeError
  end.

(** [x[k] = v] with a string key. *)
Definition py_setitem (x : json) (k : string) (v : json) : result json :=
  match x with
  | JObj d => Ok (JObj (dict_set k v d))
  | _ => Raise TypeError
  end.

(** [k in x] for a dict [x], as a boolean. *)
Definition has_key (k : string) (x : json) : bool :=
  match x with
  | JObj d => match dict_get k d with Some _ => true | None => false end
  | _ => false
  end.

(** [x.copy()]: dicts and lists have the method; the copy is shallow, and the
    scripts never mutate a nested value, so the copy is the value itself. *)
Definition py_copy (x : json) : result json :=
  match x with
  | JObj _ | JList _ => Ok x
  | _ => Raise AttributeError
  end.

(** *** Strings

    A [string] holds the UTF-8 encoding of a Python [str].  [utf8_split] cuts
    it into the encodings of its characters (a byte that starts no
    well-formed sequence stands alone) and [code_point] reads the code point
    of one character, [65533] for a byte that stands alone, for an overlong
    form and for a value beyond the code space. *)

Definition is_continuation (b : ascii) : bool :=
  let n := N_of_ascii b in ((128 <=? n) && (n <? 192))%N.

Fixpoint utf8_split (l : list ascii) : list (list ascii) :=
  match l with
  | [] => []
  | b0 :: l1 =>
      let n0 := N_of_ascii b0 in
      if (n0 <? 192)%N then [b0] :: utf8_split l1
      else if (n0 <? 224)%N then
        match l1 with
        | b1 :: l2 =>
            if is_continuation b1 then [b0; b1] :: utf8_split l2
            else [b0] :: utf8_split l1
        | [] => [b0] :: utf8_split l1
        end
      else if (n0 <? 240)%N then
        match l1 with
        | b1 :: b2 :: l3 =>
            if is_continuation b1 && is_continuation b2
            then [b0; b1; b2] :: utf8_split l3
            else [b0] :: utf8_split l1
        | _ => [b0] :: utf8_split l1
        end
      else
        match l1 with
        | b1 :: b2 :: b3 :: l4 =>
            if is_continuation b1 && is_continuation b2 && is_continuation b3
            then [b0; b1; b2; b3] :: utf8_split l4
            else [b0] :: utf8_split l1
        | _ => [b0] :: utf8_split l1
        end
  end.

Definition code_point (c : list ascii) : N :=
  match map N_of_ascii c with
  | [n0] => if (n0 <? 128)%N then n0 else 65533%N
  | [n0; n1] =>
      let v := ((n0 - 192) * 64 + (n1 - 128))%N in
      if (128 <=? v)%N then v else 65533%N
  | [n0; n1; n2] =>
      let v := ((n0 - 224) * 4096 + (n1 - 128) * 64 + (n2 - 128))%N in
      if (2048 <=? v)%N then v else 65533%N
  | [n0; n1; n2; n3] =>
      let v := ((n0 - 240) * 262144 + (n1 - 128) * 4096 + (n2 - 128) * 64
                + (n3 - 128))%N in
      if ((65536 <=? v) && (v <=? 1114111))%N then v else 65533%N
  | _ => 65533%N
  end.

(** The characters of a string, each as a string. *)
Definition characters (s : string) : list string :=
  map string_of_list_ascii (utf8_split (list_ascii_of_string s)).

(** The code points of a string. *)
Definition code_points (s : string) : list N :=
  map code_point (utf8_split (list_ascii_of_string s)).

(** The items a [for] loop over [x] visits. *)
Definition py_iter (x : json) : result (list json) :=
  match x with
  | JList l => Ok l
  | JObj d => Ok (map (fun kv => JStr (fst kv)) d)
  | JStr s => Ok (map JStr (characters s))
  | _ => Raise TypeError
  end.

(** Truth value of [x] in a condition. *)
Definition py_truthy (x : json) : bool :=
  match x with
  | JNull => false
  | JBool b => b
  | JInt n => negb (n =? 0)
  | JFloat (FFin m _) => negb (m =? 0)
  | JFloat _ => true
  | JStr s => negb (String.eqb s "")
  | JList l => match l with [] => false | _ => true end
  | JObj d => match d with [] => false | _ => true end
  end.

(** [x == s] for a string [s]. *)
Definition py_eq_str (x : json) (s : string) : bool :=
  match x with
  | JStr s' => String.eqb s' s
  | _ => false
  end.

(** [x == n] for an integer [n]: numbers compare by value across [bool],
    [int] and [float]; nothing else equals an integer. *)
Definition py_eq_int (x : json) (n : Z) : bool :=
  match x with
  | JBool b => (if b then 1 else 0) =? n
  | JInt m => m =? n
  | JFloat (FFin m e) =>
      if 0 <=? e then m * 2 ^ e =? n else m =? n * 2 ^ (- e)
  | _ => false
  end.

(** *** [int()]

    [int()] of a string strips white space at both ends, reads an optional
    sign, then decimal digits with single underscores between them.  The
    white space it strips is the ASCII set 9-13 and 32 and the Unicode white
    space above 127; a decimal digit is any character with the Unicode
    property "decimal" (Unicode 14), ['0'..'9'] among them. *)

Definition is_space (c : N) : bool :=
  (((9 <=? c) && (c <=? 13)) || (c =? 32) || (c =? 133) || (c =? 160)
   || (c =? 5760) || ((8192 <=? c) && (c <=? 8202)) || (c =? 8232)
   || (c =? 8233) || (c =? 8239) || (c =? 8287) || (c =? 12288))%N.

(** The code points of the digits zero; the nine code points after each are
    the digits one to nine of the same script. *)
Definition decimal_zeros : list N :=
  [48; 1632; 1776; 1984; 2406; 2534; 2662; 2790; 2918; 3046; 3174; 3302;
   3430; 3558; 3664; 3792; 3872; 4160; 4240; 6112; 6160; 6470; 6608; 6784;
   6800; 6992; 7088; 7232; 7248; 42528; 43216; 43264; 43472; 43504; 43600;
   44016; 65296; 66720; 68912; 69734; 69872; 69942; 70096; 70384; 70736;
   70864; 71248; 71360; 71472; 71904; 72016; 72784; 73040; 73120; 92768;
   92864; 93008; 120782; 120792; 120802; 120812; 120822; 123200; 123632;
   125264; 130032]%N.

Definition digit_of (c : N) : option Z :=
  match find (fun z => (z <=? c) && (c <? z + 10))%N decimal_zeros with
  | Some z => Some (Z.of_N (c - z))
  | None => None
  end.

Definition is_underscore (c : N) : bool := (c =? 95)%N.

Fixpoint lstrip (l : list N) : list N :=
  match l with
  | c :: l' => if is_space c then lstrip l' else l
  | [] => []
  end.

Definition strip (l : list N) : list N :=
  rev (lstrip (rev (lstrip l))).

(** Digits with single underscores between them; [acc] is the value read so
    far, [cnt] the number of digits read so far, [after_digit] tells whether
    the previous character was a digit. *)
Fixpoint parse_digits (l : list N) (acc : Z) (cnt : nat) (after_digit : bool)
  : option (Z * nat) :=
  match l with
  | [] => if after_digit then Some (acc, cnt) else None
  | c :: l' =>
      match digit_of c with
      | Some d => parse_digits l' (10 * acc + d) (S cnt) true
      | None =>
          if is_underscore c && after_digit
          then parse_digits l' acc cnt false
          else None
      end
  end.

(** CPython's default limit on the digits of a string converted to [int]. *)
Definition int_max_str_digits : nat := 4300.

Definition int_of_str (s : string) : result Z :=
  let body := strip (code_points s) in
  let '(negative, digits) :=
    match body with
    | c :: l' =>
        if (c =? 45)%N then (true, l')
        else if (c =? 43)%N then (false, l')
        else (false, body)
    | [] => (false, body)
    end in
  match parse_digits digits 0 0 false with
  | Some (v, cnt) =>
      if (int_max_str_digits <? cnt)%nat then Raise ValueError
      else Ok (if negative then - v else v)
  | None => Raise ValueError
  end.

(** [int(x)]: truncation towards zero for a finite float, [ValueError] for a
    NaN, [OverflowError] for an infinity, [TypeError] for a value that is
    neither a number nor a string. *)
Definition py_int (x : json) : result Z :=
  match x with
  | JBool b => Ok (if b then 1 else 0)
  | JInt n => Ok n
  | JFloat FNan => Raise ValueError
  | JFloat (FInf _) => Raise OverflowError
  | JFloat (FFin m e) =>
      Ok (if 0 <=? e then m * 2 ^ e else Z.quot m (2 ^ (- e)))
  | JStr s => int_of_str s
  | JNull | JList _ | JObj _ => Raise TypeError
  end.

(** [if steam_app_id:] on the result of the extractor: [None] and [0] are
    false. *)
Definition id_truthy (o : option Z) : option Z :=
  match o with
  | Some n => if n =? 0 then None else Some n
  | None => None
  end.


(** ** The world: network and file system *)

(** What [requests.get] followed by [response.json()] can deliver: the call
    raises a [RequestException] (connection error, timeout, too many
    redirects), or a response arrives with a status code and a body that
    decodes as JSON ([Some]) or does not ([None]). *)
Inductive http_outcome : Type :=
  | TransportError
  | Response (status : Z) (body : option json).

(** [net history app_id] is the outcome of a request for [app_id] made after
    the requests of [history]; [writable path] tells whether [open(path, 'w')]
    succeeds. *)
Record world : Type := World {
  net : list Z -> Z -> http_outcome;
  writable : string -> bool
}.

(** [calls]: the identifiers requested so far, oldest first; [sleeps]: the
    pacing delays slept; [failed_doc] and [enriched_doc]: the Failure Set
    document and the enriched dataset document on disk, when they exist;
    [wlog]: the paths of the documents written, oldest first. *)
Record state : Type := State {
  calls : list Z;
  sleeps : nat;
  failed_doc : option (list Z);
  enriched_doc : option (list json);
  wlog : list string
}.

Definition failed_file : string := "failed_steamspy_fetches.json".
Definition enriched_file : string := "igdb_games_enriched.json".

(** [response.raise_for_status()] raises [HTTPError] for a client or server
    error status. *)
Definition raise_for_status (status : Z) : result unit :=
  if (400 <=? status) && (status <? 600) then Raise HTTPError else Ok tt.

(** The [try] block the two copies of [get_steamspy_data] share. *)
Definition request_appdetails (o : http_outcome) (app_id : Z)
  : result (option json) :=
  match o with
  | TransportError => Raise RequestException
  | Response status body =>
      rbind (raise_for_status status) (fun _ =>
      match body with
      | None => Raise JSONDecodeError
      | Some data =>
          if py_truthy data then
            rbind (py_get data "appid" JNull) (fun appid =>
            if py_eq_int appid app_id then Ok (Some data) else Ok None)
          else Ok None
      end)
  end.

(** [time.sleep(REQUEST_DELAY)] *)
Definition sleep (st : state) : state :=
  State (calls st) (S (sleeps st)) (failed_doc st) (enriched_doc st) (wlog st).

(** The request itself, as the state sees it. *)
Definition record_call (app_id : Z) (st : state) : state :=
  State (calls st ++ [app_id]) (sleeps st) (failed_doc st) (enriched_doc st)
        (wlog st).

(** [with open(failed_file, 'w') as f: json.dump(ids, f)] *)
Definition write_failed (w : world) (ids : list Z) (st : state)
  : result unit * state :=
  if writable w failed_file
  then (Ok tt, State (calls st) (sleeps st) (Some ids) (enriched_doc st)
                     (wlog st ++ [failed_file]))
  else (Raise OSError, st).

(** [with open(enriched_file, 'w') as f: json.dump(games, f)] *)
Definition write_enriched (w : world) (games : list json) (st : state)
  : result unit * state :=
  if writable w enriched_file
  then (Ok tt, State (calls st) (sleeps st) (failed_doc st) (Some games)
                     (wlog st ++ [enriched_file]))
  else (Raise OSError, st).

Definition is_RequestException (e : exn) : bool :=
  match e with RequestException | HTTPError => true | _ => false end.

Definition is_JSONDecodeError (e : exn) : bool :=
  match e with JSONDecodeError => true | _ => false end.

(** ** enrich_igdb_with_steam.py *)
Module Enrich.

Definition get_steamspy_data (w : world) (app_id : Z) (st : state)
  : option json * state :=
  let st' := record_call app_id st in
  match request_appdetails (net w (calls st) app_id) app_id with
  | Ok r => (r, st')
  | Raise e =>
      if is_RequestException e then (None, st')
      else if is_JSONDecodeError e then (None, st')
      else (None, st')
  end.

(** [external_game.get('external_game_source')['name'] == 'Steam'] *)
Definition is_steam (external_game : json) : result bool :=
  rbind (py_get external_game "external_game_source" JNull) (fun source =>
  rbind (py_getitem source "name") (fun name =>
  Ok (py_eq_str name "Steam"))).

(** The [for] loop of [find_steam_app_id] over the items still to visit. *)
Fixpoint scan (external_games : list json) : result (option Z) :=
  match external_games with
  | [] => Ok None
  | external_game :: rest =>
      rbind (is_steam external_game) (fun steam =>
      if steam then
        rbind (py_get external_game "uid" (JInt 0)) (fun uid =>
        match py_int uid with
        | Ok n => Ok (Some n)
        | Raise ValueError | Raise TypeError => scan rest
        | Raise e => Raise e
        end)
      else scan rest)
  end.

Definition find_steam_app_id (igdb_game : json) : result (option Z) :=
  rbind (py_get igdb_game "external_games" (JList [])) (fun external_games =>
  rbind (py_iter external_games) scan).

(** The locals of the loop of [enrich_igdb_with_steam_data]. *)
Record acc : Type := Acc {
  enriched_games : list json;
  failed_steam_ids : list Z;
  steam_enriched_count : nat
}.

(** One iteration of the loop. *)
Definition enrich_step (w : world) (steam_apps_dict : gmap Z json)
    (igdb_game : json) (a : acc) (st : state) : result acc * state :=
  match py_copy igdb_game with
  | Raise e => (Raise e, st)
  | Ok enriched_game =>
      match find_steam_app_id igdb_game with
      | Raise e => (Raise e, st)
      | Ok steam_app_id =>
          match id_truthy steam_app_id with
          | Some id =>
              match steam_apps_dict !! id with
              | Some _ =>
                  let '(steamspy_data, st1) := get_steamspy_data w id st in
                  match steamspy_data with
                  | Some data =>
                      if py_truthy data then
                        match py_setitem enriched_game "steamInfo" data with
                        | Ok g' =>
                            (Ok (Acc (enriched_games a ++ [g'])
                                     (failed_steam_ids a)
                                     (S (steam_enriched_count a))),
                             sleep st1)
                        | Raise e => (Raise e, st1)
                        end
                      else
                        (Ok (Acc (enriched_games a ++ [enriched_game])
                                 (failed_steam_ids a ++ [id])
                                 (steam_enriched_count a)),
                         sleep st1)
                  | None =>
                      (Ok (Acc (enriched_games a ++ [enriched_game])
                               (failed_steam_ids a ++ [id])
                               (steam_enriched_count a)),
                       sleep st1)
                  end
              | None =>
                  (Ok (Acc (enriched_games a ++ [enriched_game])
                           (failed_steam_ids a) (steam_enriched_count a)), st)
              end
          | None =>
              (Ok (Acc (enriched_games a ++ [enriched_game])
                       (failed_steam_ids a) (steam_enriched_count a)), st)
          end
      end
  end.

Fixpoint enrich_loop (w : world) (steam_apps_dict : gmap Z json)
    (games_to_process : list json) (a : acc) (st : state)
  : result acc * state :=
  match games_to_process with
  | [] => (Ok a, st)
  | igdb_game :: rest =>
      match enrich_step w steam_apps_dict igdb_game a st with
      | (Ok a', st') => enrich_loop w steam_apps_dict rest a' st'
      | (Raise e, st') => (Raise e, st')
      end
  end.

Definition enrich_igdb_with_steam_data (w : world) (igdb_games : list json)
    (steam_apps_dict : gmap Z json) (st : state)
  : result (list json) * state :=
  match enrich_loop w steam_apps_dict igdb_games (Acc [] [] 0) st with
  | (Raise e, st') => (Raise e, st')
  | (Ok a, st') =>
      match failed_steam_ids a with
      | [] => (Ok (enriched_games a), st')
      | _ :: _ =>
          match write_failed w (failed_steam_ids a) st' with
          | (Ok _, st'') => (Ok (enriched_games a), st'')
          | (Raise e, st'') => (Raise e, st'')
          end
      end
  end.

End Enrich.

(** ** retry_failed_steamspy.py *)
Module Retry.

Definition load_failed_steam_ids (st : state) : list Z :=
  match failed_doc st with
  | Some failed_ids => failed_ids
  | None => []
  end.

Definition load_enriched_games (st : state) : list json :=
  match enriched_doc st with
  | Some games => games
  | None => []
  end.

Definition get_steamspy_data (w : world) (app_id : Z) (st : state)
  : option json * state :=
  let st' := record_call app_id st in
  match request_appdetails (net w (calls st) app_id) app_id with
  | Ok r => (r, st')
  | Raise _ => (None, st')
  end.

(** [external_game.get('external_game_source', {}).get('name') == 'Steam'] *)
Definition is_steam (external_game : json) : result bool :=
  rbind (py_get external_game "external_game_source" (JObj [])) (fun source =>
  rbind (py_get source "name" JNull) (fun name =>
  Ok (py_eq_str name "Steam"))).

(** The [for] loop of [find_steam_app_id] over the items still to visit. *)
Fixpoint scan (external_games : list json) : result (option Z) :=
  match external_games with
  | [] => Ok None
  | external_game :: rest =>
      rbind (is_steam external_game) (fun steam =>
      if steam then
        rbind (py_get external_game "uid" (JInt 0)) (fun uid =>
        match py_int uid with
        | Ok n => Ok (Some n)
        | Raise ValueError | Raise TypeError => scan rest
        | Raise e => Raise e
        end)
      else scan rest)
  end.

Definition find_steam_app_id (igdb_game : json) : result (option Z) :=
  rbind (py_get igdb_game "external_games" (JList [])) (fun external_games =>
  rbind (py_iter external_games) scan).

(** The first loop of [retry_failed_fetches]: [i] is the position of the
    first game of [games] in [enriched_games]. *)
Fixpoint build_index (games : list json) (i : nat)
    (steam_id_to_game_index : gmap Z nat) : result (gmap Z nat) :=
  match games with
  | [] => Ok steam_id_to_game_index
  | game :: rest =>
      rbind (find_steam_app_id game) (fun steam_app_id =>
      match id_truthy steam_app_id with
      | Some id => build_index rest (S i) (<[id := i]> steam_id_to_game_index)
      | None => build_index rest (S i) steam_id_to_game_index
      end)
  end.

(** The locals the second loop updates; [enriched_games] is the caller's
    list, mutated in place. *)
Record acc : Type := Acc {
  enriched_games : list json;
  still_failed : list Z;
  success_count : nat
}.

(** One iteration of the second loop. *)
Definition retry_step (w : world) (steam_id_to_game_index : gmap Z nat)
    (steam_app_id : Z) (a : acc) (st : state) : result acc * state :=
  match steam_id_to_game_index !! steam_app_id with
  | Some game_index =>
      let '(steamspy_data, st1) := get_steamspy_data w steam_app_id st in
      match steamspy_data with
      | Some data =>
          if py_truthy data then
            match enriched_games a !! game_index with
            | None => (Raise IndexError, st1)
            | Some game =>
                match py_setitem game "steamInfo" data with
                | Raise e => (Raise e, st1)
                | Ok game' =>
                    (Ok (Acc (<[game_index := game']> (enriched_games a))
                             (still_failed a) (S (success_count a))),
                     sleep st1)
                end
            end
          else
            (Ok (Acc (enriched_games a) (still_failed a ++ [steam_app_id])
                     (success_count a)), sleep st1)
      | None =>
          (Ok (Acc (enriched_games a) (still_failed a ++ [steam_app_id])
                   (success_count a)), sleep st1)
      end
  | None =>
      (Ok (Acc (enriched_games a) (still_failed a ++ [steam_app_id])
               (success_count a)), st)
  end.

Fixpoint retry_loop (w : world) (steam_id_to_game_index : gmap Z nat)
    (failed_steam_ids : list Z) (a : acc) (st : state) : result acc * state :=
  match failed_steam_ids with
  | [] => (Ok a, st)
  | steam_app_id :: rest =>
      match retry_step w steam_id_to_game_index steam_app_id a st with
      | (Ok a', st') => retry_loop w steam_id_to_game_index rest a' st'
      | (Raise e, st') => (Raise e, st')
      end
  end.

Definition retry_failed_fetches (w : world) (failed_steam_ids : list Z)
    (enriched_games : list json) (st : state)
  : result (list json * list Z) * state :=
  match build_index enriched_games 0 ∅ with
  | Raise e => (Raise e, st)
  | Ok steam_id_to_game_index =>
      match retry_loop w steam_id_to_game_index failed_steam_ids
                       (Acc enriched_games [] 0) st with
      | (Ok a, st') => (Ok (Retry.enriched_games a, still_failed a), st')
      | (Raise e, st') => (Raise e, st')
      end
  end.

(** The two [save_...] functions catch and log every exception. *)
Definition save_updated_games (w : world) (enriched_games : list json)
    (st : state) : state :=
  snd (write_enriched w enriched_games st).

Definition save_still_failed (w : world) (still_failed : list Z) (st : state)
  : state :=
  snd (write_failed w still_failed st).

Definition main (w : world) (st : state) : result unit * state :=
  let failed_steam_ids := load_failed_steam_ids st in
  match failed_steam_ids with
  | [] => (Ok tt, st)
  | _ :: _ =>
      let enriched_games := load_enriched_games st in
      match enriched_games with
      | [] => (Ok tt, st)
      | _ :: _ =>
          match retry_failed_fetches w failed_steam_ids enriched_games st with
          | (Raise e, st') => (Raise e, st')
          | (Ok (updated_games, still_failed), st') =>
              let st1 := save_updated_games w updated_games st' in
              let st2 := save_still_failed w still_failed st1 in
              (Ok tt, st2)
          end
      end
  end.

End Retry.

(** ** Statements and sample data *)

(** The payload is a mapping whose ['appid'] equals the requested
    identifier. *)
Definition echoes_id (p : json) (x : Z) : bool :=
  match p with
  | JObj d =>
      match dict_get "appid" d with
      | Some v => py_eq_int v x
      | None => false
      end
  | _ => false
  end.

(** A fetcher answers with a payload exactly for a 2xx response whose body
    decodes to a payload that echoes the identifier. *)
Definition payload_iff_2xx
    (fetch : world -> Z -> state -> option json * state)
    (w : world) (x : Z) (st : state) : Prop :=
  forall p,
    fst (fetch w x st) = Some p <->
    exists status,
      net w (calls st) x = Response status (Some p) /\
      200 <= status < 300 /\ echoes_id p x = true.

(** What a fetcher does, as the code has it: a payload exactly for a
    completed request whose status [raise_for_status] accepts and whose body
    decodes to a payload that echoes the identifier; no payload when the
    identifier is not echoed or the [try] block raises; one request per
    invocation. *)
Definition fetcher_contract
    (fetch : world -> Z -> state -> option json * state)
    (w : world) (x : Z) (st : state) : Prop :=
  (forall p,
     fst (fetch w x st) = Some p <->
     exists status,
       net w (calls st) x = Response status (Some p) /\
       ~ (400 <= status < 600) /\ echoes_id p x = true) /\
  (forall status p,
     net w (calls st) x = Response status (Some p) ->
     echoes_id p x = false -> fst (fetch w x st) = None) /\
  (forall e,
     request_appdetails (net w (calls st) x) x = Raise e ->
     fst (fetch w x st) = None) /\
  snd (fetch w x st) = record_call x st.

(** Every identifier of the failure list is absent from [still] or occurs in
    it exactly once. *)
Definition accounted_once (failed still : list Z) : Prop :=
  forall x, In x failed -> ~ In x still \/ count_occ Z.eq_dec still x = 1%nat.

(** The records a run of the enrichment loop may put in place of [g]: [g]
    itself, or [g] with ['steamInfo'] set. *)
Definition same_or_enriched (g g' : json) : Prop :=
  g' = g \/ exists d data, g = JObj d /\ g' = JObj (dict_set "steamInfo" data d).

(** A cross-reference entry naming [source] with the given [uid]. *)
Definition xref (source : string) (uid : json) : json :=
  JObj [("external_game_source", JObj [("name", JStr source)]); ("uid", uid)].

(** The record of the spec's scenario, [{"cross_references": [{"source":
    {"name": "Steam"}, "uid": "440"}]}], under the keys the code reads. *)
Definition tf2 : json :=
  JObj [("name", JStr "Team Fortress 2");
        ("external_games", JList [xref "Steam" (JStr "440")])].

(** A cross-reference entry that lacks its source. *)
Definition no_source : json :=
  JObj [("external_games", JList [JObj [("uid", JStr "440")]])].

(** A Steam entry whose uid is the float [1e999], followed by a good one. *)
Definition overflowing_uid : json :=
  JObj [("external_games",
         JList [xref "Steam" (JFloat (FInf false)); xref "Steam" (JStr "440")])].

(** A Steam entry without uid, followed by one with uid ["440"]. *)
Definition uid_missing : json :=
  JObj [("external_games",
         JList [xref "GOG" (JStr "7");
                JObj [("external_game_source", JObj [("name", JStr "Steam")])];
                xref "Steam" (JStr "440")])].

(** Worlds: the service is down; the service answers every request with
    status [status] and a payload echoing the identifier. *)
Definition world_down : world :=
  World (fun _ _ => TransportError) (fun _ => true).

Definition world_status (status : Z) : world :=
  World (fun _ x => Response status
                      (Some (JObj [("appid", JInt x); ("owners", JStr "1,000,000")])))
        (fun _ => true).

Definition fresh : state := State [] 0 None None [].

Definition steam_apps : gmap Z json := {[ 440 := JObj [("appid", JInt 440)] ]}.

(** The shape of a Primary Record in the data model: a mapping whose
    ['external_games'], when present, is a list of mappings that each hold a
    source mapping with a name; the uid is free, except that it is not an
    infinite float. *)
Definition wf_entry (e : json) : bool :=
  match e with
  | JObj d =>
      match dict_get "external_game_source" d with
      | Some (JObj source) =>
          match dict_get "name" source with
          | Some _ =>
              match dict_get "uid" d with
              | Some (JFloat (FInf _)) => false
              | _ => true
              end
          | None => false
          end
      | _ => false
      end
  | _ => false
  end.

Definition wf_record (g : json) : bool :=
  match g with
  | JObj d =>
      match dict_get "external_games" d with
      | None => true
      | Some (JList l) => forallb wf_entry l
      | Some _ => false
      end
  | _ => false
  end.

(** An entry the scan passes over: its source is not Steam, or it is and the
    conversion of its uid raises one of the two exceptions the loop catches. *)
Definition enrich_skipped (e : json) : Prop :=
  Enrich.is_steam e = Ok false \/
  (Enrich.is_steam e = Ok true /\
   exists uid, py_get e "uid" (JInt 0) = Ok uid /\
     (py_int uid = Raise ValueError \/ py_int uid = Raise TypeError)).

Definition retry_skipped (e : json) : Prop :=
  Retry.is_steam e = Ok false \/
  (Retry.is_steam e = Ok true /\
   exists uid, py_get e "uid" (JInt 0) = Ok uid /\
     (py_int uid = Raise ValueError \/ py_int uid = Raise TypeError)).

(** The lookup points at mappings of the list [gs]. *)
Definition index_valid (index : gmap Z nat) (gs : list json) : Prop :=
  forall x j, index !! x = Some j -> exists d, gs !! j = Some (JObj d).

(** A record enriched by an earlier run, and the claim about it as C8 words
    it: whenever a fetch for the identifier of an enriched record succeeds
    (and is the last one for that identifier), the record's enrichment field
    is the new payload. *)
Definition tf2_old_items : list (string * json) :=
  [("name", JStr "Team Fortress 2 (2007)");
   ("external_games", JList [xref "Steam" (JStr "440")]);
   ("steamInfo", JObj [("appid", JInt 440); ("owners", JStr "0")])].

Definition overwritten_by_any_success (w : world) (failed : list Z)
    (games : list json) (st : state) : Prop :=
  forall index games' still st' j d x pre post a1 st1 data,
    Retry.build_index games 0 ∅ = Ok index ->
    Retry.retry_failed_fetches w failed games st = (Ok (games', still), st') ->
    games !! j = Some (JObj d) ->
    has_key "steamInfo" (JObj d) = true ->
    Retry.find_steam_app_id (JObj d) = Ok (Some x) ->
    failed = pre ++ x :: post -> ~ In x post ->
    Retry.retry_loop w index pre (Retry.Acc games [] 0) st = (Ok a1, st1) ->
    fst (Retry.get_steamspy_data w x st1) = Some data ->
    games' !! j = Some (JObj (dict_set "steamInfo" data d)).

(** The claim of C9 for the retry stage: a run that ends with nothing left
    to retry writes no Failure Set document. *)
Definition retry_writes_only_nonempty (w : world) (st : state) : Prop :=
  forall games' still st1 st' new,
    Retry.retry_failed_fetches w (Retry.load_failed_steam_ids st)
                               (Retry.load_enriched_games st) st
    = (Ok (games', still), st1) ->
    Retry.main w st = (Ok tt, st') ->
    still = [] ->
    wlog st' = wlog st ++ new ->
    ~ In failed_file new.

(** The disk before a retry: one failed identifier, one record. *)
Definition one_failure_left : state :=
  State [] 0 (Some [440]) (Some [tf2]) [].

(** The same service on a disk where no file can be opened for writing. *)
Definition read_only (w : world) : world := World (net w) (fun _ => false).

(** The claim of C5 as it is worded: whichever fetches succeed or fail, that
    is, in every world, [enrich] returns as many records as it was given. *)
Definition returns_a_record_per_input (games : list json)
    (apps : gmap Z json) (st : state) : Prop :=
  forall w, exists out st',
    Enrich.enrich_igdb_with_steam_data w games apps st = (Ok out, st') /\
    length out = length games.



(** ** The rest of the scripts *)

(** [ZeroDivisionError] beside the exceptions above, and results that may
    carry it. *)
Inductive pyexn : Type :=
  | ZeroDivisionError
  | Builtin (e : exn).

Inductive outcome (A : Type) : Type :=
  | Returns (a : A)
  | Raises (e : pyexn).
Arguments Returns {A} a.
Arguments Raises {A} e.

Definition lift {A} (r : result A) : outcome A :=
  match r with
  | Ok a => Returns a
  | Raise e => Raises (Builtin e)
  end.

(** [s in t] for two strings. *)
Fixpoint is_substring (s t : string) : bool :=
  String.prefix s t ||
  match t with
  | EmptyString => false
  | String _ t' => is_substring s t'
  end.

(** [s in x] for a string [s]: a key of a dict, an element of a list, a
    substring of a string; any other [x] is not iterable. *)
Definition py_contains_str (s : string) (x : json) : result bool :=
  match x with
  | JObj _ => Ok (has_key s x)
  | JList l => Ok (existsb (fun y => py_eq_str y s) l)
  | JStr t => Ok (is_substring s t)
  | _ => Raise TypeError
  end.

(** ** fetch_data_from_igdb.py *)
Module Fetch.

(** [igdb history limit offset] is what the IGDB service answers to the
    query with [limit] and [offset] posted after the queries of [history];
    [can_write path] tells whether [open(path, 'w')] succeeds. *)
Record env : Type := Env {
  igdb : list (Z * Z) -> Z -> Z -> http_outcome;
  can_write : string -> bool
}.

(** [queries]: the (limit, offset) pairs posted so far, oldest first;
    [pauses]: the rate-limiting delays slept; [igdb_games_doc]: the catalog
    document on disk, when it exists; [written]: the paths written. *)
Record store : Type := Store {
  queries : list (Z * Z);
  pauses : nat;
  igdb_games_doc : option (list json);
  written : list string
}.

Definition igdb_games_file : string := "igdb_games.json".

(** [make_api_request('games', query)], the query being determined by its
    [limit] and [offset]: the status of the response is not looked at. *)
Definition make_api_request (e : env) (limit offset : Z) (st : store)
  : result json * store :=
  let st' := Store (queries st ++ [(limit, offset)]) (pauses st)
                   (igdb_games_doc st) (written st) in
  match igdb e (queries st) limit offset with
  | TransportError => (Raise RequestException, st')
  | Response _ None => (Raise JSONDecodeError, st')
  | Response _ (Some v) => (Ok v, st')
  end.

(** [time.sleep(0.25)] *)
Definition pause (st : store) : store :=
  Store (queries st) (S (pauses st)) (igdb_games_doc st) (written st).

(** The [while True] loop of [fetch_games]; [fuel] bounds the number of
    iterations, and [None] means the bound was reached. *)
Fixpoint fetch_loop (e : env) (fuel : nat) (max_games : option Z)
    (batch_size : Z) (all_games : list json) (offset : Z) (st : store)
  : option (outcome (list json) * store) :=
  match fuel with
  | O => None
  | S fuel' =>
      let len := Z.of_nat (length all_games) in
      if match max_games with Some m => m <=? len | None => false end
      then Some (Returns all_games, st)
      else
        let current_batch_size :=
          match max_games with
          | Some m => Z.min batch_size (m - len)
          | None => batch_size
          end in
        (* the log line divides [offset] by [batch_size] *)
        if batch_size =? 0 then Some (Raises ZeroDivisionError, st)
        else
          match make_api_request e current_batch_size offset st with
          | (Raise x, st1) => Some (Raises (Builtin x), st1)
          | (Ok games_batch, st1) =>
              if negb (py_truthy games_batch) then Some (Returns all_games, st1)
              else
                match py_iter games_batch with
                | Raise x => Some (Raises (Builtin x), st1)
                | Ok items =>
                    let all_games' := all_games ++ items in
                    let st2 := pause st1 in
                    if Z.of_nat (length items) <? current_batch_size
                    then Some (Returns all_games', st2)
                    else fetch_loop e fuel' max_games batch_size all_games'
                                    (offset + current_batch_size) st2
                end
          end
  end.

Definition fetch_games (e : env) (access_token : option string) (fuel : nat)
    (max_games : option Z) (batch_size : Z) (st : store)
  : option (outcome (list json) * store) :=
  match access_token with
  | None | Some EmptyString => Some (Returns [], st)
  | Some _ => fetch_loop e fuel max_games (Z.min batch_size 500) [] 0 st
  end.

(** [save_to_json] catches and logs every exception. *)
Definition save_to_json (e : env) (data : list json) (filename : string)
    (st : store) : store :=
  if can_write e filename
  then Store (queries st) (pauses st)
             (if String.eqb filename igdb_games_file then Some data
              else igdb_games_doc st)
             (written st ++ [filename])
  else st.

(** The log lines of [main] after the save: [game.get('name', 'Unknown')]
    for the first five games. *)
Definition log_sample (games : list json) : result unit :=
  fold_left (fun r game => rbind r (fun _ =>
               rbind (py_get game "name" (JStr "Unknown")) (fun _ => Ok tt)))
            (firstn 5 games) (Ok tt).

(** [main]: every exception is caught and logged; the result tells whether
    one was. *)
Definition main (e : env) (access_token : option string) (fuel : nat)
    (st : store) : option (bool * store) :=
  match fetch_games e access_token fuel None 500 st with
  | None => None
  | Some (Raises _, st') => Some (true, st')
  | Some (Returns games, st') =>
      match games with
      | [] => Some (false, st')
      | _ :: _ =>
          let st'' := save_to_json e games igdb_games_file st' in
          match log_sample games with
          | Ok _ => Some (false, st'')
          | Raise _ => Some (true, st'')
          end
      end
  end.

End Fetch.

(** ** enrich_igdb_with_steam.py: loading, saving, summary and [main] *)
Module EnrichScript.

(** The two input documents: the catalog, a list of records when the file
    can be read, and the Steam app list, any JSON value. *)
Record inputs : Type := Inputs {
  igdb_games_doc : option (list json);
  steam_applist_doc : option json
}.

Definition load_igdb_games (inp : inputs) : list json :=
  match igdb_games_doc inp with
  | Some igdb_games => igdb_games
  | None => []
  end.

(** The dict comprehension [{app['appid']: app for app in steam_apps}], as
    the list of its assignments in order; a list or a dict cannot be a
    key. *)
Fixpoint app_items (steam_apps : list json) : result (list (json * json)) :=
  match steam_apps with
  | [] => Ok []
  | app :: rest =>
      rbind (py_getitem app "appid") (fun appid =>
      match appid with
      | JList _ | JObj _ => Raise TypeError
      | _ => rbind (app_items rest) (fun items => Ok ((appid, app) :: items))
      end)
  end.

(** [load_steam_apps]: the assignments that make the dict, or none when
    anything raised. *)
Definition load_steam_apps (inp : inputs) : list (json * json) :=
  match steam_applist_doc inp with
  | None => []
  | Some steam_data =>
      match rbind (py_getitem steam_data "applist") (fun applist =>
            rbind (py_getitem applist "apps") (fun steam_apps =>
            rbind (py_iter steam_apps) app_items)) with
      | Ok items => items
      | Raise _ => []
      end
  end.

(** The integer a key equals, if any: [True == 1] and [440.0 == 440]. *)
Definition as_int_key (k : json) : option Z :=
  match k with
  | JInt n => Some n
  | JBool b => Some (if b then 1 else 0)
  | JFloat (FFin m e) =>
      if 0 <=? e then Some (m * 2 ^ e)
      else if m mod 2 ^ (- e) =? 0 then Some (m / 2 ^ (- e)) else None
  | _ => None
  end.

(** The dict the assignments build, seen from its integer keys: a later
    assignment to an equal key replaces the value. *)
Definition steam_apps_dict (items : list (json * json)) : gmap Z json :=
  fold_left (fun m kv =>
               match as_int_key (fst kv) with
               | Some n => <[n := snd kv]> m
               | None => m
               end) items ∅.

Definition save_enriched_data (w : world) (enriched_games : list json)
    (st : state) : state :=
  snd (write_enriched w enriched_games st).

(** What [print_enrichment_summary] prints: the two counts (the rate it
    prints is their quotient) and the sample lines, each an IGDB name, a
    Steam name and an owners value. *)
Record summary : Type := Summary {
  total_games : nat;
  games_with_steam_info : nat;
  sample : list (json * json * json)
}.

(** [sum(1 for game in enriched_games if 'steamInfo' in game)] *)
Fixpoint count_steam_info (enriched_games : list json) : result nat :=
  match enriched_games with
  | [] => Ok 0%nat
  | game :: rest =>
      rbind (py_contains_str "steamInfo" game) (fun b =>
      rbind (count_steam_info rest) (fun n =>
      Ok (if b then S n else n)))
  end.

(** The sample loop; [count] is the number of lines printed so far. *)
Fixpoint sample_lines (enriched_games : list json) (count : nat)
  : result (list (json * json * json)) :=
  match enriched_games with
  | [] => Ok []
  | game :: rest =>
      rbind (py_contains_str "steamInfo" game) (fun b =>
      if b && (count <? 5)%nat then
        rbind (py_getitem game "steamInfo") (fun steam_info =>
        rbind (py_get game "name" (JStr "Unknown")) (fun igdb_name =>
        rbind (py_get steam_info "name" (JStr "Unknown")) (fun steam_name =>
        rbind (py_get steam_info "owners" (JStr "Unknown")) (fun owners =>
        rbind (sample_lines rest (S count)) (fun lines =>
        Ok ((igdb_name, steam_name, owners) :: lines))))))
      else sample_lines rest count)
  end.

Definition print_enrichment_summary (enriched_games : list json)
  : outcome summary :=
  match count_steam_info enriched_games with
  | Raise e => Raises (Builtin e)
  | Ok n =>
      match enriched_games with
      | [] => Raises ZeroDivisionError
      | _ :: _ =>
          if (0 <? n)%nat then
            match sample_lines enriched_games 0 with
            | Raise e => Raises (Builtin e)
            | Ok lines => Returns (Summary (length enriched_games) n lines)
            end
          else Returns (Summary (length enriched_games) n [])
      end
  end.

(** [any('external_games' in game for game in games)] *)
Fixpoint any_has_external_games (games : list json) : result bool :=
  match games with
  | [] => Ok false
  | game :: rest =>
      rbind (py_contains_str "external_games" game) (fun b =>
      if b then Ok true else any_has_external_games rest)
  end.

(** [main]: [None] when it returns before the summary, the summary it
    prints otherwise. *)
Definition main (w : world) (inp : inputs) (st : state)
  : outcome (option summary) * state :=
  match load_igdb_games inp with
  | [] => (Returns None, st)
  | igdb_games =>
      match load_steam_apps inp with
      | [] => (Returns None, st)
      | items =>
          match any_has_external_games (firstn 10 igdb_games) with
          | Raise e => (Raises (Builtin e), st)
          | Ok false => (Returns None, st)
          | Ok true =>
              match Enrich.enrich_igdb_with_steam_data
                      w igdb_games (steam_apps_dict items) st with
              | (Raise e, st') => (Raises (Builtin e), st')
              | (Ok [], st') => (Returns None, st')
              | (Ok enriched_games, st') =>
                  let st'' := save_enriched_data w enriched_games st' in
                  match print_enrichment_summary enriched_games with
                  | Raises e => (Raises e, st'')
                  | Returns s => (Returns (Some s), st'')
                  end
              end
          end
      end
  end.

End EnrichScript.

(** ** Statements and sample data for the rest of the scripts *)

(** The service answers every query that has a positive limit and a
    non-negative offset with the slice of the catalog [db] the query asks
    for. *)
Definition serves_catalog (e : Fetch.env) (db : list json) : Prop :=
  forall history limit offset,
    0 < limit -> 0 <= offset ->
    exists status,
      Fetch.igdb e history limit offset =
      Response status (Some (JList (take (Z.to_nat limit)
                                         (drop (Z.to_nat offset) db)))).

Definition catalog_env (db : list json) : Fetch.env :=
  Fetch.Env (fun _ limit offset =>
               Response 200 (Some (JList (take (Z.to_nat limit)
                                               (drop (Z.to_nat offset) db)))))
            (fun _ => true).

(** A service that answers every query with the same value and status. *)
Definition constant_env (status : Z) (v : json) : Fetch.env :=
  Fetch.Env (fun _ _ _ => Response status (Some v)) (fun _ => true).

Definition empty_store : Fetch.store := Fetch.Store [] 0 None [].

Definition seven_games : list json :=
  map (fun n => JObj [("id", JInt n)]) [1; 2; 3; 4; 5; 6; 7].

(** A record without cross-references, and an app list document. *)
Definition plain_game : json := JObj [("name", JStr "Tetris")].

Definition applist_doc (apps : list json) : json :=
  JObj [("applist", JObj [("apps", JList apps)])].

Definition steam_app (appid : Z) (name : string) : json :=
  JObj [("appid", JInt appid); ("name", JStr name)].

(** The service never answers a query whose limit is at least 1 with more
    items than the limit asked for. *)
Definition honours_limit (e : Fetch.env) : Prop :=
  forall history limit offset status v items,
    1 <= limit ->
    Fetch.igdb e history limit offset = Response status (Some v) ->
    py_iter v = Ok items -> Z.of_nat (length items) <= limit.

(** Splits a goal that is a conjunction into its parts. *)
Ltac split_ands := repeat match goal with |- _ /\ _ => split end.

(** ** [int()] on sample strings *)

Example int_of_str_440 : int_of_str "440" = Ok 440.
Proof. reflexivity. Qed.
Example int_of_str_spaces : int_of_str "  -1_000 " = Ok (-1000).
Proof. reflexivity. Qed.
Example int_of_str_bad : int_of_str "abc" = Raise ValueError.
Proof. reflexivity. Qed.
Example int_of_str_empty : int_of_str "" = Raise ValueError.
Proof. reflexivity. Qed.
Example int_of_str_underscores : int_of_str "1__0" = Raise ValueError.
Proof. reflexivity. Qed.
Example int_of_str_separator_not_stripped :
  int_of_str (String (ascii_of_N 28) "440") = Raise ValueError.
Proof. reflexivity. Qed.
Example int_of_str_arabic_indic : int_of_str "٤٤٠" = Ok 440.
Proof. reflexivity. Qed.
Example int_of_str_fullwidth : int_of_str "　+４_４０ " = Ok 440.
Proof. reflexivity. Qed.
Example int_of_str_mathematical : int_of_str "-𝟜𝟜𝟘" = Ok (-440).
Proof. reflexivity. Qed.
Example characters_of_mixed : characters "a٤𝟜" = ["a"; "٤"; "𝟜"].
Proof. reflexivity. Qed.

(** ** The fetcher *)

Lemma request_appdetails_payload o x p :
  request_appdetails o x = Ok (Some p) <->
  exists status,
    o = Response status (Some p) /\
    (400 <=? status) && (status <? 600) = false /\ echoes_id p x = true.
Proof.
  unfold request_appdetails, raise_for_status, echoes_id. split.
  - destruct o as [|status [data|]]; simpl; try discriminate.
    + destruct ((400 <=? status) && (status <? 600)) eqn:Hs; simpl;
        try discriminate.
      destruct (py_truthy data) eqn:Ht; try discriminate.
      destruct data as [| | | | | |d]; simpl; try discriminate.
      destruct (dict_get "appid" d) as [v|] eqn:Hv; simpl.
      * destruct (py_eq_int v x) eqn:He; intros H; inversion H; subst.
        exists status. rewrite Hv. auto.
      * discriminate.
    + destruct ((400 <=? status) && (status <? 600)); discriminate.
  - intros (status & -> & Hs & He). rewrite Hs. cbn [rbind].
    destruct p as [| | | | | |d]; try discriminate.
    assert (Ht : py_truthy (JObj d) = true)
      by (destruct d; [discriminate | reflexivity]).
    rewrite Ht. unfold py_get. cbn [rbind].
    destruct (dict_get "appid" d) as [v|]; [|discriminate].
    rewrite He. reflexivity.
Qed.

Lemma request_appdetails_truthy o x p :
  request_appdetails o x = Ok (Some p) ->
  py_truthy p = true /\ exists d, p = JObj d.
Proof.
  intros H. apply request_appdetails_payload in H as (status & _ & _ & He).
  unfold echoes_id in He. destruct p as [| | | | | |d]; try discriminate.
  destruct d as [|kv d]; [discriminate|]. split; [reflexivity|eauto].
Qed.

Lemma enrich_get_request w x st :
  Enrich.get_steamspy_data w x st =
  (match request_appdetails (net w (calls st) x) x with
   | Ok r => r
   | Raise _ => None
   end, record_call x st).
Proof.
  unfold Enrich.get_steamspy_data.
  destruct (request_appdetails _ _) as [r|e]; [reflexivity|].
  destruct (is_RequestException e), (is_JSONDecodeError e); reflexivity.
Qed.

Lemma retry_get_request w x st :
  Retry.get_steamspy_data w x st =
  (match request_appdetails (net w (calls st) x) x with
   | Ok r => r
   | Raise _ => None
   end, record_call x st).
Proof.
  unfold Retry.get_steamspy_data.
  destruct (request_appdetails _ _) as [r|e]; reflexivity.
Qed.

Lemma same_fetcher w x st :
  Retry.get_steamspy_data w x st = Enrich.get_steamspy_data w x st.
Proof. rewrite retry_get_request, enrich_get_request. reflexivity. Qed.

Lemma fetched_payload w x st p :
  fst (Enrich.get_steamspy_data w x st) = Some p <->
  exists status,
    net w (calls st) x = Response status (Some p) /\
    (400 <=? status) && (status <? 600) = false /\ echoes_id p x = true.
Proof.
  rewrite enrich_get_request. simpl.
  rewrite <- request_appdetails_payload.
  destruct (request_appdetails _ _) as [r|e]; split; intros H;
    try discriminate; congruence.
Qed.

Lemma fetched_truthy w x st p :
  fst (Enrich.get_steamspy_data w x st) = Some p ->
  py_truthy p = true /\ exists d, p = JObj d.
Proof.
  rewrite enrich_get_request. simpl.
  destruct (request_appdetails _ _) as [r|e] eqn:H; [|discriminate].
  intros ->. eapply request_appdetails_truthy; eauto.
Qed.

(** C3, as the code has it: the fetcher returns a payload exactly when the
    request completes with a status that [raise_for_status] accepts (any
    status outside 400..599, not only 2xx), the body decodes, and the decoded
    value is a mapping whose identifier field equals the requested
    identifier; a mismatching or missing identifier field gives no payload;
    every exception of the [try] block ends as "no payload"; and each
    invocation makes exactly one request.  Both copies of the fetcher. *)
Theorem fetcher_payload_iff_accepted w x st :
  fetcher_contract Enrich.get_steamspy_data w x st /\
  fetcher_contract Retry.get_steamspy_data w x st.
Proof.
  assert (Hs : forall status,
             (400 <=? status) && (status <? 600) = false <->
             ~ (400 <= status < 600)).
  { intros status. rewrite andb_false_iff, Z.leb_gt, Z.ltb_ge. lia. }
  assert (He : forall fetch : world -> Z -> state -> option json * state,
             fetch w x st = Enrich.get_steamspy_data w x st ->
             fetcher_contract fetch w x st).
  { intros fetch Hf. unfold fetcher_contract. rewrite Hf. repeat split.
    - intros H. apply fetched_payload in H as (status & ? & ? & ?).
      exists status. rewrite <- Hs. auto.
    - intros (status & ? & ? & ?). apply fetched_payload.
      exists status. rewrite Hs. auto.
    - intros status p Hn Hp.
      destruct (fst (Enrich.get_steamspy_data w x st)) as [q|] eqn:Hq;
        [|reflexivity].
      apply fetched_payload in Hq as (status' & Hn' & _ & Hq).
      rewrite Hn in Hn'. inversion Hn'; subst. congruence.
    - intros e H. rewrite enrich_get_request, H. reflexivity.
    - rewrite enrich_get_request. reflexivity. }
  split; apply He; [reflexivity | apply same_fetcher].
Qed.

(** C3 as stated fails: a response with status 300 whose body echoes the
    identifier yields a payload although the status is not 2xx. *)
Lemma fetcher_accepts_status_300 :
  ~ payload_iff_2xx Enrich.get_steamspy_data (world_status 300) 440 fresh.
Proof.
  intros H.
  destruct (H (JObj [("appid", JInt 440); ("owners", JStr "1,000,000")]))
    as [H1 _].
  destruct (H1 eq_refl) as (status & Hn & Hs & _).
  inversion Hn; subst. lia.
Qed.

(** ** The extractor *)

Lemma enrich_find_obj g o :
  Enrich.find_steam_app_id g = Ok o -> exists d, g = JObj d.
Proof. destruct g; try discriminate. eauto. Qed.

Lemma retry_find_obj g o :
  Retry.find_steam_app_id g = Ok o -> exists d, g = JObj d.
Proof. destruct g; try discriminate. eauto. Qed.

Lemma enrich_is_steam_obj e b :
  Enrich.is_steam e = Ok b -> exists d, e = JObj d.
Proof. destruct e; try discriminate. eauto. Qed.

Lemma retry_is_steam_obj e b :
  Retry.is_steam e = Ok b -> exists d, e = JObj d.
Proof. destruct e; try discriminate. eauto. Qed.

Lemma enrich_scan_skips pre rest :
  Forall enrich_skipped pre -> Enrich.scan (pre ++ rest) = Enrich.scan rest.
Proof.
  induction 1 as [|e pre He _ IH]; [reflexivity|].
  simpl. destruct He as [He | (He & uid & Hu & Hn)]; rewrite He; simpl;
    [exact IH|].
  rewrite Hu. simpl. destruct Hn as [Hn | Hn]; rewrite Hn; exact IH.
Qed.

Lemma retry_scan_skips pre rest :
  Forall retry_skipped pre -> Retry.scan (pre ++ rest) = Retry.scan rest.
Proof.
  induction 1 as [|e pre He _ IH]; [reflexivity|].
  simpl. destruct He as [He | (He & uid & Hu & Hn)]; rewrite He; simpl;
    [exact IH|].
  rewrite Hu. simpl. destruct Hn as [Hn | Hn]; rewrite Hn; exact IH.
Qed.

(** First match wins: the scan returns the converted uid of the first Steam
    entry whose uid converts, whatever follows it. *)
Lemma enrich_scan_first_match pre e rest uid n :
  Forall enrich_skipped pre ->
  Enrich.is_steam e = Ok true ->
  py_get e "uid" (JInt 0) = Ok uid -> py_int uid = Ok n ->
  Enrich.scan (pre ++ e :: rest) = Ok (Some n).
Proof.
  intros Hpre He Hu Hn. rewrite (enrich_scan_skips _ _ Hpre).
  simpl. rewrite He. simpl. rewrite Hu. simpl. rewrite Hn. reflexivity.
Qed.

Lemma retry_scan_first_match pre e rest uid n :
  Forall retry_skipped pre ->
  Retry.is_steam e = Ok true ->
  py_get e "uid" (JInt 0) = Ok uid -> py_int uid = Ok n ->
  Retry.scan (pre ++ e :: rest) = Ok (Some n).
Proof.
  intros Hpre He Hu Hn. rewrite (retry_scan_skips _ _ Hpre).
  simpl. rewrite He. simpl. rewrite Hu. simpl. rewrite Hn. reflexivity.
Qed.

Lemma enrich_scan_no_match l :
  Forall enrich_skipped l -> Enrich.scan l = Ok None.
Proof.
  intros H. rewrite <- (app_nil_r l). rewrite (enrich_scan_skips _ _ H).
  reflexivity.
Qed.

Lemma missing_uid_defaults e :
  has_key "uid" e = false -> forall d, e = JObj d ->
  py_get e "uid" (JInt 0) = Ok (JInt 0).
Proof.
  intros H d ->. unfold has_key in H. simpl.
  destruct (dict_get "uid" d); [discriminate | reflexivity].
Qed.

Lemma int_of_str_cases s :
  (exists n, int_of_str s = Ok n) \/ int_of_str s = Raise ValueError.
Proof.
  unfold int_of_str.
  destruct (match strip (code_points s) with
            | [] => (false, strip (code_points s))
            | c :: l' =>
                if (c =? 45)%N then (true, l')
                else if (c =? 43)%N then (false, l')
                else (false, strip (code_points s))
            end) as [negative digits].
  destruct (parse_digits digits 0 0 false) as [[v cnt]|]; [|right; reflexivity].
  destruct (int_max_str_digits <? cnt)%nat; [right; reflexivity | left; eauto].
Qed.

(** [int()] either converts, or raises one of the two exceptions the scan
    catches, unless its argument is an infinite float. *)
Lemma py_int_cases uid :
  (forall negative, uid <> JFloat (FInf negative)) ->
  (exists n, py_int uid = Ok n) \/
  py_int uid = Raise ValueError \/ py_int uid = Raise TypeError.
Proof.
  intros Hinf. destruct uid as [| b | n | [| negative | m e] | s | l | d];
    simpl; eauto.
  - exfalso. eapply Hinf. reflexivity.
  - destruct (int_of_str_cases s) as [[n ->] | ->]; eauto.
Qed.

Lemma wf_entry_scanned e :
  wf_entry e = true ->
  exists b, Enrich.is_steam e = Ok b /\ Retry.is_steam e = Ok b /\
    exists uid, py_get e "uid" (JInt 0) = Ok uid /\
      ((exists n, py_int uid = Ok n) \/
       py_int uid = Raise ValueError \/ py_int uid = Raise TypeError).
Proof.
  unfold wf_entry, Enrich.is_steam, Retry.is_steam.
  destruct e as [| | | | | |d]; try discriminate. simpl.
  destruct (dict_get "external_game_source" d) as [[| | | | | |source]|];
    try discriminate. simpl.
  destruct (dict_get "name" source) as [name|]; [|discriminate]. simpl.
  intros Hu. exists (py_eq_str name "Steam"). split; [reflexivity|].
  split; [reflexivity|]. eexists. split; [reflexivity|].
  apply py_int_cases. intros negative Heq.
  destruct (dict_get "uid" d) as [uid|]; [|discriminate].
  subst uid. discriminate.
Qed.

Lemma wf_entries_scan l :
  forallb wf_entry l = true ->
  is_ok (Enrich.scan l) = true /\ is_ok (Retry.scan l) = true.
Proof.
  induction l as [|e l IH]; [split; reflexivity|].
  simpl. intros H. apply andb_true_iff in H as [He Hl].
  destruct (IH Hl) as [IHe IHr].
  destruct (wf_entry_scanned e He) as (b & -> & -> & uid & -> & Hc). simpl.
  destruct b; [|auto].
  destruct Hc as [[n ->] | [-> | ->]]; auto.
Qed.

(** On a record of that shape both copies of the extractor return. *)
Lemma wf_record_extractable g :
  wf_record g = true ->
  is_ok (Enrich.find_steam_app_id g) = true /\
  is_ok (Retry.find_steam_app_id g) = true.
Proof.
  unfold wf_record, Enrich.find_steam_app_id, Retry.find_steam_app_id.
  destruct g as [| | | | | |d]; try discriminate. simpl.
  destruct (dict_get "external_games" d) as [[| | | | |l|]|];
    try discriminate; simpl.
  - apply wf_entries_scan.
  - split; reflexivity.
Qed.

(** C2: on a cross-reference entry without source data the extractor of the
    enrichment script raises a [TypeError] ([None['name']]), where the copy
    in the retry script answers "none". *)
Theorem extractor_raises_on_missing_source :
  Enrich.find_steam_app_id no_source = Raise TypeError /\
  Retry.find_steam_app_id no_source = Ok None.
Proof. split; reflexivity. Qed.

(** C6: a Steam entry whose uid is an infinite float is not skipped: the
    [OverflowError] of [int()] is not among the exceptions the loop catches,
    and the good entry after it is never reached, in both copies; a NaN or a
    non-numeric string in the same place is skipped. *)
Theorem extractor_raises_on_infinite_uid :
  Enrich.find_steam_app_id overflowing_uid = Raise OverflowError /\
  Retry.find_steam_app_id overflowing_uid = Raise OverflowError /\
  Enrich.find_steam_app_id
    (JObj [("external_games",
            JList [xref "Steam" (JFloat FNan); xref "Steam" (JStr "n/a");
                   xref "Steam" (JStr "440"); xref "Steam" (JStr "570")])])
  = Ok (Some 440).
Proof. repeat split; reflexivity. Qed.

(** ** The enrichment driver *)

Lemma id_truthy_nonzero o x : id_truthy o = Some x -> o = Some x /\ x <> 0.
Proof.
  destruct o as [n|]; simpl; [|discriminate].
  destruct (n =? 0) eqn:Hn; [discriminate|].
  intros H; inversion H; subst. apply Z.eqb_neq in Hn. auto.
Qed.

Lemma id_truthy_some x : x <> 0 -> id_truthy (Some x) = Some x.
Proof. intros H. simpl. apply Z.eqb_neq in H. rewrite H. reflexivity. Qed.

(** No identifier, or one the secondary index does not know: the record
    passes through and the state is untouched. *)
Lemma enrich_step_gated w apps g a st o :
  Enrich.find_steam_app_id g = Ok o ->
  match id_truthy o with Some x => apps !! x = None | None => True end ->
  Enrich.enrich_step w apps g a st =
  (Ok (Enrich.Acc (Enrich.enriched_games a ++ [g]) (Enrich.failed_steam_ids a)
                  (Enrich.steam_enriched_count a)), st).
Proof.
  intros Hf Hg. destruct (enrich_find_obj _ _ Hf) as [d ->].
  unfold Enrich.enrich_step. rewrite Hf. cbn [py_copy].
  destruct (id_truthy o) as [x|]; [|reflexivity].
  rewrite Hg. reflexivity.
Qed.

(** The fetch fails: the identifier joins the failure list, the record
    passes through, one request and one delay are spent. *)
Lemma enrich_step_failed w apps g a st x v :
  Enrich.find_steam_app_id g = Ok (Some x) -> x <> 0 ->
  apps !! x = Some v ->
  fst (Enrich.get_steamspy_data w x st) = None ->
  Enrich.enrich_step w apps g a st =
  (Ok (Enrich.Acc (Enrich.enriched_games a ++ [g])
                  (Enrich.failed_steam_ids a ++ [x])
                  (Enrich.steam_enriched_count a)),
   sleep (record_call x st)).
Proof.
  intros Hf Hx Ha Hn. destruct (enrich_find_obj _ _ Hf) as [d ->].
  unfold Enrich.enrich_step. rewrite Hf. cbn [py_copy].
  rewrite (id_truthy_some _ Hx), Ha.
  rewrite enrich_get_request in *. simpl in Hn. rewrite Hn. reflexivity.
Qed.

(** The fetch succeeds: the copy of the record gets ['steamInfo']. *)
Lemma enrich_step_enriched w apps d a st x v data :
  Enrich.find_steam_app_id (JObj d) = Ok (Some x) -> x <> 0 ->
  apps !! x = Some v ->
  fst (Enrich.get_steamspy_data w x st) = Some data ->
  Enrich.enrich_step w apps (JObj d) a st =
  (Ok (Enrich.Acc (Enrich.enriched_games a ++ [JObj (dict_set "steamInfo" data d)])
                  (Enrich.failed_steam_ids a)
                  (S (Enrich.steam_enriched_count a))),
   sleep (record_call x st)).
Proof.
  intros Hf Hx Ha Hs. destruct (fetched_truthy _ _ _ _ Hs) as [Ht _].
  unfold Enrich.enrich_step. rewrite Hf. cbn [py_copy].
  rewrite (id_truthy_some _ Hx), Ha.
  rewrite enrich_get_request in *. simpl in Hs. rewrite Hs, Ht. reflexivity.
Qed.

(** What one iteration does to the accumulators and to the disk, whatever
    the fetch gives. *)
Lemma enrich_step_total w apps g a st :
  is_ok (Enrich.find_steam_app_id g) = true ->
  exists a' st' g' f,
    Enrich.enrich_step w apps g a st = (Ok a', st') /\
    Enrich.enriched_games a' = Enrich.enriched_games a ++ [g'] /\
    same_or_enriched g g' /\
    Enrich.failed_steam_ids a' = Enrich.failed_steam_ids a ++ f /\
    wlog st' = wlog st /\ failed_doc st' = failed_doc st /\
    enriched_doc st' = enriched_doc st.
Proof.
  intros Hok. destruct (Enrich.find_steam_app_id g) as [o|] eqn:Hf;
    [clear Hok | discriminate].
  destruct (id_truthy o) as [x|] eqn:Ho.
  - apply id_truthy_nonzero in Ho as [-> Hx].
    destruct (apps !! x) as [v|] eqn:Ha.
    + destruct (fst (Enrich.get_steamspy_data w x st)) as [data|] eqn:Hs.
      * destruct (enrich_find_obj _ _ Hf) as [d ->].
        rewrite (enrich_step_enriched _ _ _ _ _ _ _ _ Hf Hx Ha Hs).
        eexists _, _, _, []. rewrite app_nil_r.
        repeat split; try reflexivity. right. eauto.
      * rewrite (enrich_step_failed _ _ _ _ _ _ _ Hf Hx Ha Hs).
        eexists _, _, _, [x]. repeat split; try reflexivity. left; reflexivity.
    + rewrite (enrich_step_gated _ _ _ _ _ _ Hf)
        by (rewrite (id_truthy_some _ Hx); exact Ha).
      eexists _, _, _, []. rewrite app_nil_r.
      repeat split; try reflexivity. left; reflexivity.
  - rewrite (enrich_step_gated _ _ _ _ _ _ Hf) by (rewrite Ho; exact I).
    eexists _, _, _, []. rewrite app_nil_r.
    repeat split; try reflexivity. left; reflexivity.
Qed.

Lemma enrich_loop_app w apps l1 l2 a st :
  Enrich.enrich_loop w apps (l1 ++ l2) a st =
  match Enrich.enrich_loop w apps l1 a st with
  | (Ok a', st') => Enrich.enrich_loop w apps l2 a' st'
  | (Raise e, st') => (Raise e, st')
  end.
Proof.
  revert a st. induction l1 as [|g l1 IH]; intros a st; [reflexivity|].
  simpl. destruct (Enrich.enrich_step w apps g a st) as [[a'|e] st'];
    [apply IH | reflexivity].
Qed.

(** The loop over records the extractor accepts runs to its end; it appends
    one output record per input record, in order, only appends to the failure
    list, and writes nothing. *)
Lemma enrich_loop_total w apps games a st :
  Forall (fun g => is_ok (Enrich.find_steam_app_id g) = true) games ->
  exists a' st' outs f,
    Enrich.enrich_loop w apps games a st = (Ok a', st') /\
    Enrich.enriched_games a' = Enrich.enriched_games a ++ outs /\
    Forall2 same_or_enriched games outs /\
    Enrich.failed_steam_ids a' = Enrich.failed_steam_ids a ++ f /\
    wlog st' = wlog st /\ failed_doc st' = failed_doc st /\
    enriched_doc st' = enriched_doc st.
Proof.
  intros H. revert a st. induction H as [|g games Hg _ IH]; intros a st.
  - exists a, st, [], []. rewrite !app_nil_r. repeat split. constructor.
  - destruct (enrich_step_total w apps g a st Hg)
      as (a1 & st1 & g' & f1 & Hs & Ho1 & Hr & Hf1 & Hw1 & Hd1 & He1).
    destruct (IH a1 st1)
      as (a2 & st2 & outs & f2 & Hl & Ho2 & Hrs & Hf2 & Hw2 & Hd2 & He2).
    exists a2, st2, (g' :: outs), (f1 ++ f2). simpl. rewrite Hs.
    repeat split; try congruence.
    + rewrite Ho2, Ho1, <- app_assoc. reflexivity.
    + constructor; assumption.
    + rewrite Hf2, Hf1, <- app_assoc. reflexivity.
Qed.

(** The whole function in terms of its loop. *)
Lemma enrich_after_loop w games apps st a st1 :
  Enrich.enrich_loop w apps games (Enrich.Acc [] [] 0) st = (Ok a, st1) ->
  writable w failed_file = true ->
  exists st',
    Enrich.enrich_igdb_with_steam_data w games apps st
    = (Ok (Enrich.enriched_games a), st') /\
    calls st' = calls st1 /\ sleeps st' = sleeps st1 /\
    wlog st' = wlog st1 ++
               match Enrich.failed_steam_ids a with
               | [] => []
               | _ :: _ => [failed_file]
               end /\
    failed_doc st' = match Enrich.failed_steam_ids a with
                     | [] => failed_doc st1
                     | _ :: _ => Some (Enrich.failed_steam_ids a)
                     end.
Proof.
  intros Hl Hw. unfold Enrich.enrich_igdb_with_steam_data. rewrite Hl.
  destruct (Enrich.failed_steam_ids a) as [|x f] eqn:Hf.
  - exists st1. rewrite app_nil_r. repeat split.
  - unfold write_failed. rewrite Hw. eexists. repeat split.
Qed.

(** The two scenarios of the spec: the fetch of 440 succeeds, or fails. *)
Example scenario_fetch_succeeds :
  Enrich.enrich_igdb_with_steam_data (world_status 200) [tf2] steam_apps fresh
  = (Ok [JObj [("name", JStr "Team Fortress 2");
               ("external_games", JList [xref "Steam" (JStr "440")]);
               ("steamInfo",
                JObj [("appid", JInt 440); ("owners", JStr "1,000,000")])]],
     State [440] 1 None None []).
Proof. reflexivity. Qed.

Example scenario_fetch_fails :
  Enrich.enrich_igdb_with_steam_data world_down [tf2] steam_apps fresh
  = (Ok [tf2], State [440] 1 (Some [440]) None [failed_file]).
Proof. reflexivity. Qed.

(** A run of the loop cut at one record: the loop over the records before
    it, the iteration for the record, the loop over the records after it. *)
Lemma enrich_run_split w apps pre g post st :
  Forall (fun g => is_ok (Enrich.find_steam_app_id g) = true) (pre ++ g :: post) ->
  exists a1 st1 a2 st2 a3 st3 g' outs f,
    Enrich.enrich_loop w apps pre (Enrich.Acc [] [] 0) st = (Ok a1, st1) /\
    Enrich.enrich_step w apps g a1 st1 = (Ok a2, st2) /\
    Enrich.enrich_loop w apps (pre ++ g :: post) (Enrich.Acc [] [] 0) st
    = (Ok a3, st3) /\
    length (Enrich.enriched_games a1) = length pre /\
    Enrich.enriched_games a2 = Enrich.enriched_games a1 ++ [g'] /\
    Enrich.enriched_games a3 = Enrich.enriched_games a2 ++ outs /\
    Enrich.failed_steam_ids a3 = Enrich.failed_steam_ids a2 ++ f.
Proof.
  intros H. apply Forall_app in H as [Hpre H].
  apply Forall_cons in H as [Hg Hpost].
  destruct (enrich_loop_total w apps pre (Enrich.Acc [] [] 0) st Hpre)
    as (a1 & st1 & outs1 & f1 & Hl1 & Ho1 & Hr1 & _).
  destruct (enrich_step_total w apps g a1 st1 Hg)
    as (a2 & st2 & g' & f2 & Hs & Ho2 & _ & _).
  destruct (enrich_loop_total w apps post a2 st2 Hpost)
    as (a3 & st3 & outs3 & f3 & Hl3 & Ho3 & _ & Hf3 & _).
  exists a1, st1, a2, st2, a3, st3, g', outs3, f3.
  repeat split; try assumption.
  - rewrite enrich_loop_app, Hl1. simpl. rewrite Hs. exact Hl3.
  - rewrite Ho1. simpl. symmetry. eapply Forall2_length; eauto.
Qed.

(** A record on which the extractor raises stops the loop. *)
Lemma enrich_step_raises w apps g a st :
  is_ok (Enrich.find_steam_app_id g) = false ->
  exists e, Enrich.enrich_step w apps g a st = (Raise e, st).
Proof.
  intros H. unfold Enrich.enrich_step.
  destruct (py_copy g) as [c|e]; [|eauto].
  destruct (Enrich.find_steam_app_id g) as [o|e]; [discriminate | eauto].
Qed.

Lemma enrich_loop_raises w apps games a st :
  Exists (fun g => is_ok (Enrich.find_steam_app_id g) = false) games ->
  exists e st', Enrich.enrich_loop w apps games a st = (Raise e, st').
Proof.
  intros H. revert a st.
  induction H as [g rest Hg | g rest _ IH]; intros a st; simpl.
  - destruct (enrich_step_raises w apps g a st Hg) as [e ->]. eauto.
  - destruct (Enrich.enrich_step w apps g a st) as [[a'|e] st'];
      [apply IH | eauto].
Qed.

(** C5, as the code has it.  When the extractor returns on every record,
    the loop runs to its end whatever the outcome of each fetch, and the
    records it has collected are as many as the input records and are,
    position by position, the input record itself or the input record with
    the enrichment field set; [enrich] returns them when the failure list is
    empty or the Failure Set document can be written, and raises [OSError],
    returning nothing, when the failure list is not empty and the document
    cannot be written.  When the extractor raises on some record, [enrich]
    raises and returns nothing. *)
Theorem enrich_preserves_sequence w games apps st :
  (Forall (fun g => is_ok (Enrich.find_steam_app_id g) = true) games ->
   exists a st1,
     Enrich.enrich_loop w apps games (Enrich.Acc [] [] 0) st = (Ok a, st1) /\
     length (Enrich.enriched_games a) = length games /\
     Forall2 same_or_enriched games (Enrich.enriched_games a) /\
     (Enrich.failed_steam_ids a = [] \/ writable w failed_file = true ->
      exists st',
        Enrich.enrich_igdb_with_steam_data w games apps st
        = (Ok (Enrich.enriched_games a), st')) /\
     (Enrich.failed_steam_ids a <> [] -> writable w failed_file = false ->
      Enrich.enrich_igdb_with_steam_data w games apps st
      = (Raise OSError, st1))) /\
  (Exists (fun g => is_ok (Enrich.find_steam_app_id g) = false) games ->
   exists e st',
     Enrich.enrich_igdb_with_steam_data w games apps st = (Raise e, st')).
Proof.
  split.
  - intros Hg.
    destruct (enrich_loop_total w apps games (Enrich.Acc [] [] 0) st Hg)
      as (a & st1 & outs & f & Hl & Ho & Hr & _).
    simpl in Ho. subst outs. exists a, st1.
    split; [exact Hl|].
    split; [symmetry; eapply Forall2_length; eauto|].
    split; [exact Hr|].
    unfold Enrich.enrich_igdb_with_steam_data. rewrite Hl. split.
    + intros [Hnil | Hw].
      * rewrite Hnil. eauto.
      * destruct (Enrich.failed_steam_ids a) as [|x l]; [eauto|].
        unfold write_failed. rewrite Hw. eauto.
    + intros Hne Hw.
      destruct (Enrich.failed_steam_ids a) as [|x l]; [congruence|].
      unfold write_failed. rewrite Hw. reflexivity.
  - intros Hex.
    destruct (enrich_loop_raises w apps games (Enrich.Acc [] [] 0) st Hex)
      as (e & st' & Hl).
    unfold Enrich.enrich_igdb_with_steam_data. rewrite Hl. eauto.
Qed.

Lemma enrich_preserves_sequence_witness :
  exists out st',
    Enrich.enrich_igdb_with_steam_data
      (read_only world_down) [JObj []; tf2] ∅ fresh = (Ok out, st') /\
    length out = 2%nat /\
    Forall2 same_or_enriched [JObj []; tf2] out.
Proof.
  destruct (enrich_preserves_sequence (read_only world_down) [JObj []; tf2]
              ∅ fresh) as [H _].
  destruct H as (a & st1 & Hl & Hlen & Hrel & Hret & _);
    [repeat constructor|].
  destruct Hret as [st' Hst'].
  - left. inversion Hl. reflexivity.
  - exists (Enrich.enriched_games a), st'. auto.
Defined.

(** C5 as stated fails: with the service down and a Failure Set document
    that cannot be written, [enrich] raises on the one record of the spec's
    scenario and returns no sequence, although it returns the enriched
    record on the same disk when the fetch succeeds; and it raises on a
    record whose cross-reference lacks its source, whatever the fetches
    give. *)
Lemma enrich_returns_nothing_when_a_fetch_fails :
  Enrich.enrich_igdb_with_steam_data (read_only world_down) [tf2] steam_apps
                                     fresh
  = (Raise OSError, State [440] 1 None None []) /\
  is_ok (fst (Enrich.enrich_igdb_with_steam_data
                (read_only (world_status 200)) [tf2] steam_apps fresh)) = true /\
  Enrich.enrich_igdb_with_steam_data (world_status 200) [tf2; no_source]
                                     steam_apps fresh
  = (Raise TypeError, State [440] 1 None None []) /\
  ~ returns_a_record_per_input [tf2] steam_apps fresh.
Proof.
  split; [reflexivity|]. split; [reflexivity|]. split; [reflexivity|].
  intros H. destruct (H (read_only world_down)) as (out & st' & Hr & _).
  discriminate Hr.
Qed.

(** C4: when the record [g] at position [length pre] has an extracted
    identifier [x] that the secondary index knows, and the fetch made for it
    (in the state [st1] the loop has reached) fails, then [x] is in the
    failure list the loop accumulates, that list is the Failure Set document
    written, and the output record at that position is [g] itself, with no
    enrichment field unless the input record carried one.  (For [x = 0] no
    fetch is made at all.) *)
Theorem enrich_failure_recorded w apps pre g post st a1 st1 x v :
  Forall (fun g => is_ok (Enrich.find_steam_app_id g) = true) (pre ++ g :: post) ->
  writable w failed_file = true ->
  Enrich.enrich_loop w apps pre (Enrich.Acc [] [] 0) st = (Ok a1, st1) ->
  Enrich.find_steam_app_id g = Ok (Some x) -> x <> 0 ->
  apps !! x = Some v ->
  fst (Enrich.get_steamspy_data w x st1) = None ->
  exists a st2 st',
    Enrich.enrich_loop w apps (pre ++ g :: post) (Enrich.Acc [] [] 0) st
    = (Ok a, st2) /\
    Enrich.enrich_igdb_with_steam_data w (pre ++ g :: post) apps st
    = (Ok (Enrich.enriched_games a), st') /\
    In x (Enrich.failed_steam_ids a) /\
    failed_doc st' = Some (Enrich.failed_steam_ids a) /\
    Enrich.enriched_games a !! length pre = Some g /\
    (has_key "steamInfo" g = false ->
     forall g', Enrich.enriched_games a !! length pre = Some g' ->
                has_key "steamInfo" g' = false).
Proof.
  intros Hall Hw Hpre Hf Hx Ha Hn.
  destruct (enrich_run_split w apps pre g post st Hall)
    as (a1' & st1' & a2 & st2 & a3 & st3 & g' & outs & f
        & Hl1 & Hs & Hl & Hlen & Ho2 & Ho3 & Hf3).
  rewrite Hpre in Hl1. inversion Hl1; subst a1' st1'; clear Hl1.
  rewrite (enrich_step_failed _ _ _ _ _ _ _ Hf Hx Ha Hn) in Hs.
  inversion Hs; subst a2 st2; clear Hs. simpl in *.
  destruct (enrich_after_loop _ _ _ _ _ _ Hl Hw) as (st' & He & _ & _ & _ & Hd).
  assert (Hin : In x (Enrich.failed_steam_ids a3)).
  { rewrite Hf3. apply in_or_app. left. apply in_or_app. right. left.
    reflexivity. }
  assert (Hout : Enrich.enriched_games a3 !! length pre = Some g).
  { rewrite Ho3, <- app_assoc. simpl. apply list_lookup_middle.
    symmetry. exact Hlen. }
  exists a3, st3, st'. repeat split; try assumption.
  - destruct (Enrich.failed_steam_ids a3); [destruct Hin | exact Hd].
  - intros Hk g'' Hg''. congruence.
Qed.

Lemma enrich_failure_recorded_witness :
  exists a st2 st',
    Enrich.enrich_loop world_down steam_apps ([JObj []] ++ tf2 :: [])
                       (Enrich.Acc [] [] 0) fresh = (Ok a, st2) /\
    Enrich.enrich_igdb_with_steam_data world_down ([JObj []] ++ tf2 :: [])
                                       steam_apps fresh
    = (Ok (Enrich.enriched_games a), st') /\
    In 440 (Enrich.failed_steam_ids a) /\
    failed_doc st' = Some (Enrich.failed_steam_ids a) /\
    Enrich.enriched_games a !! length [JObj []] = Some tf2 /\
    (has_key "steamInfo" tf2 = false ->
     forall g', Enrich.enriched_games a !! length [JObj []] = Some g' ->
                has_key "steamInfo" g' = false).
Proof.
  apply (enrich_failure_recorded world_down steam_apps [JObj []] tf2 [] fresh
           (Enrich.Acc [JObj []] [] 0) fresh 440 (JObj [("appid", JInt 440)])).
  - repeat constructor.
  - reflexivity.
  - reflexivity.
  - reflexivity.
  - discriminate.
  - reflexivity.
  - reflexivity.
Defined.

(** C7: when the extractor finds no identifier for the record [g] at
    position [length pre], or finds one the secondary index does not know,
    the iteration for [g] leaves the state as it found it (no request, no
    pacing delay) and the output record at that position is [g] itself. *)
Theorem enrich_gating w apps pre g post st a1 st1 o :
  Forall (fun g => is_ok (Enrich.find_steam_app_id g) = true) (pre ++ g :: post) ->
  writable w failed_file = true ->
  Enrich.enrich_loop w apps pre (Enrich.Acc [] [] 0) st = (Ok a1, st1) ->
  Enrich.find_steam_app_id g = Ok o ->
  (o = None \/ exists x, o = Some x /\ apps !! x = None) ->
  exists a2 out st',
    Enrich.enrich_step w apps g a1 st1 = (Ok a2, st1) /\
    calls (snd (Enrich.enrich_step w apps g a1 st1)) = calls st1 /\
    sleeps (snd (Enrich.enrich_step w apps g a1 st1)) = sleeps st1 /\
    Enrich.failed_steam_ids a2 = Enrich.failed_steam_ids a1 /\
    Enrich.enrich_igdb_with_steam_data w (pre ++ g :: post) apps st
    = (Ok out, st') /\
    out !! length pre = Some g.
Proof.
  intros Hall Hw Hpre Hf Ho.
  assert (Hgate : match id_truthy o with
                  | Some x => apps !! x = None
                  | None => True
                  end).
  { destruct Ho as [-> | (x & -> & Hx)]; [exact I|].
    simpl. destruct (x =? 0); [exact I | exact Hx]. }
  destruct (enrich_run_split w apps pre g post st Hall)
    as (a1' & st1' & a2 & st2 & a3 & st3 & g' & outs & f
        & Hl1 & Hs & Hl & Hlen & Ho2 & Ho3 & Hf3).
  rewrite Hpre in Hl1. inversion Hl1; subst a1' st1'; clear Hl1.
  rewrite (enrich_step_gated _ _ _ _ _ _ Hf Hgate) in Hs.
  inversion Hs; subst a2 st2; clear Hs. simpl in *.
  destruct (enrich_after_loop _ _ _ _ _ _ Hl Hw) as (st' & He & _).
  rewrite (enrich_step_gated _ _ _ _ _ _ Hf Hgate). simpl.
  eexists _, _, st'. repeat split; try eassumption; try reflexivity.
  rewrite Ho3, <- app_assoc. simpl. apply list_lookup_middle.
  symmetry. exact Hlen.
Qed.

Lemma enrich_gating_witness :
  exists a2 out st',
    Enrich.enrich_step (world_status 200) ∅ tf2 (Enrich.Acc [JObj []] [] 0) fresh
    = (Ok a2, fresh) /\
    calls (snd (Enrich.enrich_step (world_status 200) ∅ tf2
                  (Enrich.Acc [JObj []] [] 0) fresh)) = calls fresh /\
    sleeps (snd (Enrich.enrich_step (world_status 200) ∅ tf2
                   (Enrich.Acc [JObj []] [] 0) fresh)) = sleeps fresh /\
    Enrich.failed_steam_ids a2 = [] /\
    Enrich.enrich_igdb_with_steam_data (world_status 200)
      ([JObj []] ++ tf2 :: [tf2]) ∅ fresh = (Ok out, st') /\
    out !! length [JObj []] = Some tf2.
Proof.
  apply (enrich_gating (world_status 200) ∅ [JObj []] tf2 [tf2] fresh
           (Enrich.Acc [JObj []] [] 0) fresh (Some 440)).
  - repeat constructor.
  - reflexivity.
  - reflexivity.
  - reflexivity.
  - right. exists 440. split; reflexivity.
Defined.

(** ** The retry driver *)

Lemma dict_get_set k v d : dict_get k (dict_set k v d) = Some v.
Proof.
  induction d as [|[k' v'] d IH]; simpl.
  - rewrite String.eqb_refl. reflexivity.
  - destruct (String.eqb k k') eqn:Hk; simpl; rewrite Hk; [reflexivity | exact IH].
Qed.

Lemma dict_set_twice k v0 v d :
  dict_set k v (dict_set k v0 d) = dict_set k v d.
Proof.
  induction d as [|[k' v'] d IH]; simpl.
  - rewrite String.eqb_refl. reflexivity.
  - destruct (String.eqb k k') eqn:Hk; simpl; rewrite Hk; [reflexivity|].
    rewrite IH. reflexivity.
Qed.

(** Every binding of the lookup was already in the initial map or points at
    a record, at or after position [i], whose extracted identifier is the
    key, and the key is not [0]. *)
Lemma build_index_sound games i m index :
  Retry.build_index games i m = Ok index ->
  forall x j, index !! x = Some j ->
    m !! x = Some j \/
    ((i <= j)%nat /\ x <> 0 /\
     exists g, games !! (j - i)%nat = Some g /\
               Retry.find_steam_app_id g = Ok (Some x)).
Proof.
  revert i m. induction games as [|game rest IH]; intros i m Hb x j Hx.
  - simpl in Hb. inversion Hb; subst. left. exact Hx.
  - simpl in Hb.
    destruct (Retry.find_steam_app_id game) as [o|] eqn:Hf; [|discriminate].
    simpl in Hb.
    assert (Hlater : (S i <= j)%nat /\ x <> 0 /\
              (exists g, rest !! (j - S i)%nat = Some g /\
                         Retry.find_steam_app_id g = Ok (Some x)) ->
            (i <= j)%nat /\ x <> 0 /\
              exists g, (game :: rest) !! (j - i)%nat = Some g /\
                        Retry.find_steam_app_id g = Ok (Some x)).
    { intros (Hij & Hx0 & g & Hg & Hfg). repeat split; [lia | exact Hx0 |].
      exists g. split; [|exact Hfg].
      replace (j - i)%nat with (S (j - S i)) by lia. exact Hg. }
    destruct (id_truthy o) as [id|] eqn:Ho.
    + apply id_truthy_nonzero in Ho as [-> Hid].
      destruct (IH _ _ Hb x j Hx) as [Hm | Hr]; [|right; auto].
      destruct (decide (id = x)) as [->|Hne].
      * rewrite lookup_insert_eq in Hm. inversion Hm; subst j.
        right. repeat split; [lia | exact Hid |].
        exists game. rewrite Nat.sub_diag. split; [reflexivity | exact Hf].
      * rewrite lookup_insert_ne in Hm by exact Hne. left. exact Hm.
    + destruct (IH _ _ Hb x j Hx) as [Hm | Hr]; [left | right]; auto.
Qed.

(** The first loop returns when the extractor accepts every record. *)
Lemma build_index_total games i m :
  Forall (fun g => is_ok (Retry.find_steam_app_id g) = true) games ->
  exists index, Retry.build_index games i m = Ok index.
Proof.
  intros H. revert i m. induction H as [|g games Hg _ IH]; intros i m.
  - exists m. reflexivity.
  - simpl. destruct (Retry.find_steam_app_id g) as [o|]; [|discriminate].
    simpl. destruct (id_truthy o); apply IH.
Qed.

(** Retry convergence and retry on persistent failure, as in the spec. *)
Example retry_converges :
  Retry.retry_failed_fetches (world_status 200) [440] [tf2] fresh
  = (Ok ([JObj [("name", JStr "Team Fortress 2");
                ("external_games", JList [xref "Steam" (JStr "440")]);
                ("steamInfo",
                 JObj [("appid", JInt 440); ("owners", JStr "1,000,000")])]],
         []),
     State [440] 1 None None []).
Proof. reflexivity. Qed.

Example retry_persistent_failure :
  Retry.retry_failed_fetches world_down [440] [tf2] fresh
  = (Ok ([tf2], [440]), State [440] 1 None None []).
Proof. reflexivity. Qed.

Lemma index_points_at_record games index x j :
  Retry.build_index games 0 ∅ = Ok index -> index !! x = Some j ->
  x <> 0 /\ exists d, games !! j = Some (JObj d) /\
                      Retry.find_steam_app_id (JObj d) = Ok (Some x).
Proof.
  intros Hb Hx.
  destruct (build_index_sound _ _ _ _ Hb x j Hx)
    as [Hm | (_ & Hx0 & g & Hg & Hf)].
  - rewrite lookup_empty in Hm. discriminate.
  - split; [exact Hx0|]. destruct (retry_find_obj _ _ Hf) as [d ->].
    exists d. rewrite Nat.sub_0_r in Hg. auto.
Qed.

(** Two identifiers never share a position of the lookup. *)
Lemma index_injective games index x y j :
  Retry.build_index games 0 ∅ = Ok index ->
  index !! x = Some j -> index !! y = Some j -> x = y.
Proof.
  intros Hb Hx Hy.
  destruct (index_points_at_record _ _ _ _ Hb Hx) as (_ & d & Hg & Hf).
  destruct (index_points_at_record _ _ _ _ Hb Hy) as (_ & d' & Hg' & Hf').
  congruence.
Qed.

Lemma index_valid_initial games index :
  Retry.build_index games 0 ∅ = Ok index -> index_valid index games.
Proof.
  intros Hb x j Hx.
  destruct (index_points_at_record _ _ _ _ Hb Hx) as (_ & d & Hg & _). eauto.
Qed.

Lemma index_valid_insert index gs j d :
  index_valid index gs -> index_valid index (<[j := JObj d]> gs).
Proof.
  intros Hv x j' Hx. destruct (Hv x j' Hx) as [d' Hd'].
  destruct (decide (j = j')) as [->|Hne].
  - exists d. apply list_lookup_insert_eq. eapply lookup_lt_Some; eauto.
  - exists d'. rewrite list_lookup_insert_ne by exact Hne. exact Hd'.
Qed.

Lemma retry_step_missing w index x a st :
  index !! x = None ->
  Retry.retry_step w index x a st =
  (Ok (Retry.Acc (Retry.enriched_games a) (Retry.still_failed a ++ [x])
                 (Retry.success_count a)), st).
Proof. intros H. unfold Retry.retry_step. rewrite H. reflexivity. Qed.

Lemma retry_step_failed w index x j a st :
  index !! x = Some j ->
  fst (Retry.get_steamspy_data w x st) = None ->
  Retry.retry_step w index x a st =
  (Ok (Retry.Acc (Retry.enriched_games a) (Retry.still_failed a ++ [x])
                 (Retry.success_count a)), sleep (record_call x st)).
Proof.
  intros Hx Hn. unfold Retry.retry_step. rewrite Hx.
  rewrite retry_get_request in *. simpl in Hn. rewrite Hn. reflexivity.
Qed.

Lemma retry_step_enriched w index x j a st data d :
  index !! x = Some j ->
  fst (Retry.get_steamspy_data w x st) = Some data ->
  Retry.enriched_games a !! j = Some (JObj d) ->
  Retry.retry_step w index x a st =
  (Ok (Retry.Acc (<[j := JObj (dict_set "steamInfo" data d)]> (Retry.enriched_games a))
                 (Retry.still_failed a) (S (Retry.success_count a))),
   sleep (record_call x st)).
Proof.
  intros Hx Hs Hg. unfold Retry.retry_step. rewrite Hx.
  assert (Ht : py_truthy data = true).
  { rewrite same_fetcher in Hs. apply fetched_truthy in Hs. tauto. }
  rewrite retry_get_request in *. simpl in Hs. rewrite Hs, Ht, Hg.
  reflexivity.
Qed.

Lemma retry_loop_app w index l1 l2 a st :
  Retry.retry_loop w index (l1 ++ l2) a st =
  match Retry.retry_loop w index l1 a st with
  | (Ok a', st') => Retry.retry_loop w index l2 a' st'
  | (Raise e, st') => (Raise e, st')
  end.
Proof.
  revert a st. induction l1 as [|x l1 IH]; intros a st; [reflexivity|].
  simpl. destruct (Retry.retry_step w index x a st) as [[a'|e] st'];
    [apply IH | reflexivity].
Qed.

(** One iteration, whatever the case: it succeeds, keeps the lookup valid,
    adds to still-failed nothing or the identifier, and touches at most the
    record the lookup gives for the identifier. *)
Lemma retry_step_total w index x a st :
  index_valid index (Retry.enriched_games a) ->
  exists a' st' s,
    Retry.retry_step w index x a st = (Ok a', st') /\
    index_valid index (Retry.enriched_games a') /\
    length (Retry.enriched_games a') = length (Retry.enriched_games a) /\
    Retry.still_failed a' = Retry.still_failed a ++ s /\
    (forall y, In y s -> y = x) /\
    (forall j, index !! x <> Some j ->
               Retry.enriched_games a' !! j = Retry.enriched_games a !! j) /\
    wlog st' = wlog st /\ failed_doc st' = failed_doc st /\
    enriched_doc st' = enriched_doc st.
Proof.
  intros Hv. destruct (index !! x) as [j|] eqn:Hx.
  - destruct (fst (Retry.get_steamspy_data w x st)) as [data|] eqn:Hs.
    + destruct (Hv x j Hx) as [d Hd].
      rewrite (retry_step_enriched _ _ _ _ _ _ _ _ Hx Hs Hd).
      eexists _, _, []. rewrite app_nil_r. simpl.
      repeat split; try reflexivity.
      * apply index_valid_insert. exact Hv.
      * apply length_insert.
      * intros y [].
      * intros j' Hj'. apply list_lookup_insert_ne. congruence.
    + rewrite (retry_step_failed _ _ _ _ _ _ Hx Hs).
      eexists _, _, [x]. simpl. repeat split; try reflexivity; try assumption.
      intros y [<- | []]. reflexivity.
  - rewrite (retry_step_missing _ _ _ _ _ Hx).
    eexists _, _, [x]. simpl. repeat split; try reflexivity; try assumption.
    intros y [<- | []]. reflexivity.
Qed.

Lemma retry_loop_total w index l a st :
  index_valid index (Retry.enriched_games a) ->
  exists a' st' s,
    Retry.retry_loop w index l a st = (Ok a', st') /\
    index_valid index (Retry.enriched_games a') /\
    length (Retry.enriched_games a') = length (Retry.enriched_games a) /\
    Retry.still_failed a' = Retry.still_failed a ++ s /\
    (forall y, In y s -> In y l) /\
    (forall j, (forall y, In y l -> index !! y <> Some j) ->
               Retry.enriched_games a' !! j = Retry.enriched_games a !! j) /\
    wlog st' = wlog st /\ failed_doc st' = failed_doc st /\
    enriched_doc st' = enriched_doc st.
Proof.
  revert a st. induction l as [|x l IH]; intros a st Hv.
  - exists a, st, []. rewrite app_nil_r. repeat split; try assumption.
    intros y [].
  - destruct (retry_step_total w index x a st Hv)
      as (a1 & st1 & s1 & Hs & Hv1 & Hlen1 & Hst1 & Hin1 & Hk1 & Hw1 & Hd1 & He1).
    destruct (IH a1 st1 Hv1)
      as (a2 & st2 & s2 & Hl & Hv2 & Hlen2 & Hst2 & Hin2 & Hk2 & Hw2 & Hd2 & He2).
    exists a2, st2, (s1 ++ s2). simpl. rewrite Hs.
    split; [exact Hl|]. split; [exact Hv2|]. split; [congruence|].
    split; [rewrite Hst2, Hst1, <- app_assoc; reflexivity|].
    split; [|split; [|repeat split; congruence]].
    + intros y Hy. apply in_app_or in Hy as [Hy | Hy].
      * left. symmetry. apply Hin1. exact Hy.
      * right. apply Hin2. exact Hy.
    + intros j Hj. rewrite Hk2 by (intros y Hy; apply Hj; right; exact Hy).
      apply Hk1. apply Hj. left. reflexivity.
Qed.

(** A run of the second loop cut at one occurrence of an identifier. *)
Lemma retry_run_split w index games pre x post st :
  index_valid index games ->
  exists a1 st1 a2 st2 a3 st3 s2 s3,
    Retry.retry_loop w index pre (Retry.Acc games [] 0) st = (Ok a1, st1) /\
    Retry.retry_step w index x a1 st1 = (Ok a2, st2) /\
    Retry.retry_loop w index (pre ++ x :: post) (Retry.Acc games [] 0) st
    = (Ok a3, st3) /\
    index_valid index (Retry.enriched_games a1) /\
    (forall y, In y (Retry.still_failed a1) -> In y pre) /\
    Retry.still_failed a2 = Retry.still_failed a1 ++ s2 /\
    Retry.still_failed a3 = Retry.still_failed a2 ++ s3 /\
    (forall y, In y s3 -> In y post) /\
    (forall j, (forall y, In y pre -> index !! y <> Some j) ->
               Retry.enriched_games a1 !! j = games !! j) /\
    (forall j, (forall y, In y post -> index !! y <> Some j) ->
               Retry.enriched_games a3 !! j = Retry.enriched_games a2 !! j).
Proof.
  intros Hv.
  destruct (retry_loop_total w index pre (Retry.Acc games [] 0) st Hv)
    as (a1 & st1 & s1 & Hl1 & Hv1 & _ & Hs1 & Hin1 & Hk1 & _).
  destruct (retry_step_total w index x a1 st1 Hv1)
    as (a2 & st2 & s2 & Hs & Hv2 & _ & Hs2 & _ & _ & _).
  destruct (retry_loop_total w index post a2 st2 Hv2)
    as (a3 & st3 & s3 & Hl3 & _ & _ & Hs3 & Hin3 & Hk3 & _).
  exists a1, st1, a2, st2, a3, st3, s2, s3.
  split; [exact Hl1|]. split; [exact Hs|].
  split; [rewrite retry_loop_app, Hl1; simpl; rewrite Hs; exact Hl3|].
  split; [exact Hv1|].
  split; [intros y Hy; apply Hin1; rewrite Hs1 in Hy; exact Hy|].
  auto.
Qed.

(** After any run of the second loop, a record is what it was, or it is the
    record the lookup gives for an identifier [x] of the failure list, with
    ['steamInfo'] set to the payload of a successful fetch of [x]. *)
Lemma retry_record_history w index games l st :
  index_valid index games ->
  forall a st',
    Retry.retry_loop w index l (Retry.Acc games [] 0) st = (Ok a, st') ->
    forall j g, games !! j = Some g ->
      Retry.enriched_games a !! j = Some g \/
      exists x d data pre post a1 st1,
        g = JObj d /\ index !! x = Some j /\ l = pre ++ x :: post /\
        Retry.retry_loop w index pre (Retry.Acc games [] 0) st = (Ok a1, st1) /\
        fst (Retry.get_steamspy_data w x st1) = Some data /\
        Retry.enriched_games a !! j = Some (JObj (dict_set "steamInfo" data d)).
Proof.
  intros Hv. induction l as [|y l' IH] using rev_ind; intros a st' Hl j g Hg.
  - simpl in Hl. inversion Hl; subst. left. exact Hg.
  - rewrite retry_loop_app in Hl.
    destruct (retry_loop_total w index l' (Retry.Acc games [] 0) st Hv)
      as (a' & st'' & s & Hl' & Hv' & _).
    rewrite Hl' in Hl. simpl in Hl.
    destruct (Retry.retry_step w index y a' st'') as [[a2|e] st2] eqn:Hs;
      [|discriminate].
    inversion Hl; subst a2 st2; clear Hl.
    assert (Hkeep :
      Retry.enriched_games a !! j = Retry.enriched_games a' !! j ->
      Retry.enriched_games a !! j = Some g \/
      exists x d data pre post a1 st1,
        g = JObj d /\ index !! x = Some j /\ l' ++ [y] = pre ++ x :: post /\
        Retry.retry_loop w index pre (Retry.Acc games [] 0) st = (Ok a1, st1) /\
        fst (Retry.get_steamspy_data w x st1) = Some data /\
        Retry.enriched_games a !! j = Some (JObj (dict_set "steamInfo" data d))).
    { intros Heq.
      destruct (IH a' st'' Hl' j g Hg)
        as [Hsame | (x & d & data & pre & post & a1 & st1
                     & -> & Hx & -> & Hp & Hd & Hj)].
      - left. congruence.
      - right. exists x, d, data, pre, (post ++ [y]), a1, st1.
        rewrite <- app_assoc. simpl. repeat split; try assumption. congruence. }
    destruct (index !! y) as [jy|] eqn:Hy.
    + destruct (fst (Retry.get_steamspy_data w y st'')) as [data|] eqn:Hd.
      * destruct (Hv' y jy Hy) as [d' Hd'].
        rewrite (retry_step_enriched _ _ _ _ _ _ _ _ Hy Hd Hd') in Hs.
        inversion Hs; subst a; clear Hs. simpl in *.
        destruct (decide (jy = j)) as [->|Hne].
        -- right.
           assert (Hnew : forall d0, <[j := JObj d0]> (Retry.enriched_games a') !! j
                                     = Some (JObj d0)).
           { intros d0. apply list_lookup_insert_eq.
             eapply lookup_lt_Some; eauto. }
           destruct (IH a' st'' Hl' j g Hg)
             as [Hsame | (x & d & data0 & pre & post & a1 & st1
                          & -> & Hx & -> & Hp & Hd0 & Hj)].
           ++ rewrite Hsame in Hd'. inversion Hd'; subst g.
              exists y, d', data, l', [], a', st''.
              repeat split; try assumption. apply Hnew.
           ++ rewrite Hj in Hd'. inversion Hd'; subst d'.
              exists y, d, data, (pre ++ x :: post), [], a', st''.
              rewrite dict_set_twice.
              repeat split; try assumption. apply Hnew.
        -- apply Hkeep. apply list_lookup_insert_ne. exact Hne.
      * rewrite (retry_step_failed _ _ _ _ _ _ Hy Hd) in Hs.
        inversion Hs; subst a; clear Hs. apply Hkeep. reflexivity.
    + rewrite (retry_step_missing _ _ _ _ _ Hy) in Hs.
      inversion Hs; subst a; clear Hs. apply Hkeep. reflexivity.
Qed.

Lemma retry_after_loop w failed games st index a st' :
  Retry.build_index games 0 ∅ = Ok index ->
  Retry.retry_loop w index failed (Retry.Acc games [] 0) st = (Ok a, st') ->
  Retry.retry_failed_fetches w failed games st
  = (Ok (Retry.enriched_games a, Retry.still_failed a), st').
Proof.
  intros Hb Hl. unfold Retry.retry_failed_fetches. rewrite Hb, Hl. reflexivity.
Qed.

Lemma count_occ_single (s1 s3 : list Z) x :
  ~ In x s1 -> ~ In x s3 ->
  count_occ Z.eq_dec ((s1 ++ [x]) ++ s3) x = 1%nat.
Proof.
  intros H1 H3. rewrite !count_occ_app.
  apply (count_occ_not_In Z.eq_dec) in H1, H3. rewrite H1, H3. simpl.
  destruct (Z.eq_dec x x); [reflexivity | congruence].
Qed.

(** The last successful fetch of an identifier decides the enrichment field
    of the record the lookup gives for it. *)
Lemma retry_last_success w games index pre x post st j a1 st1 data :
  Retry.build_index games 0 ∅ = Ok index ->
  ~ In x post -> index !! x = Some j ->
  Retry.retry_loop w index pre (Retry.Acc games [] 0) st = (Ok a1, st1) ->
  fst (Retry.get_steamspy_data w x st1) = Some data ->
  exists a st' d,
    Retry.retry_loop w index (pre ++ x :: post) (Retry.Acc games [] 0) st
    = (Ok a, st') /\
    games !! j = Some (JObj d) /\
    Retry.enriched_games a !! j = Some (JObj (dict_set "steamInfo" data d)).
Proof.
  intros Hb Hpost Hx Hpre Hd.
  pose proof (index_valid_initial _ _ Hb) as Hv.
  destruct (index_points_at_record _ _ _ _ Hb Hx) as (_ & d & Hg & _).
  destruct (retry_run_split w index games pre x post st Hv)
    as (a1' & st1' & a2 & st2 & a3 & st3 & s2 & s3
        & Hl1 & Hs & Hl & Hv1 & _ & _ & _ & _ & _ & Hk3).
  rewrite Hpre in Hl1. inversion Hl1; subst a1' st1'; clear Hl1.
  exists a3, st3, d. split; [exact Hl|]. split; [exact Hg|].
  rewrite Hk3.
  2:{ intros y Hy Hyj. apply Hpost.
      rewrite (index_injective _ _ _ _ _ Hb Hx Hyj). exact Hy. }
  destruct (Hv1 x j Hx) as [d1 Hd1].
  rewrite (retry_step_enriched _ _ _ _ _ _ _ _ Hx Hd Hd1) in Hs.
  inversion Hs; subst a2 st2; clear Hs. simpl.
  assert (Hset : dict_set "steamInfo" data d1 = dict_set "steamInfo" data d).
  { destruct (retry_record_history w index games pre st Hv a1 st1 Hpre j _ Hg)
      as [Hsame | (x' & d' & data0 & pre' & post' & a0 & st0
                   & Heq & _ & _ & _ & _ & Hj)].
    - congruence.
    - inversion Heq; subst d'. rewrite Hj in Hd1. inversion Hd1; subst d1.
      apply dict_set_twice. }
  rewrite <- Hset. apply list_lookup_insert_eq. eapply lookup_lt_Some; eauto.
Qed.

(** C1, as the code has it: with a lookup built from the enriched records,
    [retry] returns; still-failed holds only identifiers of the failure list;
    each occurrence of an identifier [x] in the failure list is handled in
    exactly one of three ways: absent from the lookup, it is appended to
    still-failed and the state is untouched (no request); present and
    fetched with success, the record the lookup gives for it gets the
    payload as its enrichment field and nothing is appended; present and
    fetched without success, it is appended once.  An identifier that occurs
    once in the failure list is therefore absent from still-failed (fetch
    succeeded, matched record enriched) or in it exactly once; and the
    guarantee "absent or exactly once" holds for every identifier of a
    failure list without repetitions. *)
Theorem retry_accounting w failed games st index :
  Retry.build_index games 0 ∅ = Ok index ->
  exists games' still st',
    Retry.retry_failed_fetches w failed games st = (Ok (games', still), st') /\
    (forall y, In y still -> In y failed) /\
    (forall pre x post, failed = pre ++ x :: post ->
       exists a1 st1 a2 st2,
         Retry.retry_loop w index pre (Retry.Acc games [] 0) st = (Ok a1, st1) /\
         Retry.retry_step w index x a1 st1 = (Ok a2, st2) /\
         match index !! x with
         | None =>
             st2 = st1 /\
             Retry.still_failed a2 = Retry.still_failed a1 ++ [x] /\
             Retry.enriched_games a2 = Retry.enriched_games a1 /\
             (~ In x pre -> ~ In x post ->
              count_occ Z.eq_dec still x = 1%nat)
         | Some j =>
             st2 = sleep (record_call x st1) /\
             match fst (Retry.get_steamspy_data w x st1) with
             | Some data =>
                 Retry.still_failed a2 = Retry.still_failed a1 /\
                 (exists d,
                    Retry.enriched_games a1 !! j = Some (JObj d) /\
                    Retry.enriched_games a2 =
                    <[j := JObj (dict_set "steamInfo" data d)]>
                      (Retry.enriched_games a1)) /\
                 (~ In x post ->
                  exists d,
                    games !! j = Some (JObj d) /\
                    games' !! j = Some (JObj (dict_set "steamInfo" data d))) /\
                 (~ In x pre -> ~ In x post -> ~ In x still)
             | None =>
                 Retry.still_failed a2 = Retry.still_failed a1 ++ [x] /\
                 Retry.enriched_games a2 = Retry.enriched_games a1 /\
                 (~ In x pre -> ~ In x post ->
                  count_occ Z.eq_dec still x = 1%nat)
             end
         end) /\
    (List.NoDup failed -> accounted_once failed still).
Proof.
  intros Hb. pose proof (index_valid_initial _ _ Hb) as Hv.
  destruct (retry_loop_total w index failed (Retry.Acc games [] 0) st Hv)
    as (a & st' & s & Hl & _ & _ & Hs & Hin & _).
  simpl in Hs. subst s.
  exists (Retry.enriched_games a), (Retry.still_failed a), st'.
  split; [exact (retry_after_loop _ _ _ _ _ _ _ Hb Hl)|].
  split; [exact Hin|].
  assert (Hocc : forall pre x post, failed = pre ++ x :: post ->
    exists a1 st1 a2 st2,
      Retry.retry_loop w index pre (Retry.Acc games [] 0) st = (Ok a1, st1) /\
      Retry.retry_step w index x a1 st1 = (Ok a2, st2) /\
      match index !! x with
      | None =>
          st2 = st1 /\
          Retry.still_failed a2 = Retry.still_failed a1 ++ [x] /\
          Retry.enriched_games a2 = Retry.enriched_games a1 /\
          (~ In x pre -> ~ In x post ->
           count_occ Z.eq_dec (Retry.still_failed a) x = 1%nat)
      | Some j =>
          st2 = sleep (record_call x st1) /\
          match fst (Retry.get_steamspy_data w x st1) with
          | Some data =>
              Retry.still_failed a2 = Retry.still_failed a1 /\
              (exists d,
                 Retry.enriched_games a1 !! j = Some (JObj d) /\
                 Retry.enriched_games a2 =
                 <[j := JObj (dict_set "steamInfo" data d)]>
                   (Retry.enriched_games a1)) /\
              (~ In x post ->
               exists d,
                 games !! j = Some (JObj d) /\
                 Retry.enriched_games a !! j
                 = Some (JObj (dict_set "steamInfo" data d))) /\
              (~ In x pre -> ~ In x post -> ~ In x (Retry.still_failed a))
          | None =>
              Retry.still_failed a2 = Retry.still_failed a1 ++ [x] /\
              Retry.enriched_games a2 = Retry.enriched_games a1 /\
              (~ In x pre -> ~ In x post ->
               count_occ Z.eq_dec (Retry.still_failed a) x = 1%nat)
          end
      end).
  { intros pre x post ->.
    destruct (retry_run_split w index games pre x post st Hv)
      as (a1 & st1 & a2 & st2 & a3 & st3 & s2 & s3
          & Hl1 & Hstep & Hl3 & Hv1 & Hin1 & Hs2 & Hs3 & Hin3 & _ & _).
    rewrite Hl in Hl3. inversion Hl3; subst a3 st3; clear Hl3.
    exists a1, st1, a2, st2. split; [exact Hl1|]. split; [exact Hstep|].
    assert (Hone : Retry.still_failed a2 = Retry.still_failed a1 ++ [x] ->
                   ~ In x pre -> ~ In x post ->
                   count_occ Z.eq_dec (Retry.still_failed a) x = 1%nat).
    { intros Heq Hpre Hpost. rewrite Hs3, Heq. apply count_occ_single; auto. }
    destruct (index !! x) as [j|] eqn:Hx.
    - destruct (fst (Retry.get_steamspy_data w x st1)) as [data|] eqn:Hd.
      + destruct (Hv1 x j Hx) as [d1 Hd1].
        rewrite (retry_step_enriched _ _ _ _ _ _ _ _ Hx Hd Hd1) in Hstep.
        inversion Hstep; subst a2 st2; clear Hstep. simpl in *.
        split; [reflexivity|]. split; [reflexivity|].
        split; [exists d1; auto|]. split.
        * intros Hpost.
          destruct (retry_last_success w games index pre x post st j a1 st1
                      data Hb Hpost Hx Hl1 Hd) as (a' & st'' & d & Hl' & Hg & Hj).
          rewrite Hl in Hl'. inversion Hl'; subst a' st''. eauto.
        * intros Hpre Hpost Hstill. rewrite Hs3 in Hstill.
          apply in_app_or in Hstill as [Hstill | Hstill]; auto.
      + rewrite (retry_step_failed _ _ _ _ _ _ Hx Hd) in Hstep.
        inversion Hstep; subst a2 st2; clear Hstep. simpl in *.
        repeat split; auto.
    - rewrite (retry_step_missing _ _ _ _ _ Hx) in Hstep.
      inversion Hstep; subst a2 st2; clear Hstep. simpl in *.
      repeat split; auto. }
  split; [exact Hocc|].
  intros Hnd x Hxin. destruct (in_split _ _ Hxin) as (pre & post & Heq).
  assert (Hpre : ~ In x pre /\ ~ In x post).
  { rewrite Heq in Hnd. apply NoDup_remove_2 in Hnd.
    split; intros Hc; apply Hnd; apply in_or_app; auto. }
  destruct Hpre as [Hpre Hpost].
  destruct (Hocc pre x post Heq) as (a1 & st1 & a2 & st2 & _ & _ & Hcase).
  destruct (index !! x) as [j|].
  - destruct Hcase as (_ & Hcase).
    destruct (fst (Retry.get_steamspy_data w x st1)) as [data|].
    + left. apply Hcase; assumption.
    + right. apply Hcase; assumption.
  - right. apply Hcase; assumption.
Qed.

Lemma retry_accounting_witness :
  Retry.build_index [tf2] 0 ∅ = Ok (<[440 := 0%nat]> ∅) /\
  exists games' still st',
    Retry.retry_failed_fetches (world_status 200) [440; 7] [tf2] fresh
    = (Ok (games', still), st') /\
    (forall y, In y still -> In y [440; 7]) /\
    accounted_once [440; 7] still.
Proof.
  split; [reflexivity|].
  destruct (retry_accounting (world_status 200) [440; 7] [tf2] fresh
              (<[440 := 0%nat]> ∅) eq_refl)
    as (games' & still & st' & Hr & Hin & _ & Hnd).
  exists games', still, st'. split; [exact Hr|]. split; [exact Hin|].
  apply Hnd. repeat constructor; simpl; intros H;
    repeat (destruct H as [H | H]; [discriminate|]); exact H.
Defined.

(** C1 as stated fails: an identifier that is twice in the failure list and
    whose fetch fails twice is twice in still-failed. *)
Lemma retry_repeated_identifier_listed_twice :
  Retry.retry_failed_fetches world_down [440; 440] [tf2] fresh
  = (Ok ([tf2], [440; 440]), State [440; 440] 2 None None []) /\
  ~ accounted_once [440; 440] [440; 440].
Proof.
  split; [reflexivity|]. intros H.
  destruct (H 440 (or_introl eq_refl)) as [Hn | Hc].
  - apply Hn. left. reflexivity.
  - discriminate Hc.
Qed.

(** The lookup keeps, for each identifier, the position of the last record
    that carries it: a binding of the initial map stays or is replaced by a
    position at or after [i], and a record at position [i + k] whose
    identifier is [x] leaves [x] bound to a position at or after [i + k]. *)
Lemma build_index_latest games i m index :
  Retry.build_index games i m = Ok index ->
  forall x,
    (forall j0, m !! x = Some j0 ->
       exists j, index !! x = Some j /\ (j = j0 \/ (i <= j)%nat)) /\
    (x <> 0 -> forall k g, games !! k = Some g ->
       Retry.find_steam_app_id g = Ok (Some x) ->
       exists j, index !! x = Some j /\ (i + k <= j)%nat).
Proof.
  revert i m. induction games as [|game rest IH]; intros i m Hb x.
  - simpl in Hb. inversion Hb; subst. split.
    + intros j0 Hj0. exists j0. auto.
    + intros _ k g Hk. rewrite lookup_nil in Hk. discriminate.
  - simpl in Hb.
    destruct (Retry.find_steam_app_id game) as [o|] eqn:Hf; [|discriminate].
    simpl in Hb.
    destruct (id_truthy o) as [id|] eqn:Ho.
    + apply id_truthy_nonzero in Ho as [-> Hid].
      destruct (IH _ _ Hb x) as [Hm Hr]. split.
      * intros j0 Hj0. destruct (decide (id = x)) as [->|Hne].
        -- destruct (Hm i) as (j & Hj & Hij);
             [rewrite lookup_insert_eq; reflexivity|].
           exists j. split; [exact Hj|]. right. lia.
        -- destruct (Hm j0) as (j & Hj & Hij);
             [rewrite lookup_insert_ne by exact Hne; exact Hj0|].
           exists j. split; [exact Hj|]. destruct Hij; [auto | right; lia].
      * intros Hx [|k] g Hk Hg.
        -- simpl in Hk. inversion Hk; subst g.
           rewrite Hf in Hg. inversion Hg; subst id.
           destruct (Hm i) as (j & Hj & Hij);
             [rewrite lookup_insert_eq; reflexivity|].
           exists j. split; [exact Hj | lia].
        -- simpl in Hk. destruct (Hr Hx k g Hk Hg) as (j & Hj & Hij).
           exists j. split; [exact Hj | lia].
    + destruct (IH _ _ Hb x) as [Hm Hr]. split.
      * intros j0 Hj0. destruct (Hm j0 Hj0) as (j & Hj & Hij).
        exists j. split; [exact Hj|]. destruct Hij; [auto | right; lia].
      * intros Hx [|k] g Hk Hg.
        -- simpl in Hk. inversion Hk; subst g.
           rewrite Hf in Hg. inversion Hg; subst o.
           rewrite (id_truthy_some _ Hx) in Ho. discriminate.
        -- simpl in Hk. destruct (Hr Hx k g Hk Hg) as (j & Hj & Hij).
           exists j. split; [exact Hj | lia].
Qed.

(** The position the lookup gives for an identifier is that of the last
    record carrying it. *)
Lemma index_points_at_last_record games index x j :
  Retry.build_index games 0 ∅ = Ok index -> index !! x = Some j ->
  forall k g, games !! k = Some g ->
    Retry.find_steam_app_id g = Ok (Some x) -> (k <= j)%nat.
Proof.
  intros Hb Hx k g Hk Hg.
  destruct (index_points_at_record _ _ _ _ Hb Hx) as [Hx0 _].
  destruct (proj2 (build_index_latest _ _ _ _ Hb x) Hx0 k g Hk Hg)
    as (j' & Hj' & Hle).
  rewrite Hx in Hj'. inversion Hj'; subst j'. lia.
Qed.

(** C8, as the code has it.  The lookup gives for an identifier [x] the
    last record that carries [x].  After [retry] every record is the record
    it was, or it is the record the lookup gives for its identifier [x] and
    its enrichment field is the payload of a successful fetch of [x] made in
    this run; a record that is not the one the lookup gives for its
    identifier, such as an earlier record carrying the identifier of a later
    one, stays as it was; the last successful fetch of an identifier
    overwrites the field of the record the lookup gives for it; an iteration
    whose fetch fails leaves every record as it is. *)
Theorem retry_preserves_enrichment w failed games st index :
  Retry.build_index games 0 ∅ = Ok index ->
  (forall x j, index !! x = Some j ->
     x <> 0 /\
     (exists d, games !! j = Some (JObj d) /\
                Retry.find_steam_app_id (JObj d) = Ok (Some x)) /\
     (forall k g, games !! k = Some g ->
        Retry.find_steam_app_id g = Ok (Some x) -> (k <= j)%nat)) /\
  exists games' still st',
    Retry.retry_failed_fetches w failed games st = (Ok (games', still), st') /\
    (forall j g, games !! j = Some g ->
       games' !! j = Some g \/
       exists x d data pre post a1 st1,
         g = JObj d /\ Retry.find_steam_app_id g = Ok (Some x) /\
         index !! x = Some j /\ failed = pre ++ x :: post /\
         Retry.retry_loop w index pre (Retry.Acc games [] 0) st = (Ok a1, st1) /\
         fst (Retry.get_steamspy_data w x st1) = Some data /\
         games' !! j = Some (JObj (dict_set "steamInfo" data d))) /\
    (forall k g,
       games !! k = Some g ->
       (forall x, Retry.find_steam_app_id g = Ok (Some x) ->
                  index !! x <> Some k) ->
       games' !! k = Some g) /\
    (forall x j k g,
       index !! x = Some j -> games !! k = Some g ->
       Retry.find_steam_app_id g = Ok (Some x) -> k <> j ->
       (k < j)%nat /\ games' !! k = Some g) /\
    (forall pre x post j a1 st1 data,
       failed = pre ++ x :: post -> ~ In x post -> index !! x = Some j ->
       Retry.retry_loop w index pre (Retry.Acc games [] 0) st = (Ok a1, st1) ->
       fst (Retry.get_steamspy_data w x st1) = Some data ->
       exists d, games !! j = Some (JObj d) /\
                 games' !! j = Some (JObj (dict_set "steamInfo" data d))) /\
    (forall pre x post a1 st1,
       failed = pre ++ x :: post ->
       Retry.retry_loop w index pre (Retry.Acc games [] 0) st = (Ok a1, st1) ->
       fst (Retry.get_steamspy_data w x st1) = None ->
       exists a2 st2,
         Retry.retry_step w index x a1 st1 = (Ok a2, st2) /\
         Retry.enriched_games a2 = Retry.enriched_games a1).
Proof.
  intros Hb. pose proof (index_valid_initial _ _ Hb) as Hv.
  split.
  { intros x j Hx.
    destruct (index_points_at_record _ _ _ _ Hb Hx) as (Hx0 & d & Hg & Hf).
    split; [exact Hx0|]. split; [eauto|].
    exact (index_points_at_last_record _ _ _ _ Hb Hx). }
  destruct (retry_loop_total w index failed (Retry.Acc games [] 0) st Hv)
    as (a & st' & s & Hl & _).
  exists (Retry.enriched_games a), (Retry.still_failed a), st'.
  split; [exact (retry_after_loop _ _ _ _ _ _ _ Hb Hl)|].
  assert (Hhist : forall j g, games !! j = Some g ->
       Retry.enriched_games a !! j = Some g \/
       exists x d data pre post a1 st1,
         g = JObj d /\ Retry.find_steam_app_id g = Ok (Some x) /\
         index !! x = Some j /\ failed = pre ++ x :: post /\
         Retry.retry_loop w index pre (Retry.Acc games [] 0) st = (Ok a1, st1) /\
         fst (Retry.get_steamspy_data w x st1) = Some data /\
         Retry.enriched_games a !! j
         = Some (JObj (dict_set "steamInfo" data d))).
  { intros j g Hg.
    destruct (retry_record_history w index games failed st Hv a st' Hl j g Hg)
      as [Hsame | (x & d & data & pre & post & a1 & st1
                   & -> & Hx & Hf & Hp & Hd & Hj)]; [left; exact Hsame|].
    right. exists x, d, data, pre, post, a1, st1.
    destruct (index_points_at_record _ _ _ _ Hb Hx) as (_ & d' & Hg' & Hfind).
    rewrite Hg in Hg'. inversion Hg'; subst d'.
    repeat split; assumption. }
  assert (Hother : forall k g,
       games !! k = Some g ->
       (forall x, Retry.find_steam_app_id g = Ok (Some x) ->
                  index !! x <> Some k) ->
       Retry.enriched_games a !! k = Some g).
  { intros k g Hg Hnot.
    destruct (Hhist k g Hg)
      as [Hsame | (x & d & data & pre & post & a1 & st1
                   & _ & Hfind & Hx & _)]; [exact Hsame|].
    destruct (Hnot x Hfind Hx). }
  split; [exact Hhist|]. split; [exact Hother|]. split; [|split].
  - intros x j k g Hx Hg Hfind Hkj.
    pose proof (index_points_at_last_record _ _ _ _ Hb Hx k g Hg Hfind) as Hle.
    split; [lia|]. apply Hother; [exact Hg|].
    intros y Hy. rewrite Hfind in Hy. inversion Hy; subst y.
    rewrite Hx. congruence.
  - intros pre x post j a1 st1 data -> Hpost Hx Hp Hd.
    destruct (retry_last_success w games index pre x post st j a1 st1 data
                Hb Hpost Hx Hp Hd) as (a' & st'' & d & Hl' & Hg & Hj).
    rewrite Hl in Hl'. inversion Hl'; subst a' st''. eauto.
  - intros pre x post a1 st1 _ Hp Hd.
    destruct (index !! x) as [j|] eqn:Hx.
    + rewrite (retry_step_failed _ _ _ _ _ _ Hx Hd). eauto.
    + rewrite (retry_step_missing _ _ _ _ _ Hx). eauto.
Qed.

Lemma retry_preserves_enrichment_witness :
  Retry.build_index [JObj tf2_old_items; tf2] 0 ∅ = Ok (<[440 := 1%nat]> ∅) /\
  exists games' still st',
    Retry.retry_failed_fetches (world_status 200) [440]
                               [JObj tf2_old_items; tf2] fresh
    = (Ok (games', still), st') /\
    games' !! 0%nat = Some (JObj tf2_old_items).
Proof.
  split; [reflexivity|].
  destruct (retry_preserves_enrichment (world_status 200) [440]
              [JObj tf2_old_items; tf2] fresh (<[440 := 1%nat]> ∅) eq_refl)
    as (_ & games' & still & st' & Hr & _ & _ & Hdup & _).
  exists games', still, st'. split; [exact Hr|].
  apply (Hdup 440 1%nat 0%nat (JObj tf2_old_items));
    [reflexivity | reflexivity | reflexivity | discriminate].
Defined.

(** C8 as stated fails: two records carry identifier 440 and the first one
    is enriched; a retry of 440 succeeds, yet the first record keeps its old
    enrichment field: the lookup gives the second record for 440. *)
Lemma retry_leaves_earlier_duplicate :
  ~ overwritten_by_any_success (world_status 200) [440]
      [JObj tf2_old_items; tf2] fresh.
Proof.
  intros H.
  specialize (H (<[440 := 1%nat]> ∅) _ _ _ 0%nat tf2_old_items 440 [] []
                (Retry.Acc [JObj tf2_old_items; tf2] [] 0) fresh
                (JObj [("appid", JInt 440); ("owners", JStr "1,000,000")])
                eq_refl eq_refl eq_refl eq_refl eq_refl eq_refl
                (fun f => f) eq_refl eq_refl).
  vm_compute in H. discriminate H.
Qed.

(** ** The Failure Set document *)

(** The enrichment loop writes no document, whatever the records and
    whether it ends or raises. *)
Lemma enrich_step_disk w apps g a st r st' :
  Enrich.enrich_step w apps g a st = (r, st') ->
  wlog st' = wlog st /\ failed_doc st' = failed_doc st /\
  enriched_doc st' = enriched_doc st.
Proof.
  unfold Enrich.enrich_step.
  destruct (py_copy g) as [c|e]; [|intros H; inversion H; auto].
  destruct (Enrich.find_steam_app_id g) as [o|e];
    [|intros H; inversion H; auto].
  destruct (id_truthy o) as [x|]; [|intros H; inversion H; auto].
  destruct (apps !! x) as [v|]; [|intros H; inversion H; auto].
  rewrite enrich_get_request.
  destruct (match request_appdetails (net w (calls st) x) x with
            | Ok r0 => r0
            | Raise _ => None
            end) as [data|]; [|intros H; inversion H; auto].
  destruct (py_truthy data); [|intros H; inversion H; auto].
  destruct (py_setitem c "steamInfo" data); intros H; inversion H; auto.
Qed.

Lemma enrich_loop_disk w apps games a st r st' :
  Enrich.enrich_loop w apps games a st = (r, st') ->
  wlog st' = wlog st /\ failed_doc st' = failed_doc st /\
  enriched_doc st' = enriched_doc st.
Proof.
  revert a st. induction games as [|g games IH]; intros a st; simpl.
  - intros H. inversion H. auto.
  - destruct (Enrich.enrich_step w apps g a st) as [[a1|e] st1] eqn:Hs.
    + intros Hl. destruct (enrich_step_disk _ _ _ _ _ _ _ Hs) as (H1 & H2 & H3).
      destruct (IH _ _ Hl) as (H4 & H5 & H6). repeat split; congruence.
    + intros H. inversion H; subst.
      exact (enrich_step_disk _ _ _ _ _ _ _ Hs).
Qed.

(** A record on which the extractor raises stops the first loop of
    [retry]. *)
Lemma build_index_raises games i m :
  Exists (fun g => is_ok (Retry.find_steam_app_id g) = false) games ->
  exists e, Retry.build_index games i m = Raise e.
Proof.
  intros H. revert i m.
  induction H as [g rest Hg | g rest _ IH]; intros i m; simpl.
  - destruct (Retry.find_steam_app_id g) as [o|e]; [discriminate|].
    simpl. eauto.
  - destruct (Retry.find_steam_app_id g) as [o|e]; simpl; [|eauto].
    destruct (id_truthy o); apply IH.
Qed.

(** C9, as the code has it.  Enrichment: every run of [enrich], however it
    ends, leaves the Failure Set document alone, unless its loop ended with
    a failure list that is not empty and the document can be written, in
    which case the run writes that list once; on records the extractor
    returns on, an empty failure list means no write, a failure list that is
    not empty means the document is written, or, when it cannot be written,
    that [enrich] raises.  Retry: with an empty failure list or an empty
    dataset [main] writes nothing; when the extractor raises on a record of
    the dataset [main] raises before any save and writes nothing; otherwise
    [main] returns, and it rewrites the Failure Set document with the
    identifiers that still fail, also when there is none, if the document
    can be written, and leaves the old document in place if it cannot. *)
Theorem failure_document_written w st :
  (forall games apps r st',
     Enrich.enrich_igdb_with_steam_data w games apps st = (r, st') ->
     (wlog st' = wlog st /\ failed_doc st' = failed_doc st) \/
     (exists a st1,
        Enrich.enrich_loop w apps games (Enrich.Acc [] [] 0) st = (Ok a, st1) /\
        Enrich.failed_steam_ids a <> [] /\
        writable w failed_file = true /\
        r = Ok (Enrich.enriched_games a) /\
        wlog st' = wlog st ++ [failed_file] /\
        failed_doc st' = Some (Enrich.failed_steam_ids a))) /\
  (forall games apps,
     Forall (fun g => is_ok (Enrich.find_steam_app_id g) = true) games ->
     exists a st1,
       Enrich.enrich_loop w apps games (Enrich.Acc [] [] 0) st = (Ok a, st1) /\
       match Enrich.failed_steam_ids a with
       | [] =>
           Enrich.enrich_igdb_with_steam_data w games apps st
           = (Ok (Enrich.enriched_games a), st1) /\
           wlog st1 = wlog st /\ failed_doc st1 = failed_doc st
       | _ :: _ =>
           if writable w failed_file then
             exists st',
               Enrich.enrich_igdb_with_steam_data w games apps st
               = (Ok (Enrich.enriched_games a), st') /\
               wlog st' = wlog st ++ [failed_file] /\
               failed_doc st' = Some (Enrich.failed_steam_ids a)
           else
             Enrich.enrich_igdb_with_steam_data w games apps st
             = (Raise OSError, st1) /\
             wlog st1 = wlog st /\ failed_doc st1 = failed_doc st
       end) /\
  (Retry.load_failed_steam_ids st = [] \/ Retry.load_enriched_games st = [] ->
   Retry.main w st = (Ok tt, st)) /\
  (forall x failed g games,
     failed_doc st = Some (x :: failed) ->
     enriched_doc st = Some (g :: games) ->
     Exists (fun r => is_ok (Retry.find_steam_app_id r) = false) (g :: games) ->
     exists e, Retry.main w st = (Raise e, st)) /\
  (forall x failed g games,
     failed_doc st = Some (x :: failed) ->
     enriched_doc st = Some (g :: games) ->
     Forall (fun r => is_ok (Retry.find_steam_app_id r) = true) (g :: games) ->
     exists games' still st1 st' new,
       Retry.retry_failed_fetches w (x :: failed) (g :: games) st
       = (Ok (games', still), st1) /\
       Retry.main w st = (Ok tt, st') /\
       ~ In failed_file new /\
       if writable w failed_file
       then wlog st' = wlog st ++ new ++ [failed_file] /\
            failed_doc st' = Some still
       else wlog st' = wlog st ++ new /\
            failed_doc st' = Some (x :: failed)).
Proof.
  split; [|split; [|split; [|split]]].
  - intros games apps r st'. unfold Enrich.enrich_igdb_with_steam_data.
    destruct (Enrich.enrich_loop w apps games (Enrich.Acc [] [] 0) st)
      as [[a|e] st1] eqn:Hl;
      destruct (enrich_loop_disk _ _ _ _ _ _ _ Hl) as (Hw1 & Hd1 & _).
    + destruct (Enrich.failed_steam_ids a) as [|y l] eqn:Hf.
      * intros H. inversion H; subst. left. auto.
      * unfold write_failed. destruct (writable w failed_file) eqn:Hw.
        -- intros H. inversion H; subst. right. exists a, st1. simpl.
           rewrite Hf, Hw1. split_ands; try reflexivity. discriminate.
        -- intros H. inversion H; subst. left. auto.
    + intros H. inversion H; subst. left. auto.
  - intros games apps Hg.
    destruct (enrich_loop_total w apps games (Enrich.Acc [] [] 0) st Hg)
      as (a & st1 & outs & f & Hl & _ & _ & _ & Hw1 & Hd1 & _).
    exists a, st1. split; [exact Hl|].
    unfold Enrich.enrich_igdb_with_steam_data. rewrite Hl.
    destruct (Enrich.failed_steam_ids a) as [|y l] eqn:Hf; [auto|].
    unfold write_failed. destruct (writable w failed_file) eqn:Hw; [|auto].
    eexists. split; [reflexivity|]. simpl. rewrite Hw1. auto.
  - unfold Retry.main. intros [-> | H]; [reflexivity|].
    destruct (Retry.load_failed_steam_ids st); [reflexivity|].
    rewrite H. reflexivity.
  - intros x failed g games Hfd Hed Hex.
    destruct (build_index_raises (g :: games) 0%nat ∅ Hex) as [e Hb].
    exists e.
    unfold Retry.main, Retry.load_failed_steam_ids, Retry.load_enriched_games,
      Retry.retry_failed_fetches.
    rewrite Hfd, Hed, Hb. reflexivity.
  - intros x failed g games Hfd Hed Hall.
    destruct (build_index_total (g :: games) 0%nat ∅ Hall) as [index Hb].
    pose proof (index_valid_initial _ _ Hb) as Hv.
    destruct (retry_loop_total w index (x :: failed)
                (Retry.Acc (g :: games) [] 0) st Hv)
      as (a & st1 & s & Hl & _ & _ & _ & _ & _ & Hw1 & Hd1 & _).
    pose proof (retry_after_loop _ _ _ _ _ _ _ Hb Hl) as Hr.
    unfold Retry.main, Retry.load_failed_steam_ids, Retry.load_enriched_games.
    rewrite Hfd, Hed, Hr.
    unfold Retry.save_still_failed, Retry.save_updated_games,
      write_enriched, write_failed.
    assert (Hne : ~ In failed_file [enriched_file]).
    { intros [H | []]. discriminate H. }
    destruct (writable w enriched_file), (writable w failed_file); simpl;
      rewrite ?Hw1, ?Hd1, ?Hfd.
    + eexists _, _, _, _, [enriched_file]. rewrite <- app_assoc.
      split_ands; try reflexivity; try congruence.
    + eexists _, _, _, _, [enriched_file].
      split_ands; try reflexivity; try congruence.
    + eexists _, _, _, _, [].
      split_ands; try reflexivity; try congruence. intros [].
    + eexists _, _, _, _, []. rewrite app_nil_r.
      split_ands; try reflexivity; try congruence. intros [].
Qed.

Lemma failure_document_written_witness :
  exists games' st1 st' new,
    Retry.retry_failed_fetches (world_status 200) [440] [tf2] one_failure_left
    = (Ok (games', []), st1) /\
    Retry.main (world_status 200) one_failure_left = (Ok tt, st') /\
    wlog st' = wlog one_failure_left ++ new ++ [failed_file] /\
    failed_doc st' = Some [].
Proof.
  destruct (failure_document_written (world_status 200) one_failure_left)
    as (_ & _ & _ & _ & H).
  destruct (H 440 [] tf2 [] eq_refl eq_refl ltac:(repeat constructor))
    as (games' & still & st1 & st' & new & Hr & Hm & _ & Hw & Hd).
  assert (Hs : still = []) by (inversion Hr; reflexivity).
  subst still. exists games', st1, st', new. auto.
Defined.

(** C9 as stated fails for the retry stage: the only failed identifier is
    fetched with success, nothing still fails, and the Failure Set document
    is written all the same (with the empty list). *)
Lemma retry_writes_empty_failure_document :
  ~ retry_writes_only_nonempty (world_status 200) one_failure_left.
Proof.
  intros H.
  apply (H _ _ _ _ [enriched_file; failed_file] eq_refl eq_refl eq_refl eq_refl).
  right. left. reflexivity.
Qed.

(** ** Identifier 0 *)

(** C10: when the first Steam entry of a record has no uid field, the
    extractor returns 0 (both copies; the entries before it are entries
    whose source is not Steam); the enrichment driver then makes no fetch
    for the record, whatever the secondary index holds, and passes it
    through; the lookup of the retry driver never has 0 as a key, so a
    failed identifier 0 goes to still-failed without a fetch. *)
Theorem missing_uid_is_zero_and_not_fetched d pre entry rest :
  dict_get "external_games" d = Some (JList (pre ++ entry :: rest)) ->
  has_key "uid" entry = false ->
  (Forall (fun e => Enrich.is_steam e = Ok false) pre ->
   Enrich.is_steam entry = Ok true ->
   Enrich.find_steam_app_id (JObj d) = Ok (Some 0) /\
   forall w apps a st,
     Enrich.enrich_step w apps (JObj d) a st =
     (Ok (Enrich.Acc (Enrich.enriched_games a ++ [JObj d])
                     (Enrich.failed_steam_ids a)
                     (Enrich.steam_enriched_count a)), st)) /\
  (Forall (fun e => Retry.is_steam e = Ok false) pre ->
   Retry.is_steam entry = Ok true ->
   Retry.find_steam_app_id (JObj d) = Ok (Some 0) /\
   forall games index,
     Retry.build_index games 0 ∅ = Ok index ->
     index !! 0 = None /\
     forall w a st,
       Retry.retry_step w index 0 a st =
       (Ok (Retry.Acc (Retry.enriched_games a) (Retry.still_failed a ++ [0])
                      (Retry.success_count a)), st)).
Proof.
  intros Hd Hu. split.
  - intros Hpre He.
    assert (Hf : Enrich.find_steam_app_id (JObj d) = Ok (Some 0)).
    { unfold Enrich.find_steam_app_id. simpl. rewrite Hd. simpl.
      destruct (enrich_is_steam_obj _ _ He) as [de Hde].
      apply (enrich_scan_first_match pre entry rest (JInt 0) 0).
      - eapply Forall_impl; [exact Hpre|]. intros e H. left. exact H.
      - exact He.
      - exact (missing_uid_defaults _ Hu _ Hde).
      - reflexivity. }
    split; [exact Hf|]. intros w apps a st.
    apply (enrich_step_gated _ _ _ _ _ _ Hf). exact I.
  - intros Hpre He.
    assert (Hf : Retry.find_steam_app_id (JObj d) = Ok (Some 0)).
    { unfold Retry.find_steam_app_id. simpl. rewrite Hd. simpl.
      destruct (retry_is_steam_obj _ _ He) as [de Hde].
      apply (retry_scan_first_match pre entry rest (JInt 0) 0).
      - eapply Forall_impl; [exact Hpre|]. intros e H. left. exact H.
      - exact He.
      - exact (missing_uid_defaults _ Hu _ Hde).
      - reflexivity. }
    split; [exact Hf|]. intros games index Hb.
    assert (Hz : index !! 0 = None).
    { destruct (index !! 0) as [j|] eqn:Hj; [|reflexivity].
      destruct (index_points_at_record _ _ _ _ Hb Hj) as [Hne _].
      congruence. }
    split; [exact Hz|]. intros w a st. apply retry_step_missing. exact Hz.
Qed.

Lemma missing_uid_is_zero_and_not_fetched_witness :
  Enrich.find_steam_app_id uid_missing = Ok (Some 0) /\
  Retry.find_steam_app_id uid_missing = Ok (Some 0) /\
  (forall w a st,
     Enrich.enrich_step w (<[0 := JNull]> steam_apps) uid_missing a st =
     (Ok (Enrich.Acc (Enrich.enriched_games a ++ [uid_missing])
                     (Enrich.failed_steam_ids a)
                     (Enrich.steam_enriched_count a)), st)).
Proof.
  destruct (missing_uid_is_zero_and_not_fetched
              [("external_games",
                JList [xref "GOG" (JStr "7");
                       JObj [("external_game_source", JObj [("name", JStr "Steam")])];
                       xref "Steam" (JStr "440")])]
              [xref "GOG" (JStr "7")]
              (JObj [("external_game_source", JObj [("name", JStr "Steam")])])
              [xref "Steam" (JStr "440")] eq_refl eq_refl) as [He Hr].
  destruct He as [He1 He2]; [repeat constructor | reflexivity |].
  destruct Hr as [Hr1 _]; [repeat constructor | reflexivity |].
  split; [exact He1|]. split; [exact Hr1|].
  intros w a st. apply He2.
Defined.

(** ** More on the extractor *)

Lemma enrich_scan_result l o :
  Enrich.scan l = Ok o ->
  match o with
  | None => Forall enrich_skipped l
  | Some n =>
      exists pre e rest uid,
        l = pre ++ e :: rest /\ Forall enrich_skipped pre /\
        Enrich.is_steam e = Ok true /\
        py_get e "uid" (JInt 0) = Ok uid /\ py_int uid = Ok n
  end.
Proof.
  revert o. induction l as [|e l IH]; intros o H.
  - simpl in H. inversion H; subst. constructor.
  - simpl in H. destruct (Enrich.is_steam e) as [[|]|] eqn:He;
      simpl in H; try discriminate.
    + destruct (py_get e "uid" (JInt 0)) as [uid|] eqn:Hu;
        simpl in H; [|discriminate].
      assert (Hskip : enrich_skipped e ->
                match o with
                | None => Forall enrich_skipped l
                | Some n =>
                    exists pre e0 rest uid0,
                      l = pre ++ e0 :: rest /\ Forall enrich_skipped pre /\
                      Enrich.is_steam e0 = Ok true /\
                      py_get e0 "uid" (JInt 0) = Ok uid0 /\ py_int uid0 = Ok n
                end ->
                match o with
                | None => Forall enrich_skipped (e :: l)
                | Some n =>
                    exists pre e0 rest uid0,
                      e :: l = pre ++ e0 :: rest /\ Forall enrich_skipped pre /\
                      Enrich.is_steam e0 = Ok true /\
                      py_get e0 "uid" (JInt 0) = Ok uid0 /\ py_int uid0 = Ok n
                end).
      { intros Hs Hr. destruct o as [n|]; [|constructor; assumption].
        destruct Hr as (pre & e0 & rest & uid0 & -> & Hp & H0 & H1 & H2).
        exists (e :: pre), e0, rest, uid0. repeat split; try assumption.
        constructor; assumption. }
      destruct (py_int uid) as [n|[]] eqn:Hn; try discriminate.
      * inversion H; subst o. exists [], e, l, uid. repeat split; auto.
      * apply Hskip; [|apply IH; exact H].
        right. split; [exact He|]. exists uid. split; [exact Hu|]. auto.
      * apply Hskip; [|apply IH; exact H].
        right. split; [exact He|]. exists uid. split; [exact Hu|]. auto.
    + specialize (IH o H). destruct o as [n|].
      * destruct IH as (pre & e0 & rest & uid0 & -> & Hp & H0 & H1 & H2).
        exists (e :: pre), e0, rest, uid0. repeat split; try assumption.
        constructor; [left; exact He | assumption].
      * constructor; [left; exact He | assumption].
Qed.

(** Whenever the extractor of the enrichment script returns, its answer is
    decided by the first Steam entry whose uid [int()] converts: an
    identifier [n] is the converted uid of such an entry, every entry before
    it being a non-Steam entry or a Steam entry whose conversion raised
    [ValueError] or [TypeError]; "none" means every entry is of that kind
    (or the list is missing). *)
Theorem extractor_answer_is_first_convertible_steam_entry d o :
  Enrich.find_steam_app_id (JObj d) = Ok o ->
  exists l,
    py_iter (match dict_get "external_games" d with
             | Some v => v
             | None => JList []
             end) = Ok l /\
    match o with
    | None => Forall enrich_skipped l
    | Some n =>
        exists pre e rest uid,
          l = pre ++ e :: rest /\ Forall enrich_skipped pre /\
          Enrich.is_steam e = Ok true /\
          py_get e "uid" (JInt 0) = Ok uid /\ py_int uid = Ok n
    end.
Proof.
  unfold Enrich.find_steam_app_id. simpl.
  destruct (py_iter _) as [l|] eqn:Hl; simpl; [|discriminate].
  intros H. exists l. split; [reflexivity|]. apply enrich_scan_result. exact H.
Qed.

Lemma extractor_answer_is_first_convertible_steam_entry_witness :
  exists l,
    py_iter (JList [xref "GOG" (JStr "7"); xref "Steam" (JStr "n/a");
                    xref "Steam" (JStr "440"); xref "Steam" (JStr "570")])
    = Ok l /\
    exists pre e rest uid,
      l = pre ++ e :: rest /\ Forall enrich_skipped pre /\
      Enrich.is_steam e = Ok true /\
      py_get e "uid" (JInt 0) = Ok uid /\ py_int uid = Ok 440.
Proof.
  apply (extractor_answer_is_first_convertible_steam_entry
           [("external_games",
             JList [xref "GOG" (JStr "7"); xref "Steam" (JStr "n/a");
                    xref "Steam" (JStr "440"); xref "Steam" (JStr "570")])]
           (Some 440)).
  reflexivity.
Defined.

Lemma is_steam_agree e b :
  Enrich.is_steam e = Ok b -> Retry.is_steam e = Ok b.
Proof.
  unfold Enrich.is_steam, Retry.is_steam.
  destruct e as [| | | | | |d]; try discriminate. simpl.
  destruct (dict_get "external_game_source" d) as [[| | | | | |source]|];
    try discriminate. simpl.
  destruct (dict_get "name" source); [auto | discriminate].
Qed.

Lemma scan_agree l o : Enrich.scan l = Ok o -> Retry.scan l = Ok o.
Proof.
  induction l as [|e l IH]; [auto|]. simpl.
  destruct (Enrich.is_steam e) as [b|] eqn:He; [|discriminate].
  rewrite (is_steam_agree _ _ He). simpl. destruct b; [|exact IH].
  destruct (py_get e "uid" (JInt 0)) as [uid|]; [|discriminate]. simpl.
  destruct (py_int uid) as [n|[]]; auto.
Qed.

Lemma find_agree g o :
  Enrich.find_steam_app_id g = Ok o -> Retry.find_steam_app_id g = Ok o.
Proof.
  unfold Enrich.find_steam_app_id, Retry.find_steam_app_id.
  destruct (py_get g "external_games" (JList [])) as [v|]; [|discriminate].
  simpl. destruct (py_iter v) as [l|]; [|discriminate]. simpl.
  apply scan_agree.
Qed.

(** The two copies of the extractor agree wherever the copy of the
    enrichment script returns: the copy of the retry script returns the same
    answer on the same record. *)
Theorem retry_extractor_extends_enrich_extractor g o :
  Enrich.find_steam_app_id g = Ok o -> Retry.find_steam_app_id g = Ok o.
Proof. apply find_agree. Qed.

Lemma retry_extractor_extends_enrich_extractor_witness :
  Retry.find_steam_app_id tf2 = Ok (Some 440).
Proof.
  apply (retry_extractor_extends_enrich_extractor tf2 (Some 440)).
  reflexivity.
Defined.

Lemma dict_get_set_other k k' v d :
  k <> k' -> dict_get k (dict_set k' v d) = dict_get k d.
Proof.
  intros Hne. induction d as [|[k0 v0] d IH]; simpl.
  - destruct (String.eqb k k') eqn:Hk; [|reflexivity].
    apply String.eqb_eq in Hk. contradiction.
  - destruct (String.eqb k' k0) eqn:Hk0; simpl.
    + apply String.eqb_eq in Hk0. subst k0.
      destruct (String.eqb k k') eqn:Hk; [|reflexivity].
      apply String.eqb_eq in Hk. contradiction.
    + rewrite IH. reflexivity.
Qed.

Lemma find_after_enrichment d data :
  Enrich.find_steam_app_id (JObj (dict_set "steamInfo" data d))
  = Enrich.find_steam_app_id (JObj d) /\
  Retry.find_steam_app_id (JObj (dict_set "steamInfo" data d))
  = Retry.find_steam_app_id (JObj d).
Proof.
  unfold Enrich.find_steam_app_id, Retry.find_steam_app_id. simpl.
  rewrite dict_get_set_other by discriminate. split; reflexivity.
Qed.

(** When a fetch succeeds, the enrichment step and the retry step put the
    payload the fetch returned in the enrichment field of the record and
    change nothing else: every other key of the record keeps its value, both
    extractors give for the enriched record what they give for the record
    itself, and the retry step leaves every other record of the dataset as
    it is. *)
Theorem enrichment_keeps_the_record w st x data :
  fst (Enrich.get_steamspy_data w x st) = Some data ->
  (forall apps d a v,
     Enrich.find_steam_app_id (JObj d) = Ok (Some x) -> x <> 0 ->
     apps !! x = Some v ->
     exists a' st' d',
       Enrich.enrich_step w apps (JObj d) a st = (Ok a', st') /\
       Enrich.enriched_games a' = Enrich.enriched_games a ++ [JObj d'] /\
       dict_get "steamInfo" d' = Some data /\
       (forall k, k <> "steamInfo" -> dict_get k d' = dict_get k d) /\
       Enrich.find_steam_app_id (JObj d') = Enrich.find_steam_app_id (JObj d) /\
       Retry.find_steam_app_id (JObj d') = Retry.find_steam_app_id (JObj d)) /\
  (forall index j d a,
     index !! x = Some j ->
     Retry.enriched_games a !! j = Some (JObj d) ->
     exists a' st' d',
       Retry.retry_step w index x a st = (Ok a', st') /\
       Retry.enriched_games a' !! j = Some (JObj d') /\
       (forall k, k <> j ->
          Retry.enriched_games a' !! k = Retry.enriched_games a !! k) /\
       length (Retry.enriched_games a') = length (Retry.enriched_games a) /\
       dict_get "steamInfo" d' = Some data /\
       (forall k, k <> "steamInfo" -> dict_get k d' = dict_get k d) /\
       Enrich.find_steam_app_id (JObj d') = Enrich.find_steam_app_id (JObj d) /\
       Retry.find_steam_app_id (JObj d') = Retry.find_steam_app_id (JObj d)).
Proof.
  intros Hs. split.
  - intros apps d a v Hf Hx Ha.
    rewrite (enrich_step_enriched _ _ _ _ _ _ _ _ Hf Hx Ha Hs).
    destruct (find_after_enrichment d data) as [He Hr].
    eexists _, _, (dict_set "steamInfo" data d).
    split; [reflexivity|]. split; [reflexivity|].
    split; [apply dict_get_set|].
    split; [intros k Hk; apply dict_get_set_other; exact Hk|].
    split; assumption.
  - intros index j d a Hx Hd.
    assert (Hs' : fst (Retry.get_steamspy_data w x st) = Some data)
      by (rewrite same_fetcher; exact Hs).
    rewrite (retry_step_enriched _ _ _ _ _ _ _ _ Hx Hs' Hd).
    destruct (find_after_enrichment d data) as [He Hr].
    eexists _, _, (dict_set "steamInfo" data d).
    split; [reflexivity|]. simpl.
    split; [apply list_lookup_insert_eq; eapply lookup_lt_Some; eauto|].
    split; [intros k Hk; apply list_lookup_insert_ne; congruence|].
    split; [apply length_insert|].
    split; [apply dict_get_set|].
    split; [intros k Hk; apply dict_get_set_other; exact Hk|].
    split; assumption.
Qed.

Lemma enrichment_keeps_the_record_witness :
  exists a' st' d',
    Retry.retry_step (world_status 200) (<[440 := 1%nat]> ∅) 440
      (Retry.Acc [tf2; JObj tf2_old_items] [] 0) fresh = (Ok a', st') /\
    Retry.enriched_games a' !! 1%nat = Some (JObj d') /\
    Retry.enriched_games a' !! 0%nat = Some tf2 /\
    dict_get "steamInfo" d'
    = Some (JObj [("appid", JInt 440); ("owners", JStr "1,000,000")]) /\
    dict_get "name" d' = Some (JStr "Team Fortress 2 (2007)").
Proof.
  destruct (enrichment_keeps_the_record (world_status 200) fresh 440
              (JObj [("appid", JInt 440); ("owners", JStr "1,000,000")])
              eq_refl) as [_ H].
  destruct (H (<[440 := 1%nat]> ∅) 1%nat tf2_old_items
              (Retry.Acc [tf2; JObj tf2_old_items] [] 0)
              (lookup_insert_eq _ _ _) eq_refl)
    as (a' & st' & d' & Hstep & Hj & Hk & _ & Hinfo & Hkeys & _).
  exists a', st', d'. split; [exact Hstep|]. split; [exact Hj|].
  split; [rewrite Hk by discriminate; reflexivity|].
  split; [exact Hinfo|].
  rewrite Hkeys by discriminate. reflexivity.
Defined.

(** ** Requests, delays and counters *)

Lemma enrich_step_requests w apps g a st :
  is_ok (Enrich.find_steam_app_id g) = true ->
  exists a' st' reqs f,
    Enrich.enrich_step w apps g a st = (Ok a', st') /\
    calls st' = calls st ++ reqs /\
    sleeps st' = (sleeps st + length reqs)%nat /\
    Enrich.failed_steam_ids a' = Enrich.failed_steam_ids a ++ f /\
    f `sublist_of` reqs /\
    (Enrich.steam_enriched_count a' + length f
     = Enrich.steam_enriched_count a + length reqs)%nat /\
    (length reqs <= 1)%nat /\
    Forall (fun x => x <> 0 /\ is_Some (apps !! x) /\
                     Enrich.find_steam_app_id g = Ok (Some x)) reqs.
Proof.
  intros Hok. destruct (Enrich.find_steam_app_id g) as [o|] eqn:Hf;
    [clear Hok | discriminate].
  assert (Hnone :
    Enrich.enrich_step w apps g a st =
    (Ok (Enrich.Acc (Enrich.enriched_games a ++ [g]) (Enrich.failed_steam_ids a)
                    (Enrich.steam_enriched_count a)), st) ->
    exists a' st' reqs f,
      Enrich.enrich_step w apps g a st = (Ok a', st') /\
      calls st' = calls st ++ reqs /\
      sleeps st' = (sleeps st + length reqs)%nat /\
      Enrich.failed_steam_ids a' = Enrich.failed_steam_ids a ++ f /\
      f `sublist_of` reqs /\
      (Enrich.steam_enriched_count a' + length f
       = Enrich.steam_enriched_count a + length reqs)%nat /\
      (length reqs <= 1)%nat /\
      Forall (fun x => x <> 0 /\ is_Some (apps !! x) /\ Ok o = Ok (Some x)) reqs).
  { intros ->. eexists _, _, [], []. simpl. rewrite !app_nil_r.
    split; [reflexivity|]; unfold sleep, record_call; simpl; split_ands;
          try reflexivity; try lia; constructor. }
  destruct (id_truthy o) as [x|] eqn:Ho.
  - apply id_truthy_nonzero in Ho as [-> Hx].
    destruct (apps !! x) as [v|] eqn:Ha.
    + assert (Hreq : Forall (fun y => y <> 0 /\ is_Some (apps !! y) /\
                                      Ok (Some x) = Ok (Some y)) [x]).
      { repeat constructor; [exact Hx | rewrite Ha; eauto]. }
      destruct (fst (Enrich.get_steamspy_data w x st)) as [data|] eqn:Hs.
      * destruct (enrich_find_obj _ _ Hf) as [d ->].
        rewrite (enrich_step_enriched _ _ _ _ _ _ _ _ Hf Hx Ha Hs).
        eexists _, _, [x], []. unfold sleep, record_call. simpl. rewrite app_nil_r.
        split; [reflexivity|]; unfold sleep, record_call; simpl; split_ands;
          try reflexivity; try lia; try assumption.
        apply sublist_nil_l.
      * rewrite (enrich_step_failed _ _ _ _ _ _ _ Hf Hx Ha Hs).
        eexists _, _, [x], [x]. unfold sleep, record_call. simpl.
        split; [reflexivity|]; unfold sleep, record_call; simpl; split_ands;
          try reflexivity; try lia; try assumption.
    + apply Hnone. apply (enrich_step_gated _ _ _ _ _ _ Hf).
      rewrite (id_truthy_some _ Hx). exact Ha.
  - apply Hnone. apply (enrich_step_gated _ _ _ _ _ _ Hf). rewrite Ho. exact I.
Qed.

Lemma enrich_loop_requests w apps games a st :
  Forall (fun g => is_ok (Enrich.find_steam_app_id g) = true) games ->
  exists a' st' reqs f,
    Enrich.enrich_loop w apps games a st = (Ok a', st') /\
    calls st' = calls st ++ reqs /\
    sleeps st' = (sleeps st + length reqs)%nat /\
    Enrich.failed_steam_ids a' = Enrich.failed_steam_ids a ++ f /\
    f `sublist_of` reqs /\
    (Enrich.steam_enriched_count a' + length f
     = Enrich.steam_enriched_count a + length reqs)%nat /\
    (length reqs <= length games)%nat /\
    Forall (fun x => x <> 0 /\ is_Some (apps !! x) /\
                     exists g, In g games /\
                               Enrich.find_steam_app_id g = Ok (Some x)) reqs.
Proof.
  intros H. revert a st. induction H as [|g games Hg _ IH]; intros a st.
  - exists a, st, [], []. simpl. rewrite !app_nil_r.
    split; [reflexivity|]; unfold sleep, record_call; simpl; split_ands;
          try reflexivity; try lia; constructor.
  - destruct (enrich_step_requests w apps g a st Hg)
      as (a1 & st1 & r1 & f1 & Hs & Hc1 & Hsl1 & Hf1 & Hsub1 & Hn1 & Hlen1 & Hr1).
    destruct (IH a1 st1)
      as (a2 & st2 & r2 & f2 & Hl & Hc2 & Hsl2 & Hf2 & Hsub2 & Hn2 & Hlen2 & Hr2).
    exists a2, st2, (r1 ++ r2), (f1 ++ f2). simpl. rewrite Hs.
    split; [exact Hl|].
    split; [rewrite Hc2, Hc1, app_assoc; reflexivity|].
    split; [rewrite Hsl2, Hsl1, length_app; lia|].
    split; [rewrite Hf2, Hf1, app_assoc; reflexivity|].
    split; [apply sublist_app; assumption|].
    split; [rewrite !length_app; lia|].
    split; [rewrite length_app; lia|].
    apply Forall_app. split.
    + eapply Forall_impl; [exact Hr1|]. intros x (? & ? & ?).
      repeat split; try assumption. exists g. split; [left; reflexivity | assumption].
    + eapply Forall_impl; [exact Hr2|]. intros x (? & ? & g' & ? & ?).
      repeat split; try assumption. exists g'. split; [right; assumption | assumption].
Qed.







Lemma retry_step_requests w index x a st :
  index_valid index (Retry.enriched_games a) ->
  exists a' st' s,
    Retry.retry_step w index x a st = (Ok a', st') /\
    index_valid index (Retry.enriched_games a') /\
    calls st' = calls st ++ filter (fun y => is_Some (index !! y)) [x] /\
    sleeps st' = (sleeps st + length (filter (fun y => is_Some (index !! y)) [x]))%nat /\
    Retry.still_failed a' = Retry.still_failed a ++ s /\
    s `sublist_of` [x] /\
    (Retry.success_count a' + length s = Retry.success_count a + 1)%nat.
Proof.
  intros Hv. destruct (index !! x) as [j|] eqn:Hx.
  - assert (Hfil : filter (fun y => is_Some (index !! y)) [x] = [x]).
    { rewrite filter_cons_True by (rewrite Hx; eauto). reflexivity. }
    rewrite Hfil.
    destruct (fst (Retry.get_steamspy_data w x st)) as [data|] eqn:Hs.
    + destruct (Hv x j Hx) as [d Hd].
      rewrite (retry_step_enriched _ _ _ _ _ _ _ _ Hx Hs Hd).
      eexists _, _, []. unfold sleep, record_call. simpl. rewrite app_nil_r.
      split; [reflexivity|]; unfold sleep, record_call; simpl; split_ands;
          try reflexivity; try lia.
      * apply index_valid_insert. exact Hv.
      * apply sublist_nil_l.
    + rewrite (retry_step_failed _ _ _ _ _ _ Hx Hs).
      eexists _, _, [x]. unfold sleep, record_call. simpl.
      split; [reflexivity|]; unfold sleep, record_call; simpl; split_ands;
          try reflexivity; try lia; try assumption.
  - assert (Hfil : filter (fun y => is_Some (index !! y)) [x] = []).
    { rewrite filter_cons_False; [reflexivity|].
      rewrite Hx. intros [? ?]. discriminate. }
    rewrite Hfil.
    rewrite (retry_step_missing _ _ _ _ _ Hx).
    eexists _, _, [x]. simpl. rewrite app_nil_r.
    split; [reflexivity|]; unfold sleep, record_call; simpl; split_ands;
          try reflexivity; try lia; try assumption.
Qed.

Lemma retry_loop_requests w index l a st :
  index_valid index (Retry.enriched_games a) ->
  exists a' st' s,
    Retry.retry_loop w index l a st = (Ok a', st') /\
    calls st' = calls st ++ filter (fun y => is_Some (index !! y)) l /\
    sleeps st' = (sleeps st + length (filter (fun y => is_Some (index !! y)) l))%nat /\
    Retry.still_failed a' = Retry.still_failed a ++ s /\
    s `sublist_of` l /\
    (Retry.success_count a' + length s = Retry.success_count a + length l)%nat.
Proof.
  revert a st. induction l as [|x l IH]; intros a st Hv.
  - exists a, st, []. simpl. rewrite !app_nil_r.
    split; [reflexivity|]; unfold sleep, record_call; simpl; split_ands;
          try reflexivity; try lia; try constructor.
  - destruct (retry_step_requests w index x a st Hv)
      as (a1 & st1 & s1 & Hs & Hv1 & Hc1 & Hsl1 & Hst1 & Hsub1 & Hn1).
    destruct (IH a1 st1 Hv1)
      as (a2 & st2 & s2 & Hl & Hc2 & Hsl2 & Hst2 & Hsub2 & Hn2).
    exists a2, st2, (s1 ++ s2).
    change (x :: l) with ([x] ++ l). rewrite filter_app.
    rewrite retry_loop_app. simpl Retry.retry_loop at 1. rewrite Hs.
    split; [exact Hl|].
    split; [rewrite Hc2, Hc1, app_assoc; reflexivity|].
    split; [rewrite Hsl2, Hsl1, length_app; lia|].
    split; [rewrite Hst2, Hst1, app_assoc; reflexivity|].
    split; [apply sublist_app; assumption|].
    rewrite !length_app. simpl. lia.
Qed.

(** [retry] requests exactly the identifiers of the failure list that are
    keys of the lookup, in the order of the list, with one pacing delay per
    request; still-failed is a subsequence of the failure list; and the
    number of identifiers no longer failing (what [main] prints as "Now
    successful") is the number of successful fetches. *)
Theorem retry_request_accounting w failed games st index :
  Retry.build_index games 0 ∅ = Ok index ->
  exists games' still st' successes,
    Retry.retry_failed_fetches w failed games st = (Ok (games', still), st') /\
    Retry.retry_loop w index failed (Retry.Acc games [] 0) st
    = (Ok (Retry.Acc games' still successes), st') /\
    calls st' = calls st ++ filter (fun y => is_Some (index !! y)) failed /\
    sleeps st' = (sleeps st + length (filter (fun y => is_Some (index !! y)) failed))%nat /\
    still `sublist_of` failed /\
    (successes + length still = length failed)%nat.
Proof.
  intros Hb. pose proof (index_valid_initial _ _ Hb) as Hv.
  destruct (retry_loop_requests w index failed (Retry.Acc games [] 0) st Hv)
    as ([games' still successes] & st' & s & Hl & Hc & Hs & Hst & Hsub & Hn).
  simpl in *. subst s.
  exists games', still, st', successes.
  split; [exact (retry_after_loop _ _ _ _ _ _ _ Hb Hl)|]. auto.
Qed.

Lemma retry_request_accounting_witness :
  exists games' still st' successes,
    Retry.retry_failed_fetches (world_status 200) [7; 440; 440] [tf2] fresh
    = (Ok (games', still), st') /\
    Retry.retry_loop (world_status 200) (<[440 := 0%nat]> ∅) [7; 440; 440]
                     (Retry.Acc [tf2] [] 0) fresh
    = (Ok (Retry.Acc games' still successes), st') /\
    still `sublist_of` [7; 440; 440] /\
    (successes + length still = 3)%nat.
Proof.
  destruct (retry_request_accounting (world_status 200) [7; 440; 440] [tf2]
              fresh (<[440 := 0%nat]> ∅) eq_refl)
    as (games' & still & st' & successes & Hr & Hl & _ & _ & Hsub & Hn).
  exists games', still, st', successes. auto.
Defined.

(** ** Retry after retry, retry after enrichment *)




Lemma same_or_enriched_find g g' :
  same_or_enriched g g' ->
  Retry.find_steam_app_id g' = Retry.find_steam_app_id g.
Proof.
  intros [-> | (d & data & -> & ->)]; [reflexivity|].
  apply find_after_enrichment.
Qed.

Lemma build_index_ext gs gs' :
  Forall2 (fun g g' => Retry.find_steam_app_id g' = Retry.find_steam_app_id g)
          gs gs' ->
  forall i m, Retry.build_index gs' i m = Retry.build_index gs i m.
Proof.
  induction 1 as [|g g' gs gs' Hg _ IH]; intros i m; [reflexivity|].
  simpl. rewrite Hg. destruct (Retry.find_steam_app_id g) as [o|]; [|reflexivity].
  simpl. destruct (id_truthy o); apply IH.
Qed.

Lemma retry_records_same_or_enriched w index games l st a st' :
  index_valid index games ->
  Retry.retry_loop w index l (Retry.Acc games [] 0) st = (Ok a, st') ->
  Forall2 same_or_enriched games (Retry.enriched_games a).
Proof.
  intros Hv Hl.
  destruct (retry_loop_total w index l (Retry.Acc games [] 0) st Hv)
    as (a' & st'' & s & Hl' & _ & Hlen & _).
  rewrite Hl in Hl'. inversion Hl'; subst a' st''. simpl in Hlen.
  apply Forall2_same_length_lookup_2; [symmetry; exact Hlen|].
  intros j g g' Hg Hg'.
  destruct (retry_record_history w index games l st Hv a st' Hl j g Hg)
    as [Hsame | (x & d & data & pre & post & a1 & st1 & -> & _ & _ & _ & _ & Hj)].
  - left. congruence.
  - right. exists d, data. split; [reflexivity | congruence].
Qed.

(** [retry] keeps the dataset in step with its lookup: the dataset it
    returns has the length of the one it received, each record is the record
    it was or that record with the enrichment field set, and the lookup built
    from the returned dataset is the lookup it was built from, so a later
    [retry] finds every identifier at the same position. *)
Theorem retry_keeps_lookup w failed games st index :
  Retry.build_index games 0 ∅ = Ok index ->
  exists games' still st',
    Retry.retry_failed_fetches w failed games st = (Ok (games', still), st') /\
    length games' = length games /\
    Forall2 same_or_enriched games games' /\
    Retry.build_index games' 0 ∅ = Ok index.
Proof.
  intros Hb. pose proof (index_valid_initial _ _ Hb) as Hv.
  destruct (retry_loop_total w index failed (Retry.Acc games [] 0) st Hv)
    as (a & st' & s & Hl & _ & Hlen & _).
  pose proof (retry_records_same_or_enriched _ _ _ _ _ _ _ Hv Hl) as Hrec.
  exists (Retry.enriched_games a), (Retry.still_failed a), st'.
  split; [exact (retry_after_loop _ _ _ _ _ _ _ Hb Hl)|].
  split; [exact Hlen|]. split; [exact Hrec|].
  rewrite <- Hb. apply build_index_ext.
  eapply Forall2_impl; [exact Hrec|]. apply same_or_enriched_find.
Qed.

Lemma retry_keeps_lookup_witness :
  exists games' still st',
    Retry.retry_failed_fetches (world_status 200) [440]
                               [JObj tf2_old_items; tf2] fresh
    = (Ok (games', still), st') /\
    length games' = 2%nat /\
    Forall2 same_or_enriched [JObj tf2_old_items; tf2] games' /\
    Retry.build_index games' 0 ∅ = Ok (<[440 := 1%nat]> ∅).
Proof.
  apply (retry_keeps_lookup (world_status 200) [440]
           [JObj tf2_old_items; tf2] fresh (<[440 := 1%nat]> ∅)).
  reflexivity.
Defined.

(** Every record whose identifier is not 0 has its identifier among the
    keys of the lookup, and the keys of the initial map stay. *)
Lemma build_index_complete games i m index :
  Retry.build_index games i m = Ok index ->
  (forall x, is_Some (m !! x) -> is_Some (index !! x)) /\
  (forall g x, In g games -> Retry.find_steam_app_id g = Ok (Some x) ->
               x <> 0 -> is_Some (index !! x)).
Proof.
  revert i m. induction games as [|g0 rest IH]; intros i m Hb.
  - simpl in Hb. inversion Hb; subst. split; [auto | intros g x []].
  - simpl in Hb.
    destruct (Retry.find_steam_app_id g0) as [o|] eqn:Hf; [|discriminate].
    simpl in Hb. destruct (id_truthy o) as [id|] eqn:Ho.
    + destruct (IH _ _ Hb) as [Hm Hr].
      apply id_truthy_nonzero in Ho as [-> Hid]. split.
      * intros x Hx. apply Hm. rewrite lookup_insert_is_Some.
        destruct (decide (id = x)); auto.
      * intros g x [<- | Hin] Hg Hx.
        -- rewrite Hf in Hg. inversion Hg; subst x.
           apply Hm. rewrite lookup_insert_eq. eauto.
        -- eapply Hr; eauto.
    + destruct (IH _ _ Hb) as [Hm Hr]. split; [exact Hm|].
      intros g x [<- | Hin] Hg Hx.
      * rewrite Hf in Hg. inversion Hg; subst o.
        rewrite (id_truthy_some _ Hx) in Ho. discriminate.
      * eapply Hr; eauto.
Qed.

Lemma Forall2_In_l {A B} (P : A -> B -> Prop) l k x :
  Forall2 P l k -> In x l -> exists y, In y k /\ P x y.
Proof.
  induction 1 as [|a b l k Hab _ IH]; intros Hin; [destruct Hin|].
  destruct Hin as [<- | Hin].
  - exists b. split; [left; reflexivity | exact Hab].
  - destruct (IH Hin) as (y & Hy & Hxy). exists y. split; [right|]; assumption.
Qed.

Lemma Forall2_In_r {A B} (P : A -> B -> Prop) l k y :
  Forall2 P l k -> In y k -> exists x, In x l /\ P x y.
Proof.
  induction 1 as [|a b l k Hab _ IH]; intros Hin; [destruct Hin|].
  destruct Hin as [<- | Hin].
  - exists a. split; [left; reflexivity | exact Hab].
  - destruct (IH Hin) as (x & Hx & Hxy). exists x. split; [right|]; assumption.
Qed.

(** Enrichment and retry fit together: on records the extractor accepts,
    the dataset the enrichment function returns is one the retry lookup can
    be built from, every identifier of the failure list the enrichment loop
    accumulates is a key of that lookup, and a retry of that list on that
    dataset requests each of these identifiers again, in the order of the
    list, none being set aside as unknown. *)
Theorem enrich_failures_are_retried w games apps st :
  Forall (fun g => is_ok (Enrich.find_steam_app_id g) = true) games ->
  writable w failed_file = true ->
  exists a st1 st' index,
    Enrich.enrich_loop w apps games (Enrich.Acc [] [] 0) st = (Ok a, st1) /\
    Enrich.enrich_igdb_with_steam_data w games apps st
    = (Ok (Enrich.enriched_games a), st') /\
    Retry.build_index (Enrich.enriched_games a) 0 ∅ = Ok index /\
    (forall x, In x (Enrich.failed_steam_ids a) -> is_Some (index !! x)) /\
    (forall w2 st2, exists games' still st3,
        Retry.retry_failed_fetches w2 (Enrich.failed_steam_ids a)
                                   (Enrich.enriched_games a) st2
        = (Ok (games', still), st3) /\
        calls st3 = calls st2 ++ Enrich.failed_steam_ids a).
Proof.
  intros Hg Hw.
  destruct (enrich_loop_total w apps games (Enrich.Acc [] [] 0) st Hg)
    as (a & st1 & outs & f & Hl & Ho & Hrec & _).
  simpl in Ho. subst outs.
  destruct (enrich_loop_requests w apps games (Enrich.Acc [] [] 0) st Hg)
    as (a' & st1' & reqs & f' & Hl' & _ & _ & Hf' & Hsub & _ & _ & Hreqs).
  rewrite Hl in Hl'. inversion Hl'; subst a' st1'; clear Hl'.
  simpl in Hf'. subst f'.
  destruct (enrich_after_loop _ _ _ _ _ _ Hl Hw) as (st' & He & _).
  assert (Hout : Forall (fun g' => is_ok (Retry.find_steam_app_id g') = true)
                        (Enrich.enriched_games a)).
  { apply List.Forall_forall. intros g' Hin.
    destruct (Forall2_In_r _ _ _ _ Hrec Hin) as (g & Hgin & Hs).
    rewrite (same_or_enriched_find _ _ Hs).
    pose proof (proj1 (List.Forall_forall _ _) Hg g Hgin) as Hok.
    simpl in Hok.
    destruct (Enrich.find_steam_app_id g) as [o|] eqn:Hfind;
      [|discriminate Hok].
    rewrite (find_agree _ _ Hfind). reflexivity. }
  destruct (build_index_total _ 0%nat ∅ Hout) as [index Hb].
  assert (Hkeys : forall x, In x (Enrich.failed_steam_ids a) ->
                            is_Some (index !! x)).
  { intros x Hx.
    assert (Hxr : x ∈ reqs).
    { eapply elem_of_sublist; [|exact Hsub]. apply list_elem_of_In. exact Hx. }
    pose proof (proj1 (Forall_forall _ _) Hreqs x Hxr)
      as (Hx0 & _ & g & Hgin & Hfind).
    destruct (Forall2_In_l _ _ _ _ Hrec Hgin) as (g' & Hg'in & Hs).
    apply (proj2 (build_index_complete _ _ _ _ Hb) g' x Hg'in); [|exact Hx0].
    rewrite (same_or_enriched_find _ _ Hs). apply find_agree. exact Hfind. }
  exists a, st1, st', index.
  split; [exact Hl|]. split; [exact He|]. split; [exact Hb|].
  split; [exact Hkeys|].
  intros w2 st2. pose proof (index_valid_initial _ _ Hb) as Hv.
  destruct (retry_loop_requests w2 index (Enrich.failed_steam_ids a)
              (Retry.Acc (Enrich.enriched_games a) [] 0) st2 Hv)
    as (a2 & st3 & s & Hl2 & Hc & _).
  exists (Retry.enriched_games a2), (Retry.still_failed a2), st3.
  split; [exact (retry_after_loop _ _ _ _ _ _ _ Hb Hl2)|].
  rewrite Hc. f_equal.
  clear -Hkeys. induction (Enrich.failed_steam_ids a) as [|x l IH];
    [reflexivity|].
  rewrite filter_cons_True by (apply Hkeys; left; reflexivity).
  f_equal. apply IH. intros y Hy. apply Hkeys. right. exact Hy.
Qed.

Lemma enrich_failures_are_retried_witness :
  exists a st1 st' index,
    Enrich.enrich_loop world_down steam_apps [tf2; JObj []; tf2]
                       (Enrich.Acc [] [] 0) fresh = (Ok a, st1) /\
    Enrich.enrich_igdb_with_steam_data world_down [tf2; JObj []; tf2]
                                       steam_apps fresh
    = (Ok (Enrich.enriched_games a), st') /\
    Retry.build_index (Enrich.enriched_games a) 0 ∅ = Ok index /\
    (forall x, In x (Enrich.failed_steam_ids a) -> is_Some (index !! x)) /\
    (forall w2 st2, exists games' still st3,
        Retry.retry_failed_fetches w2 (Enrich.failed_steam_ids a)
                                   (Enrich.enriched_games a) st2
        = (Ok (games', still), st3) /\
        calls st3 = calls st2 ++ Enrich.failed_steam_ids a).
Proof.
  apply (enrich_failures_are_retried world_down [tf2; JObj []; tf2]
           steam_apps fresh).
  - repeat constructor.
  - reflexivity.
Defined.



(** ** The catalog fetcher *)

Lemma fetch_loop_catalog e db max_games batch_size :
  serves_catalog e db -> 1 <= batch_size ->
  forall fuel offset st,
    0 <= offset -> (Z.to_nat offset <= length db)%nat ->
    match max_games with Some m => offset <= Z.max m 0 | None => True end ->
    (length db - Z.to_nat offset < fuel)%nat ->
    exists st',
      Fetch.fetch_loop e fuel max_games batch_size
                       (take (Z.to_nat offset) db) offset st
      = Some (Returns (match max_games with
                       | Some m => take (Z.to_nat m) db
                       | None => db
                       end), st') /\
      Fetch.written st' = Fetch.written st /\
      Fetch.igdb_games_doc st' = Fetch.igdb_games_doc st.
Proof.
  intros Hserve Hbs. induction fuel as [|fuel IH]; intros offset st Hoff Hle Hmax Hfuel;
    [lia|].
  cbn [Fetch.fetch_loop].
  assert (Hlen : Z.of_nat (length (take (Z.to_nat offset) db)) = offset).
  { rewrite length_take_le by exact Hle. lia. }
  rewrite Hlen.
  destruct (match max_games with Some m => m <=? offset | None => false end)
    eqn:Hguard.
  { destruct max_games as [m|]; [|discriminate].
    apply Z.leb_le in Hguard. exists st. split; [|auto].
    do 3 f_equal. f_equal. lia. }
  set (current := match max_games with
                  | Some m => Z.min batch_size (m - offset)
                  | None => batch_size
                  end).
  assert (Hcur : 1 <= current).
  { unfold current. destruct max_games as [m|]; [|exact Hbs].
    apply Z.leb_gt in Hguard. lia. }
  assert (Hcurmax : match max_games with
                    | Some m => offset + current <= m
                    | None => True
                    end).
  { unfold current. destruct max_games as [m|]; [lia | exact I]. }
  destruct (batch_size =? 0) eqn:Hz; [apply Z.eqb_eq in Hz; lia|].
  unfold Fetch.make_api_request.
  destruct (Hserve (Fetch.queries st) current offset) as [status ->]; [lia..|].
  set (n := Z.to_nat offset) in *. set (c := Z.to_nat current).
  set (st1 := Fetch.Store _ _ _ _).
  assert (Hc : (1 <= c)%nat) by (unfold c; lia).
  destruct (take c (drop n db)) as [|g batch] eqn:Hbatch.
  - (* nothing left *)
    simpl. exists st1. split; [|split; reflexivity].
    assert (Hdrop : length (take c (drop n db)) = 0%nat) by (rewrite Hbatch; reflexivity).
    rewrite length_take, length_drop in Hdrop.
    assert (Hn : n = length db) by lia.
    do 3 f_equal. rewrite Hn, firstn_all.
    destruct max_games as [m|]; [|reflexivity].
    apply Z.leb_gt in Hguard. symmetry. apply take_ge. unfold n in Hn. lia.
  - cbn [py_truthy negb py_iter]. rewrite <- Hbatch. clear g batch Hbatch.
    rewrite take_take_drop.
    assert (Hblen : length (take c (drop n db)) = Nat.min c (length db - n))
      by (rewrite length_take, length_drop; reflexivity).
    destruct (Z.of_nat (length (take c (drop n db))) <? current) eqn:Hshort.
    + apply Z.ltb_lt in Hshort. exists (Fetch.pause st1).
      split; [|split; reflexivity].
      assert (Hall : (length db <= n + c)%nat) by (unfold c in *; lia).
      do 3 f_equal. rewrite (take_ge db (n + c)) by exact Hall.
      destruct max_games as [m|]; [|reflexivity].
      symmetry. apply take_ge. unfold n, c in *. lia.
    + apply Z.ltb_ge in Hshort.
      assert (Hroom : (n + c <= length db)%nat) by (unfold c in *; lia).
      assert (Hnext : Z.to_nat (offset + current) = (n + c)%nat)
        by (unfold n, c; lia).
      rewrite <- Hnext.
      destruct (IH (offset + current) (Fetch.pause st1)) as (st' & Hrun & Hw & Hd).
      * lia.
      * lia.
      * destruct max_games as [m|]; [lia | exact I].
      * lia.
      * exists st'. split; [exact Hrun|]. split; assumption.
Qed.

(** Pagination against a service that serves a catalog: with an access
    token, a batch size of at least 1 and enough iterations, [fetch_games]
    returns the catalog itself, or its first [max_games] games when a
    maximum is given, each game once and in catalog order; it writes
    nothing. *)
Theorem fetch_games_reassembles_catalog e db token max_games batch_size fuel st :
  serves_catalog e db ->
  token <> "" ->
  1 <= batch_size ->
  (length db < fuel)%nat ->
  exists st',
    Fetch.fetch_games e (Some token) fuel max_games batch_size st
    = Some (Returns (match max_games with
                     | Some m => take (Z.to_nat m) db
                     | None => db
                     end), st') /\
    Fetch.written st' = Fetch.written st /\
    Fetch.igdb_games_doc st' = Fetch.igdb_games_doc st.
Proof.
  intros Hserve Htok Hbs Hfuel. unfold Fetch.fetch_games.
  destruct token as [|c token]; [contradiction|].
  apply (fetch_loop_catalog e db max_games (Z.min batch_size 500) Hserve
           ltac:(lia) fuel 0 st); simpl; try lia.
  destruct max_games; [lia | exact I].
Qed.

Lemma fetch_games_reassembles_catalog_witness :
  exists st',
    Fetch.fetch_games (catalog_env seven_games) (Some "token") 8 (Some 5) 2
                      empty_store
    = Some (Returns (take (Z.to_nat 5) seven_games), st') /\
    Fetch.written st' = Fetch.written empty_store /\
    Fetch.igdb_games_doc st' = Fetch.igdb_games_doc empty_store.
Proof.
  apply (fetch_games_reassembles_catalog (catalog_env seven_games) seven_games
           "token" (Some 5) 2 8 empty_store).
  - intros history limit offset _ _. exists 200. reflexivity.
  - discriminate.
  - lia.
  - simpl. lia.
Defined.

(** A service that serves slices of a catalog honours the limit. *)
Lemma catalog_honours_limit db : honours_limit (catalog_env db).
Proof.
  intros history limit offset status v items Hpos Hnet Hit.
  simpl in Hnet. inversion Hnet; subst. simpl in Hit. inversion Hit; subst.
  rewrite length_take. lia.
Qed.

Lemma fetch_loop_bounded e m batch_size :
  1 <= batch_size <= 500 ->
  forall fuel all_games offset st,
    (Z.to_nat m - length all_games < fuel)%nat ->
    exists r st' qs,
      Fetch.fetch_loop e fuel (Some m) batch_size all_games offset st
      = Some (r, st') /\
      Fetch.queries st' = Fetch.queries st ++ qs /\
      (length qs <= Z.to_nat m - length all_games)%nat /\
      Forall (fun q => 1 <= fst q <= 500 /\ fst q <= m) qs /\
      (honours_limit e -> Z.of_nat (length all_games) <= Z.max m 0 ->
       forall games, r = Returns games ->
                     Z.of_nat (length games) <= Z.max m 0).
Proof.
  intros Hbs. induction fuel as [|fuel IH]; intros all_games offset st Hfuel;
    [lia|].
  cbn [Fetch.fetch_loop].
  destruct (m <=? Z.of_nat (length all_games)) eqn:Hguard.
  { exists (Returns all_games), st, []. rewrite app_nil_r.
    repeat split; try constructor; try (simpl; lia).
    intros _ Hlen games Hr. inversion Hr; subst. exact Hlen. }
  apply Z.leb_gt in Hguard.
  set (current := Z.min batch_size (m - Z.of_nat (length all_games))).
  assert (Hcur : 1 <= current <= 500 /\ current <= m) by (unfold current; lia).
  destruct (batch_size =? 0) eqn:Hz; [apply Z.eqb_eq in Hz; lia|].
  assert (Hq : Forall (fun q : Z * Z => 1 <= fst q <= 500 /\ fst q <= m)
                      [(current, offset)]).
  { repeat constructor; simpl; lia. }
  assert (Hone : (length [(current, offset)] <= Z.to_nat m - length all_games)%nat)
    by (simpl; lia).
  unfold Fetch.make_api_request.
  destruct (Fetch.igdb e (Fetch.queries st) current offset)
    as [|status [v|]] eqn:Hnet.
  - eexists _, _, [(current, offset)]. split; [reflexivity|].
    repeat split; try assumption. discriminate.
  - destruct (py_truthy v) eqn:Ht; cbn [negb].
    + destruct (py_iter v) as [items|x] eqn:Hit.
      * destruct (Z.of_nat (length items) <? current) eqn:Hshort.
        -- eexists _, _, [(current, offset)]. split; [reflexivity|].
           repeat split; try assumption.
           intros Hlim Hlen games Hr. inversion Hr; subst games.
           pose proof (Hlim _ _ _ _ _ _ (proj1 (proj1 Hcur)) Hnet Hit).
           rewrite length_app. lia.
        -- apply Z.ltb_ge in Hshort.
           match goal with
           | |- context [Fetch.fetch_loop e fuel (Some m) batch_size ?a ?o ?s] =>
               destruct (IH a o s) as (r & st' & qs & Hrun & Hqs & Hn & Hall & Hres)
           end.
           { rewrite length_app. lia. }
           exists r, st', ((current, offset) :: qs). split; [exact Hrun|].
           split; [rewrite Hqs; simpl; rewrite <- app_assoc; reflexivity|].
           split; [rewrite length_app in Hn; simpl; lia|].
           split; [constructor; [simpl; lia | exact Hall]|].
           intros Hlim Hlen games Hr. apply (Hres Hlim); [|exact Hr].
           pose proof (Hlim _ _ _ _ _ _ (proj1 (proj1 Hcur)) Hnet Hit).
           rewrite length_app. lia.
      * eexists _, _, [(current, offset)]. split; [reflexivity|].
        repeat split; try assumption. discriminate.
    + eexists _, _, [(current, offset)]. split; [reflexivity|].
      repeat split; try assumption.
      intros _ Hlen games Hr. inversion Hr; subst. exact Hlen.
  - eexists _, _, [(current, offset)]. split; [reflexivity|].
    repeat split; try assumption. discriminate.
Qed.

(** With a maximum [m] and a batch size of at least 1, [fetch_games] ends
    within [m + 1] iterations whatever the service answers; it posts at most
    [m] queries, each with a limit between 1 and 500 and at most [m]; and
    when the service never answers a query whose limit is at least 1 with
    more items than the limit asked for, it returns at most [m] games. *)
Theorem fetch_games_bounded_by_max_games e token m batch_size st :
  1 <= batch_size ->
  exists r st' qs,
    Fetch.fetch_games e token (S (Z.to_nat m)) (Some m) batch_size st
    = Some (r, st') /\
    Fetch.queries st' = Fetch.queries st ++ qs /\
    (length qs <= Z.to_nat m)%nat /\
    Forall (fun q => 1 <= fst q <= 500 /\ fst q <= m) qs /\
    (honours_limit e ->
     forall games, r = Returns games -> Z.of_nat (length games) <= Z.max m 0).
Proof.
  intros Hbs. unfold Fetch.fetch_games.
  assert (Hidle : exists r st' qs,
    Some (Returns (@nil json), st) = Some (r, st') /\
    Fetch.queries st' = Fetch.queries st ++ qs /\
    (length qs <= Z.to_nat m)%nat /\
    Forall (fun q : Z * Z => 1 <= fst q <= 500 /\ fst q <= m) qs /\
    (honours_limit e ->
     forall games, r = Returns games -> Z.of_nat (length games) <= Z.max m 0)).
  { exists (Returns []), st, []. rewrite app_nil_r.
    repeat split; try constructor; try (simpl; lia).
    intros _ games Hr. inversion Hr; subst. simpl. lia. }
  destruct token as [[|c token]|]; try exact Hidle.
  destruct (fetch_loop_bounded e m (Z.min batch_size 500) ltac:(lia)
              (S (Z.to_nat m)) [] 0 st ltac:(simpl; lia))
    as (r & st' & qs & Hrun & Hqs & Hn & Hall & Hres).
  exists r, st', qs. split; [exact Hrun|]. split; [exact Hqs|].
  split; [simpl in Hn; lia|]. split; [exact Hall|].
  intros Hlim. apply Hres; [exact Hlim | simpl; lia].
Qed.

Lemma fetch_games_bounded_by_max_games_witness :
  exists r st' qs,
    Fetch.fetch_games (catalog_env seven_games) (Some "token")
                      (S (Z.to_nat 3)) (Some 3) 1000 empty_store
    = Some (r, st') /\
    Fetch.queries st' = Fetch.queries empty_store ++ qs /\
    (length qs <= Z.to_nat 3)%nat /\
    Forall (fun q => 1 <= fst q <= 500 /\ fst q <= 3) qs /\
    forall games, r = Returns games -> Z.of_nat (length games) <= Z.max 3 0.
Proof.
  destruct (fetch_games_bounded_by_max_games
              (catalog_env seven_games) (Some "token") 3 1000
              empty_store ltac:(lia))
    as (r & st' & qs & H1 & H2 & H3 & H4 & H5).
  exists r, st', qs. split_ands; try assumption.
  apply H5. exact (catalog_honours_limit seven_games).
Defined.



(** [fetch_games] looks neither at the status of a response nor at the
    kind of its payload: when the first answer is a non-empty JSON object
    with fewer keys than the batch size (an error message, say), the keys of
    that object are returned as the games, after one query and one delay. *)
Theorem fetch_games_takes_an_error_object e token fuel batch_size st status d :
  token <> "" ->
  1 <= batch_size ->
  Fetch.igdb e (Fetch.queries st) (Z.min batch_size 500) 0
  = Response status (Some (JObj d)) ->
  d <> [] ->
  Z.of_nat (length d) < Z.min batch_size 500 ->
  Fetch.fetch_games e (Some token) (S fuel) None batch_size st
  = Some (Returns (map (fun kv => JStr (fst kv)) d),
          Fetch.Store (Fetch.queries st ++ [(Z.min batch_size 500, 0)])
                      (S (Fetch.pauses st)) (Fetch.igdb_games_doc st)
                      (Fetch.written st)).
Proof.
  intros Htok Hbs Hnet Hd Hlen. destruct token as [|c token]; [contradiction|].
  unfold Fetch.fetch_games. cbn [Fetch.fetch_loop].
  destruct (Z.min batch_size 500 =? 0) eqn:Hz; [apply Z.eqb_eq in Hz; lia|].
  unfold Fetch.make_api_request. rewrite Hnet.
  destruct d as [|kv d]; [contradiction|].
  cbn [py_truthy negb py_iter]. rewrite length_map.
  apply Z.ltb_lt in Hlen. rewrite Hlen. reflexivity.
Qed.

Lemma fetch_games_takes_an_error_object_witness :
  Fetch.fetch_games
    (constant_env 401 (JObj [("message", JStr "Authorization Failure")]))
    (Some "expired") 1 None 500 empty_store
  = Some (Returns [JStr "message"], Fetch.Store [(500, 0)] 1 None []).
Proof.
  apply (fetch_games_takes_an_error_object
           (constant_env 401 (JObj [("message", JStr "Authorization Failure")]))
           "expired" 0 500 empty_store 401
           [("message", JStr "Authorization Failure")]);
    try reflexivity; try discriminate; try lia.
Defined.

Lemma log_sample_cases games :
  Fetch.log_sample games = Ok tt \/ exists x, Fetch.log_sample games = Raise x.
Proof.
  destruct (Fetch.log_sample games) as [[]|x]; eauto.
Qed.

Lemma fetch_loop_no_write e :
  forall fuel max_games batch_size all_games offset st r st',
    Fetch.fetch_loop e fuel max_games batch_size all_games offset st
    = Some (r, st') ->
    Fetch.written st' = Fetch.written st /\
    Fetch.igdb_games_doc st' = Fetch.igdb_games_doc st.
Proof.
  induction fuel as [|fuel IH];
    intros max_games batch_size all_games offset st r st' H; [discriminate|].
  cbn [Fetch.fetch_loop] in H.
  destruct (match max_games with
            | Some m => m <=? Z.of_nat (length all_games)
            | None => false
            end); [inversion H; subst; auto|].
  destruct (batch_size =? 0); [inversion H; subst; auto|].
  unfold Fetch.make_api_request in H.
  destruct (Fetch.igdb e (Fetch.queries st) _ offset) as [|status [v|]];
    try (inversion H; subst; auto; fail).
  destruct (py_truthy v); cbn [negb] in H; [|inversion H; subst; auto].
  destruct (py_iter v) as [items|x]; [|inversion H; subst; auto].
  destruct (Z.of_nat (length items) <? _); [inversion H; subst; auto|].
  apply IH in H. simpl in H. exact H.
Qed.

(** [main] of the fetch script writes the catalog document only after
    [fetch_games] has returned a non-empty list, and then writes that list:
    when the fetch raises, at whatever page, or returns nothing, the document
    on disk is left as it was. *)
Theorem fetch_main_writes_only_a_fetched_catalog e token fuel st caught st' :
  Fetch.main e token fuel st = Some (caught, st') ->
  (Fetch.written st' = Fetch.written st /\
   Fetch.igdb_games_doc st' = Fetch.igdb_games_doc st) \/
  (exists games st1,
     Fetch.fetch_games e token fuel None 500 st = Some (Returns games, st1) /\
     games <> [] /\
     Fetch.written st' = Fetch.written st ++ [Fetch.igdb_games_file] /\
     Fetch.igdb_games_doc st' = Some games).
Proof.
  unfold Fetch.main.
  destruct (Fetch.fetch_games e token fuel None 500 st) as [[r st1]|] eqn:Hf;
    [|discriminate].
  assert (Hnw : Fetch.written st1 = Fetch.written st /\
                Fetch.igdb_games_doc st1 = Fetch.igdb_games_doc st).
  { unfold Fetch.fetch_games in Hf.
    destruct token as [[|c token]|];
      try (inversion Hf; subst; auto; fail).
    eapply fetch_loop_no_write; eauto. }
  destruct r as [games|x]; [|intros H; inversion H; subst; auto].
  destruct games as [|g games]; [intros H; inversion H; subst; auto|].
  unfold Fetch.save_to_json.
  destruct (Fetch.can_write e Fetch.igdb_games_file) eqn:Hw.
  - intros H. right. exists (g :: games), st1.
    split; [reflexivity|]. split; [discriminate|].
    destruct Hnw as [Hw1 _].
    destruct (log_sample_cases (g :: games)) as [Hl | [x Hl]];
      rewrite Hl in H; inversion H; subst; simpl; rewrite Hw1; auto.
  - intros H. left.
    destruct (log_sample_cases (g :: games)) as [Hl | [x Hl]];
      rewrite Hl in H; inversion H; subst; auto.
Qed.

Lemma fetch_main_writes_only_a_fetched_catalog_witness :
  Fetch.main (constant_env 500 (JInt 7)) (Some "token") 2 empty_store
  = Some (true, Fetch.Store [(500, 0)] 0 None []) /\
  (Fetch.written (Fetch.Store [(500, 0)] 0 None []) = Fetch.written empty_store /\
   Fetch.igdb_games_doc (Fetch.Store [(500, 0)] 0 None [])
   = Fetch.igdb_games_doc empty_store).
Proof.
  split; [reflexivity|].
  destruct (fetch_main_writes_only_a_fetched_catalog
              (constant_env 500 (JInt 7)) (Some "token") 2 empty_store true
              (Fetch.Store [(500, 0)] 0 None []) eq_refl)
    as [H | (games & st1 & Hf & _)]; [exact H | discriminate Hf].
Defined.

(** Against a service that serves a non-empty catalog, with a token, a
    writable catalog document and enough iterations, [main] of the fetch
    script stores the whole catalog, in order. *)
Theorem fetch_main_stores_the_catalog e db token fuel st :
  serves_catalog e db ->
  token <> "" ->
  db <> [] ->
  Fetch.can_write e Fetch.igdb_games_file = true ->
  (length db < fuel)%nat ->
  exists caught st',
    Fetch.main e (Some token) fuel st = Some (caught, st') /\
    Fetch.igdb_games_doc st' = Some db /\
    Fetch.written st' = Fetch.written st ++ [Fetch.igdb_games_file].
Proof.
  intros Hserve Htok Hdb Hw Hfuel. unfold Fetch.main, Fetch.fetch_games.
  destruct token as [|c token]; [contradiction|].
  destruct (fetch_loop_catalog e db None (Z.min 500 500) Hserve ltac:(lia)
              fuel 0 st ltac:(lia) ltac:(simpl; lia) I ltac:(simpl; lia))
    as (st1 & Hrun & Hw1 & _).
  change (take (Z.to_nat 0) db) with (@nil json) in Hrun. rewrite Hrun.
  destruct db as [|g db]; [contradiction|].
  unfold Fetch.save_to_json. rewrite Hw. rewrite String.eqb_refl.
  destruct (log_sample_cases (g :: db)) as [Hl | [x Hl]]; rewrite Hl;
    eexists _, _; (split; [reflexivity|]); simpl; rewrite Hw1; auto.
Qed.

Lemma fetch_main_stores_the_catalog_witness :
  exists caught st',
    Fetch.main (catalog_env seven_games) (Some "token") 8 empty_store
    = Some (caught, st') /\
    Fetch.igdb_games_doc st' = Some seven_games /\
    Fetch.written st' = Fetch.written empty_store ++ [Fetch.igdb_games_file].
Proof.
  apply (fetch_main_stores_the_catalog (catalog_env seven_games) seven_games
           "token" 8 empty_store).
  - intros history limit offset _ _. exists 200. reflexivity.
  - discriminate.
  - discriminate.
  - reflexivity.
  - simpl. lia.
Defined.

(** ** The app list, the gate and the summary of the enrichment script *)

Lemma steam_apps_fold_lookup items (m : gmap Z json) n :
  is_Some (fold_left (fun m kv =>
                        match EnrichScript.as_int_key (fst kv) with
                        | Some k => <[k := snd kv]> m
                        | None => m
                        end) items m !! n) <->
  is_Some (m !! n) \/
  exists kv, In kv items /\ EnrichScript.as_int_key (fst kv) = Some n.
Proof.
  revert m. induction items as [|kv items IH]; intros m; simpl.
  - split; [auto | intros [H | (kv & [] & _)]; exact H].
  - rewrite IH. split.
    + intros [H | (kv' & Hin & Hk)]; [|right; eauto].
      destruct (EnrichScript.as_int_key (fst kv)) as [k|] eqn:Hk; [|auto].
      rewrite lookup_insert_is_Some in H.
      destruct H as [-> | [_ H]]; [right; eauto | auto].
    + intros [H | (kv' & [<- | Hin] & Hk)].
      * left. destruct (EnrichScript.as_int_key (fst kv)) as [k|]; [|exact H].
        rewrite lookup_insert_is_Some. destruct (decide (k = n)); auto.
      * left. rewrite Hk. rewrite lookup_insert_eq. eauto.
      * right. eauto.
Qed.

Lemma app_items_wf apps :
  Forall (fun app => exists n, py_getitem app "appid" = Ok (JInt n)) apps ->
  exists items,
    EnrichScript.app_items apps = Ok items /\
    forall kv, In kv items <->
               exists app n, In app apps /\
                             py_getitem app "appid" = Ok (JInt n) /\
                             kv = (JInt n, app).
Proof.
  induction 1 as [|app apps [n Hn] _ (items & Hi & Hin)].
  - exists []. split; [reflexivity|]. intros kv. split; [intros [] |].
    intros (app & n & [] & _).
  - exists ((JInt n, app) :: items). simpl. rewrite Hn. simpl. rewrite Hi.
    split; [reflexivity|]. intros kv. simpl. rewrite Hin. split.
    + intros [<- | (app' & n' & Ha & Hk & ->)]; eauto 7.
    + intros (app' & n' & [<- | Ha] & Hk & ->).
      * left. congruence.
      * right. eauto.
Qed.

(** Reading the app list and looking an identifier up: when every entry of
    ['applist']['apps'] is a mapping with an integer ['appid'], an integer is
    a key of the dict [load_steam_apps] builds exactly when some entry has it
    as its ['appid']. *)
Theorem steam_apps_dict_has_the_listed_ids inp steam_data applist apps n :
  EnrichScript.steam_applist_doc inp = Some steam_data ->
  py_getitem steam_data "applist" = Ok applist ->
  py_getitem applist "apps" = Ok (JList apps) ->
  Forall (fun app => exists k, py_getitem app "appid" = Ok (JInt k)) apps ->
  is_Some (EnrichScript.steam_apps_dict (EnrichScript.load_steam_apps inp) !! n)
  <-> exists app, In app apps /\ py_getitem app "appid" = Ok (JInt n).
Proof.
  intros Hdoc Hal Hap Hwf.
  destruct (app_items_wf apps Hwf) as (items & Hi & Hin).
  unfold EnrichScript.load_steam_apps. rewrite Hdoc, Hal. simpl.
  rewrite Hap. simpl. rewrite Hi.
  unfold EnrichScript.steam_apps_dict. rewrite steam_apps_fold_lookup. split.
  - intros [H | (kv & Hkv & Hk)].
    + rewrite lookup_empty in H. destruct H. discriminate.
    + apply Hin in Hkv as (app & k & Ha & Hg & ->). simpl in Hk.
      inversion Hk; subst. eauto.
  - intros (app & Ha & Hg). right. exists (JInt n, app).
    split; [|reflexivity]. apply Hin. eauto.
Qed.

Lemma steam_apps_dict_has_the_listed_ids_witness :
  is_Some (EnrichScript.steam_apps_dict
             (EnrichScript.load_steam_apps
                (EnrichScript.Inputs None
                   (Some (applist_doc [steam_app 440 "Team Fortress 2";
                                       steam_app 570 "Dota 2"])))) !! 570)
  <-> exists app,
        In app [steam_app 440 "Team Fortress 2"; steam_app 570 "Dota 2"] /\
        py_getitem app "appid" = Ok (JInt 570).
Proof.
  apply (steam_apps_dict_has_the_listed_ids
           (EnrichScript.Inputs None
              (Some (applist_doc [steam_app 440 "Team Fortress 2";
                                  steam_app 570 "Dota 2"])))
           (applist_doc [steam_app 440 "Team Fortress 2"; steam_app 570 "Dota 2"])
           (JObj [("apps", JList [steam_app 440 "Team Fortress 2";
                                  steam_app 570 "Dota 2"])])
           [steam_app 440 "Team Fortress 2"; steam_app 570 "Dota 2"] 570).
  - reflexivity.
  - reflexivity.
  - reflexivity.
  - repeat constructor; eexists; reflexivity.
Defined.

Lemma app_items_bad_entry apps app :
  In app apps -> is_ok (py_getitem app "appid") = false ->
  is_ok (EnrichScript.app_items apps) = false.
Proof.
  induction apps as [|a apps IH]; intros Hin Hbad; [destruct Hin|].
  simpl. destruct Hin as [-> | Hin].
  - destruct (py_getitem app "appid"); [discriminate | reflexivity].
  - destruct (py_getitem a "appid") as [[| | | | | |]|]; simpl; try reflexivity;
      destruct (EnrichScript.app_items apps); try reflexivity;
      specialize (IH Hin Hbad); discriminate.
Qed.

(** Loading the app list is all or nothing: a single entry whose ['appid']
    cannot be read (an entry without the key, or one that is not a mapping)
    makes [load_steam_apps] return the empty dict, and [main] then returns
    without a request and without writing anything. *)
Theorem one_bad_app_entry_empties_the_app_list w inp st steam_data applist apps app :
  EnrichScript.steam_applist_doc inp = Some steam_data ->
  py_getitem steam_data "applist" = Ok applist ->
  py_getitem applist "apps" = Ok (JList apps) ->
  In app apps ->
  is_ok (py_getitem app "appid") = false ->
  EnrichScript.load_steam_apps inp = [] /\
  EnrichScript.main w inp st = (Returns None, st).
Proof.
  intros Hdoc Hal Hap Hin Hbad.
  assert (Hload : EnrichScript.load_steam_apps inp = []).
  { unfold EnrichScript.load_steam_apps. rewrite Hdoc, Hal. simpl.
    rewrite Hap. simpl.
    pose proof (app_items_bad_entry apps app Hin Hbad) as H.
    destruct (EnrichScript.app_items apps); [discriminate | reflexivity]. }
  split; [exact Hload|]. unfold EnrichScript.main. rewrite Hload.
  destruct (EnrichScript.load_igdb_games inp); reflexivity.
Qed.

Lemma one_bad_app_entry_empties_the_app_list_witness :
  EnrichScript.load_steam_apps
    (EnrichScript.Inputs (Some [tf2])
       (Some (applist_doc [steam_app 440 "Team Fortress 2";
                           JObj [("name", JStr "no id")]]))) = [] /\
  EnrichScript.main (world_status 200)
    (EnrichScript.Inputs (Some [tf2])
       (Some (applist_doc [steam_app 440 "Team Fortress 2";
                           JObj [("name", JStr "no id")]]))) fresh
  = (Returns None, fresh).
Proof.
  apply (one_bad_app_entry_empties_the_app_list (world_status 200)
           (EnrichScript.Inputs (Some [tf2])
              (Some (applist_doc [steam_app 440 "Team Fortress 2";
                                  JObj [("name", JStr "no id")]])))
           fresh
           (applist_doc [steam_app 440 "Team Fortress 2";
                         JObj [("name", JStr "no id")]])
           (JObj [("apps", JList [steam_app 440 "Team Fortress 2";
                                  JObj [("name", JStr "no id")]])])
           [steam_app 440 "Team Fortress 2"; JObj [("name", JStr "no id")]]
           (JObj [("name", JStr "no id")])).
  - reflexivity.
  - reflexivity.
  - reflexivity.
  - right. left. reflexivity.
  - reflexivity.
Defined.

Lemma gate_closed games :
  Forall (fun g => exists d, g = JObj d /\ dict_get "external_games" d = None)
         games ->
  EnrichScript.any_has_external_games games = Ok false.
Proof.
  induction 1 as [|g games (d & -> & Hd) _ IH]; [reflexivity|].
  simpl. rewrite Hd. simpl. exact IH.
Qed.

(** [main] of the enrichment script decides from the first ten records
    alone: when none of them has an ['external_games'] field, it returns
    without a request and without writing anything, whatever the records
    after the tenth hold. *)
Theorem enrich_main_gate_reads_ten_records w inp st :
  Forall (fun g => exists d, g = JObj d /\ dict_get "external_games" d = None)
         (firstn 10 (EnrichScript.load_igdb_games inp)) ->
  EnrichScript.main w inp st = (Returns None, st).
Proof.
  intros H. unfold EnrichScript.main.
  destruct (EnrichScript.load_igdb_games inp) as [|g games]; [reflexivity|].
  destruct (EnrichScript.load_steam_apps inp); [reflexivity|].
  rewrite (gate_closed _ H). reflexivity.
Qed.

Lemma enrich_main_gate_reads_ten_records_witness :
  EnrichScript.main (world_status 200)
    (EnrichScript.Inputs
       (Some (repeat plain_game 10 ++ [tf2]))
       (Some (applist_doc [steam_app 440 "Team Fortress 2"]))) fresh
  = (Returns None, fresh).
Proof.
  apply (enrich_main_gate_reads_ten_records (world_status 200)
           (EnrichScript.Inputs
              (Some (repeat plain_game 10 ++ [tf2]))
              (Some (applist_doc [steam_app 440 "Team Fortress 2"]))) fresh).
  repeat constructor; eexists; split; reflexivity.
Defined.

Lemma enrich_step_summary w apps g a st :
  is_ok (Enrich.find_steam_app_id g) = true ->
  has_key "steamInfo" g = false ->
  exists a' st' g' (b : bool),
    Enrich.enrich_step w apps g a st = (Ok a', st') /\
    Enrich.enriched_games a' = Enrich.enriched_games a ++ [g'] /\
    Enrich.steam_enriched_count a'
    = ((if b then 1 else 0) + Enrich.steam_enriched_count a)%nat /\
    py_contains_str "steamInfo" g' = Ok b /\
    (exists d', g' = JObj d') /\
    (b = true -> exists dd, py_getitem g' "steamInfo" = Ok (JObj dd)).
Proof.
  intros Hok Hno. destruct (Enrich.find_steam_app_id g) as [o|] eqn:Hf;
    [clear Hok | discriminate].
  destruct (enrich_find_obj _ _ Hf) as [d ->].
  assert (Hplain :
    Enrich.enrich_step w apps (JObj d) a st =
    (Ok (Enrich.Acc (Enrich.enriched_games a ++ [JObj d])
                    (Enrich.failed_steam_ids a)
                    (Enrich.steam_enriched_count a)), st) \/
    (exists x,
       Enrich.enrich_step w apps (JObj d) a st =
       (Ok (Enrich.Acc (Enrich.enriched_games a ++ [JObj d])
                       (Enrich.failed_steam_ids a ++ [x])
                       (Enrich.steam_enriched_count a)),
        sleep (record_call x st))) ->
    exists a' st' g' (b : bool),
      Enrich.enrich_step w apps (JObj d) a st = (Ok a', st') /\
      Enrich.enriched_games a' = Enrich.enriched_games a ++ [g'] /\
      Enrich.steam_enriched_count a'
      = ((if b then 1 else 0) + Enrich.steam_enriched_count a)%nat /\
      py_contains_str "steamInfo" g' = Ok b /\
      (exists d', g' = JObj d') /\
      (b = true -> exists dd, py_getitem g' "steamInfo" = Ok (JObj dd))).
  { simpl in Hno.
    intros [Heq | [x Heq]]; rewrite Heq.
    - exists (Enrich.Acc (Enrich.enriched_games a ++ [JObj d])
                         (Enrich.failed_steam_ids a)
                         (Enrich.steam_enriched_count a)), st, (JObj d), false.
      simpl. rewrite Hno. repeat split; eauto. discriminate.
    - exists (Enrich.Acc (Enrich.enriched_games a ++ [JObj d])
                         (Enrich.failed_steam_ids a ++ [x])
                         (Enrich.steam_enriched_count a)),
             (sleep (record_call x st)), (JObj d), false.
      simpl. rewrite Hno. repeat split; eauto. discriminate. }
  destruct (id_truthy o) as [x|] eqn:Ho.
  - apply id_truthy_nonzero in Ho as [-> Hx].
    destruct (apps !! x) as [v|] eqn:Ha.
    + destruct (fst (Enrich.get_steamspy_data w x st)) as [data|] eqn:Hs.
      * rewrite (enrich_step_enriched _ _ _ _ _ _ _ _ Hf Hx Ha Hs).
        destruct (fetched_truthy _ _ _ _ Hs) as [_ [dd ->]].
        eexists _, _, (JObj (dict_set "steamInfo" (JObj dd) d)), true.
        split; [reflexivity|].
        unfold py_contains_str, has_key, py_getitem.
        rewrite dict_get_set. repeat split; eauto.
      * apply Hplain. right. exists x.
        apply (enrich_step_failed _ _ _ _ _ _ _ Hf Hx Ha Hs).
    + apply Hplain. left. apply (enrich_step_gated _ _ _ _ _ _ Hf).
      rewrite (id_truthy_some _ Hx). exact Ha.
  - apply Hplain. left. apply (enrich_step_gated _ _ _ _ _ _ Hf).
    rewrite Ho. exact I.
Qed.

Lemma enrich_loop_summary w apps games :
  Forall (fun g => is_ok (Enrich.find_steam_app_id g) = true) games ->
  Forall (fun g => has_key "steamInfo" g = false) games ->
  forall a st,
    exists a' st' outs k,
      Enrich.enrich_loop w apps games a st = (Ok a', st') /\
      Enrich.enriched_games a' = Enrich.enriched_games a ++ outs /\
      length outs = length games /\
      Enrich.steam_enriched_count a' = (k + Enrich.steam_enriched_count a)%nat /\
      EnrichScript.count_steam_info outs = Ok k /\
      forall c, exists lines,
          EnrichScript.sample_lines outs c = Ok lines /\
          length lines = Nat.min (5 - c) k.
Proof.
  intros Hok Hno. induction games as [|g games IH]; intros a st.
  - exists a, st, [], 0%nat. simpl. rewrite app_nil_r.
    repeat split; try reflexivity.
    intros c. exists []. split; [reflexivity|]. simpl. lia.
  - apply Forall_cons in Hok as [Hg Hok]. apply Forall_cons in Hno as [Hn Hno].
    destruct (enrich_step_summary w apps g a st Hg Hn)
      as (a1 & st1 & g' & b & Hs & Ho1 & Hc1 & Hb & [d' Hd'] & Hinfo).
    destruct (IH Hok Hno a1 st1)
      as (a2 & st2 & outs & k & Hl & Ho2 & Hlen & Hc2 & Hk & Hlines).
    exists a2, st2, (g' :: outs), ((if b then 1 else 0) + k)%nat.
    simpl Enrich.enrich_loop. rewrite Hs.
    split; [exact Hl|].
    split; [rewrite Ho2, Ho1, <- app_assoc; reflexivity|].
    split; [simpl; lia|]. split; [lia|].
    split; [simpl; rewrite Hb; simpl; rewrite Hk; simpl; destruct b; reflexivity|].
    intros c. simpl. rewrite Hb. simpl.
    destruct b; simpl.
    + destruct (c <? 5)%nat eqn:Hc5.
      * apply Nat.ltb_lt in Hc5.
        destruct (Hinfo eq_refl) as [dd Hdd]. rewrite Hdd. simpl.
        subst g'. simpl.
        destruct (Hlines (S c)) as (lines & -> & Hll). simpl.
        eexists. split; [reflexivity|]. simpl. lia.
      * apply Nat.ltb_ge in Hc5.
        destruct (Hlines c) as (lines & -> & Hll).
        eexists. split; [reflexivity|]. lia.
    + destruct (Hlines c) as (lines & -> & Hll).
      eexists. split; [reflexivity|]. lia.
Qed.

(** The summary agrees with the enrichment loop.  When [main] gets past its
    checks on records the extractor accepts, none of which carries an
    enrichment field, and both documents can be written, it returns
    normally; the dataset on disk is the output of the loop; the summary
    counts as many games as were loaded and as many enriched games as the
    loop counted successful fetches; and it shows one sample line per
    enriched game up to five. *)
Theorem enrich_main_summary_matches_the_loop w inp st g games kv items :
  EnrichScript.load_igdb_games inp = g :: games ->
  EnrichScript.load_steam_apps inp = kv :: items ->
  EnrichScript.any_has_external_games (firstn 10 (g :: games)) = Ok true ->
  Forall (fun r => is_ok (Enrich.find_steam_app_id r) = true) (g :: games) ->
  Forall (fun r => has_key "steamInfo" r = false) (g :: games) ->
  writable w failed_file = true ->
  writable w enriched_file = true ->
  exists a st1 s st',
    Enrich.enrich_loop w (EnrichScript.steam_apps_dict (kv :: items))
                       (g :: games) (Enrich.Acc [] [] 0) st = (Ok a, st1) /\
    EnrichScript.main w inp st = (Returns (Some s), st') /\
    enriched_doc st' = Some (Enrich.enriched_games a) /\
    EnrichScript.total_games s = length (g :: games) /\
    EnrichScript.games_with_steam_info s = Enrich.steam_enriched_count a /\
    length (EnrichScript.sample s) = Nat.min 5 (Enrich.steam_enriched_count a).
Proof.
  intros Hgames Hitems Hgate Hok Hno Hwf Hwe.
  destruct (enrich_loop_summary w (EnrichScript.steam_apps_dict (kv :: items))
              (g :: games) Hok Hno (Enrich.Acc [] [] 0) st)
    as (a & st1 & outs & k & Hl & Ho & Hlen & Hc & Hk & Hlines).
  simpl in Ho, Hc. subst outs. rewrite Nat.add_0_r in Hc. subst k.
  destruct (enrich_after_loop _ _ _ _ _ _ Hl Hwf) as (st2 & He & _).
  unfold EnrichScript.main. rewrite Hgames, Hitems, Hgate, He.
  destruct (Enrich.enriched_games a) as [|o outs] eqn:Hout;
    [simpl in Hlen; discriminate|].
  unfold EnrichScript.print_enrichment_summary. rewrite Hk.
  unfold EnrichScript.save_enriched_data, write_enriched. rewrite Hwe.
  destruct (Hlines 0%nat) as (lines & Hsl & Hll).
  destruct (0 <? Enrich.steam_enriched_count a)%nat eqn:Hpos.
  - rewrite Hsl. eexists a, st1, _, _. split; [exact Hl|].
    split; [reflexivity|]. simpl. rewrite Hout. repeat split; auto.
  - apply Nat.ltb_ge in Hpos. eexists a, st1, _, _. split; [exact Hl|].
    split; [reflexivity|]. simpl. rewrite Hout.
    assert (Hzero : Enrich.steam_enriched_count a = 0%nat) by lia.
    rewrite Hzero. repeat split; auto.
Qed.

Lemma enrich_main_summary_matches_the_loop_witness :
  exists a st1 s st',
    Enrich.enrich_loop (world_status 200)
      (EnrichScript.steam_apps_dict
         [(JInt 440, steam_app 440 "Team Fortress 2")])
      [tf2; plain_game] (Enrich.Acc [] [] 0) fresh = (Ok a, st1) /\
    EnrichScript.main (world_status 200)
      (EnrichScript.Inputs (Some [tf2; plain_game])
         (Some (applist_doc [steam_app 440 "Team Fortress 2"]))) fresh
    = (Returns (Some s), st') /\
    enriched_doc st' = Some (Enrich.enriched_games a) /\
    EnrichScript.total_games s = length [tf2; plain_game] /\
    EnrichScript.games_with_steam_info s = Enrich.steam_enriched_count a /\
    length (EnrichScript.sample s) = Nat.min 5 (Enrich.steam_enriched_count a).
Proof.
  apply (enrich_main_summary_matches_the_loop (world_status 200)
           (EnrichScript.Inputs (Some [tf2; plain_game])
              (Some (applist_doc [steam_app 440 "Team Fortress 2"])))
           fresh tf2 [plain_game]
           (JInt 440, steam_app 440 "Team Fortress 2") []).
  - reflexivity.
  - reflexivity.
  - reflexivity.
  - repeat constructor.
  - repeat constructor.
  - reflexivity.
  - reflexivity.
Defined.
